(** * neo_kinematics_omnidrive: shallow embedding and verification

    The development embeds two translation units of the repository:

    - [include/OmniKinematics.h]: the inverse-kinematics solver
      [OmniKinematics::compute] with its per-wheel hysteresis memory;
    - [src/neo_omnidrive_socketcan.cpp]: the CAN frame codec
      ([canopen_query], [canopen_set_int], [read_int32]), the status decoder
      ([evaluate_status]), the status-reply watchdog ([check_motor_timeout]),
      the homing test ([check_homing_done]) and the velocity command
      ([motor_set_vel]); further the SDO download, the receive path
      ([handle_PDO1], [handle_PDO2], [evaluate_motor_failure]) and the
      sequencer of the node ([initialize], [update],
      [emergency_stop_callback], [start_homing], [finish_homing] and the
      commands they send).

    Platform conventions.  The driver is Linux/SocketCAN code.  [int] and
    [int32_t] are 32-bit two's complement integers, [double] is IEEE-754
    binary64 (Rocq's primitive [float]), a right shift of a negative integer
    is arithmetic, and integer overflow wraps.  The signedness of plain
    [char] is left to the ABI by the language; it is an explicit parameter
    [char_abi] of the codec (signed on x86-64, unsigned on ARM Linux).

    Part I holds the definitions, Part II the lemmas and theorems. *)

From Stdlib Require Import ZArith Bool Lia Ascii Floats.
From stdpp Require Import base list strings pretty.

Local Open Scope Z_scope.

(* ===================================================================== *)
(** * Part I: definitions                                                  *)
(* ===================================================================== *)

(** ** Machine integers and characters *)

Module Machine.

(** Reduction of an integer to a [bits]-wide two's complement value. *)
Definition wrap_signed (bits z : Z) : Z :=
  (z + 2 ^ (bits - 1)) mod 2 ^ bits - 2 ^ (bits - 1).

(** Conversion to [int32_t] / [int]. *)
Definition int32 (z : Z) : Z := wrap_signed 32 z.

Definition INT32_MIN : Z := - 2 ^ 31.
Definition INT32_MAX : Z := 2 ^ 31 - 1.

Definition in_int32 (z : Z) : Prop := INT32_MIN <= z <= INT32_MAX.

(** Conversion to [unsigned char] / [__u8]. *)
Definition uint8 (z : Z) : Z := z mod 256.

(** Conversion to [canid_t], an [__u32]. *)
Definition uint32 (z : Z) : Z := z mod 2 ^ 32.

(** Conversion to [signed char]. *)
Definition int8 (z : Z) : Z := wrap_signed 8 z.

(** Signedness of plain [char], fixed by the target ABI. *)
Inductive char_abi : Set :=
| char_signed      (* x86-64 System V, i386 *)
| char_unsigned.   (* ARM and AArch64 Linux, PowerPC *)

(** Conversion of an integer to plain [char]. *)
Definition to_char (abi : char_abi) (z : Z) : Z :=
  match abi with
  | char_signed => int8 z
  | char_unsigned => uint8 z
  end.

(** [x << n] evaluated in [int32_t]. *)
Definition shl32 (x n : Z) : Z := int32 (Z.shiftl x n).

(** [x >> n] on [int32_t]: arithmetic shift. *)
Definition shr32 (x n : Z) : Z := Z.shiftr x n.

(** Conversion of an integer to [double] (exact below 2^53). *)
Definition Z_to_double (z : Z) : float :=
  if z <? 0 then PrimFloat.opp (PrimFloat.of_uint63 (Uint63.of_Z (- z)))
  else PrimFloat.of_uint63 (Uint63.of_Z z).

(** Conversion [int(x)] of a [double]: truncation toward zero.  A value
    that does not fit (or a NaN) has no defined result in the language;
    the x86-64 instruction [cvttsd2si] delivers [INT_MIN] and so does the
    model. *)
Definition double_to_int (x : float) : Z :=
  match Prim2SF x with
  | S754_zero _ => 0
  | S754_finite s m e =>
      let mag := Z.shiftl (Z.pos m) e in
      let v := if s then - mag else mag in
      if (INT32_MIN <=? v) && (v <=? INT32_MAX) then v else INT32_MIN
  | S754_infinity _ | S754_nan => INT32_MIN
  end.

(** [M_PI] of <math.h>. *)
Definition M_PI : float := 0x1.921fb54442d18p+1.

(** Code of a character literal. *)
Definition chr (c : ascii) : Z := Z.of_N (N_of_ascii c).

(** [sizeof(struct can_frame)]. *)
Definition sizeof_can_frame : Z := 16.

End Machine.

(** ** Exceptions, observable events and the effect monad *)

Module Effects.

(** The [std::exception] subclasses thrown by the code. *)
Inductive exn : Type :=
| logic_error (what : string)
| runtime_error (what : string)
| length_error (what : string).

(** [struct can_frame] of <linux/can.h>: what is handed to [::write]. *)
Record can_frame : Type := mk_can_frame {
  frame_id : Z;                (* can_id *)
  frame_dlc : Z;               (* can_dlc *)
  frame_data : list Z          (* __u8 data[8] *)
}.

(** What a call does to the outside world, in program order. *)
Inductive event : Type :=
| ROS_INFO (text : string)
| ROS_WARN (text : string)
| ROS_ERROR (text : string)
| sys_write (out : can_frame) (res : Z)     (* ::write(m_can_sock, &out, sizeof(out)) = res *)
| sys_shutdown.                             (* ::shutdown(m_can_sock, SHUT_RDWR) *)

(** A computation logs events and either throws or returns. *)
Definition IO (A : Type) : Type := list event * (exn + A).

Definition ret {A} (a : A) : IO A := ([], inr a).

Definition throw {A} (e : exn) : IO A := ([], inl e).

Definition emit (ev : event) : IO unit := ([ev], inr tt).

Definition bind {A B} (m : IO A) (k : A -> IO B) : IO B :=
  match m with
  | (t, inl e) => (t, inl e)
  | (t, inr a) => let '(t', r) := k a in (t ++ t', r)
  end.

Definition trace {A} (m : IO A) : list event := fst m.

Definition result {A} (m : IO A) : exn + A := snd m.

(** [when c m]: an [if] without [else]. *)
Definition when (c : bool) (m : IO unit) : IO unit :=
  if c then m else ret tt.

End Effects.

Import Machine Effects.

Declare Scope io_scope.
Delimit Scope io_scope with io.
Notation "m ;;; k" := (bind m (fun _ => k))
  (at level 100, right associativity) : io_scope.

(** ** Member functions that work on an object by reference *)

Module Stateful.

(** How a call leaves: the object as it is then, the events of the call,
    and the exception or the returned value.  What was assigned before an
    exception stays assigned. *)
Record outcome (E S A : Type) : Type := mk_outcome {
  final : S;
  events : list E;
  returned : exn + A
}.

Arguments mk_outcome {E S A}.
Arguments final {E S A}.
Arguments events {E S A}.
Arguments returned {E S A}.

Definition ST (E S A : Type) : Type := S -> outcome E S A.

Definition st_ret {E S A} (a : A) : ST E S A := fun s => mk_outcome s [] (inr a).

Definition st_throw {E S A} (e : exn) : ST E S A := fun s => mk_outcome s [] (inl e).

Definition st_emit {E S} (ev : E) : ST E S unit := fun s => mk_outcome s [ev] (inr tt).

Definition st_bind {E S A B} (m : ST E S A) (k : A -> ST E S B) : ST E S B :=
  fun s =>
    let r := m s in
    match returned r with
    | inl e => mk_outcome (final r) (events r) (inl e)
    | inr a =>
        let r' := k a (final r) in
        mk_outcome (final r') (events r ++ events r') (returned r')
    end.

Definition st_get {E S} : ST E S S := fun s => mk_outcome s [] (inr s).

Definition st_put {E S} (s : S) : ST E S unit := fun _ => mk_outcome s [] (inr tt).

Definition st_modify {E S} (f : S -> S) : ST E S unit :=
  fun s => mk_outcome (f s) [] (inr tt).

(** A call that does not touch the object; [inj] places its events among
    those of the caller. *)
Definition st_call {E S A} (inj : event -> E) (m : IO A) : ST E S A :=
  fun s => mk_outcome s (map inj (trace m)) (result m).

Definition st_lift {S A} (m : IO A) : ST event S A := st_call (fun ev => ev) m.

Definition st_when {E S} (c : bool) (m : ST E S unit) : ST E S unit :=
  if c then m else st_ret tt.

(** A loop [for (x : l) body(x)]. *)
Fixpoint st_for {E S X} (l : list X) (body : X -> ST E S unit) : ST E S unit :=
  match l with
  | [] => st_ret tt
  | x :: rest => st_bind (body x) (fun _ => st_for rest body)
  end.

End Stateful.

Import Stateful.

Declare Scope st_scope.
Delimit Scope st_scope with st.
Notation "x <- m ;; k" := (st_bind m (fun x => k))
  (at level 100, m at next level, right associativity) : st_scope.
Notation "m ;;; k" := (st_bind m (fun _ => k))
  (at level 100, right associativity) : st_scope.

(** ** ROS time ([ros::Time], [ros::Duration]) *)

Module RosTime.

(** [ros::Time]: seconds and nanoseconds since the epoch; the default
    constructor gives zero. *)
Record Time : Set := mk_Time { sec : Z; nsec : Z }.

Definition Time_zero : Time := mk_Time 0 0.

(** [ros::Duration]: signed seconds, nanoseconds in [0, 10^9). *)
Record Duration : Set := mk_Duration { dsec : Z; dnsec : Z }.

(** [operator<] on [ros::Time]. *)
Definition time_lt (a b : Time) : bool :=
  (sec a <? sec b) || ((sec a =? sec b) && (nsec a <? nsec b)).

(** [operator-] on [ros::Time]: the difference, normalised. *)
Definition time_sub (a b : Time) : Duration :=
  let total := (sec a - sec b) * 1000000000 + (nsec a - nsec b) in
  mk_Duration (total / 1000000000) (total mod 1000000000).

(** [Duration::toSec]: [double(sec) + 1e-9 * double(nsec)]. *)
Definition toSec (d : Duration) : float :=
  (Z_to_double (dsec d) + 0x1.12e0be826d695p-30 * Z_to_double (dnsec d))%float.

End RosTime.

(** ** [NeoSocketCanNode] (src/neo_omnidrive_socketcan.cpp) *)

Module Node.

Import RosTime.

Inductive motor_state_e : Set :=
| ST_PRE_INITIALIZED
| ST_OPERATION_ENABLED
| ST_OPERATION_DISABLED
| ST_MOTOR_FAILURE.

Definition motor_state_eqb (a b : motor_state_e) : bool :=
  match a, b with
  | ST_PRE_INITIALIZED, ST_PRE_INITIALIZED
  | ST_OPERATION_ENABLED, ST_OPERATION_ENABLED
  | ST_OPERATION_DISABLED, ST_OPERATION_DISABLED
  | ST_MOTOR_FAILURE, ST_MOTOR_FAILURE => true
  | _, _ => false
  end.

Record motor_t : Type := mk_motor {
  joint_name : string;
  can_id : Z;
  rot_sign : Z;
  enc_ticks_per_rev : Z;
  enc_home_offset : Z;
  max_vel_enc_s : Z;
  max_accel_enc_s : Z;
  can_Tx_PDO1 : Z;
  can_Tx_PDO2 : Z;
  can_Rx_PDO2 : Z;
  can_Tx_SDO : Z;
  can_Rx_SDO : Z;
  gear_ratio : float;
  state : motor_state_e;
  curr_enc_pos_inc : Z;
  curr_enc_vel_inc_s : Z;
  curr_status : Z;
  curr_motor_failure : Z;
  request_send_time : Time;
  status_recv_time : Time;
  last_update_time : Time;
  homing_state : Z
}.

(** The member initialisers of [motor_t]. *)
Definition motor_default : motor_t := {|
  joint_name := EmptyString;
  can_id := -1;
  rot_sign := 0;
  enc_ticks_per_rev := 0;
  enc_home_offset := 0;
  max_vel_enc_s := 1000000;
  max_accel_enc_s := 1000000;
  can_Tx_PDO1 := -1;
  can_Tx_PDO2 := -1;
  can_Rx_PDO2 := -1;
  can_Tx_SDO := -1;
  can_Rx_SDO := -1;
  gear_ratio := 0%float;
  state := ST_PRE_INITIALIZED;
  curr_enc_pos_inc := 0;
  curr_enc_vel_inc_s := 0;
  curr_status := 0;
  curr_motor_failure := 0;
  request_send_time := Time_zero;
  status_recv_time := Time_zero;
  last_update_time := Time_zero;
  homing_state := -1
|}.

(** [motor.state = s]. *)
Definition set_state (s : motor_state_e) (m : motor_t) : motor_t := {|
  joint_name := joint_name m;
  can_id := can_id m;
  rot_sign := rot_sign m;
  enc_ticks_per_rev := enc_ticks_per_rev m;
  enc_home_offset := enc_home_offset m;
  max_vel_enc_s := max_vel_enc_s m;
  max_accel_enc_s := max_accel_enc_s m;
  can_Tx_PDO1 := can_Tx_PDO1 m;
  can_Tx_PDO2 := can_Tx_PDO2 m;
  can_Rx_PDO2 := can_Rx_PDO2 m;
  can_Tx_SDO := can_Tx_SDO m;
  can_Rx_SDO := can_Rx_SDO m;
  gear_ratio := gear_ratio m;
  state := s;
  curr_enc_pos_inc := curr_enc_pos_inc m;
  curr_enc_vel_inc_s := curr_enc_vel_inc_s m;
  curr_status := curr_status m;
  curr_motor_failure := curr_motor_failure m;
  request_send_time := request_send_time m;
  status_recv_time := status_recv_time m;
  last_update_time := last_update_time m;
  homing_state := homing_state m
|}.

Record module_t : Type := mk_module {
  drive : motor_t;
  steer : motor_t;
  home_dig_in : Z;
  home_angle : float;
  curr_wheel_pos : float;
  curr_wheel_vel : float;
  curr_steer_pos : float;
  curr_steer_vel : float
}.

Record can_msg_t : Type := mk_can_msg {
  msg_id : Z;                    (* id *)
  msg_length : Z;                (* length *)
  msg_data : list Z              (* char data[8] *)
}.

(** A default-constructed [can_msg_t]: [id = -1], [length = 0], [data = {}]. *)
Definition can_msg_default : can_msg_t := mk_can_msg (-1) 0 (replicate 8 0).

(** [msg.data[i]] for an index inside the array. *)
Definition data_at (msg : can_msg_t) (i : Z) : Z :=
  default 0 (msg_data msg !! Z.to_nat i).

(** [msg.data[i] = v]. *)
Definition set_data (i : nat) (v : Z) (msg : can_msg_t) : can_msg_t :=
  mk_can_msg (msg_id msg) (msg_length msg) (<[i := v]> (msg_data msg)).

Definition set_id (v : Z) (msg : can_msg_t) : can_msg_t :=
  mk_can_msg v (msg_length msg) (msg_data msg).

Definition set_length (v : Z) (msg : can_msg_t) : can_msg_t :=
  mk_can_msg (msg_id msg) v (msg_data msg).

(** What the transport does when asked to send: the run flag, the result
    of [::write] for a given frame and the text of [strerror(errno)]. *)
Record transport : Type := mk_transport {
  do_run : bool;
  sock_write : can_frame -> Z;
  sock_strerror : string
}.

Section WithPlatform.

Variable abi : char_abi.
Variable bus : transport.
Variable m_motor_timeout : float.

(** *** Frame codec *)

(** The frame built by [canopen_query] before it is transmitted. *)
Definition canopen_query_msg (motor : motor_t) (cmd_char_1 cmd_char_2 index : Z) : can_msg_t :=
  let msg := can_msg_default in
  let msg := set_id (can_Rx_PDO2 motor) msg in
  let msg := set_length 4 msg in
  let msg := set_data 0 (to_char abi cmd_char_1) msg in
  let msg := set_data 1 (to_char abi cmd_char_2) msg in
  let msg := set_data 2 (to_char abi index) msg in
  let msg := set_data 3 (to_char abi (Z.land (shr32 index 8) 0x3F)) msg in
  msg.

(** The frame built by [canopen_set_int] before it is transmitted. *)
Definition canopen_set_int_msg (motor : motor_t) (cmd_char_1 cmd_char_2 index data : Z) : can_msg_t :=
  let msg := can_msg_default in
  let msg := set_id (can_Rx_PDO2 motor) msg in
  let msg := set_length 8 msg in
  let msg := set_data 0 (to_char abi cmd_char_1) msg in
  let msg := set_data 1 (to_char abi cmd_char_2) msg in
  let msg := set_data 2 (to_char abi index) msg in
  let msg := set_data 3 (to_char abi (Z.land (shr32 index 8) 0x3F)) msg in
  let msg := set_data 4 (to_char abi data) msg in
  let msg := set_data 5 (to_char abi (shr32 data 8)) msg in
  let msg := set_data 6 (to_char abi (shr32 data 16)) msg in
  let msg := set_data 7 (to_char abi (shr32 data 24)) msg in
  msg.

(** The copy loop of [can_transmit]: the first [msg.length] bytes, the
    rest of the zero-initialised frame untouched. *)
Definition to_can_frame (msg : can_msg_t) : can_frame :=
  let n := Z.to_nat (msg_length msg) in
  mk_can_frame (uint32 (msg_id msg)) (uint8 (msg_length msg))
    (take 8 (map uint8 (take n (msg_data msg)) ++ replicate 8 0)).

(** [can_transmit].  The wait on the socket condition ends with a socket
    or with [do_run] cleared; a missing socket shows as a negative
    [::write]. *)
Definition can_transmit (msg : can_msg_t) : IO unit :=
  (let out := to_can_frame msg in
   if negb (do_run bus) then throw (runtime_error "shutdown")
   else
     let res := sock_write bus out in
     emit (sys_write out res) ;;;
     if res <? 0 then
       throw (runtime_error ("write() failed with: " +:+ sock_strerror bus))
     else if negb (res =? sizeof_can_frame) then
       emit sys_shutdown ;;;
       throw (logic_error "write() buffer overflow!")
     else ret tt)%io.

Definition canopen_query (motor : motor_t) (cmd_char_1 cmd_char_2 index : Z) : IO unit :=
  can_transmit (canopen_query_msg motor cmd_char_1 cmd_char_2 index).

Definition canopen_set_int (motor : motor_t) (cmd_char_1 cmd_char_2 index data : Z) : IO unit :=
  can_transmit (canopen_set_int_msg motor cmd_char_1 cmd_char_2 index data).

(** [read_int32]: little-endian decode of four payload bytes. *)
Definition read_int32 (msg : can_msg_t) (offset : Z) : exn + Z :=
  if (offset <? 0) || (offset >? 4) then inl (logic_error "invalid offset")
  else
    inr (Z.lor (Z.lor (Z.lor (shl32 (data_at msg (offset + 3)) 24)
                             (shl32 (data_at msg (offset + 2)) 16))
                      (shl32 (data_at msg (offset + 1)) 8))
               (int32 (data_at msg (offset + 0)))).

(** *** Motor commands *)

(** The value [lim_motor_vel_inc_s] that [motor_set_vel] sends. *)
Definition motor_set_vel_value (motor : motor_t) (rot_vel_rad_s : float) : Z :=
  let motor_vel_rev_s := (gear_ratio motor * rot_vel_rad_s / (2 * M_PI))%float in
  let motor_vel_inc_s :=
    int32 (rot_sign motor
           * double_to_int (motor_vel_rev_s * Z_to_double (enc_ticks_per_rev motor))%float) in
  Z.min (Z.max motor_vel_inc_s (int32 (- max_vel_enc_s motor))) (max_vel_enc_s motor).

Definition motor_set_vel (motor : motor_t) (rot_vel_rad_s : float) : IO unit :=
  canopen_set_int motor (chr "J") (chr "V") 0 (motor_set_vel_value motor rot_vel_rad_s).

(** *** Status decoding *)

(** [evaluate_status].  [motor.state] is assigned after the
    failure-detail query, so an exception of the query leaves the motor
    as the caller passed it. *)
Definition evaluate_status (motor : motor_t) (prev_status : Z) : IO motor_t :=
  (let status := curr_status motor in
   if negb (Z.land status 1 =? 0) then
     when (negb (status =? prev_status))
       (let cause := Z.land status 0xE in
        if cause =? 2 then
          emit (ROS_ERROR (joint_name motor +:+ ": drive error under voltage"))
        else if cause =? 4 then
          emit (ROS_ERROR (joint_name motor +:+ ": drive error over voltage"))
        else if cause =? 10 then
          emit (ROS_ERROR (joint_name motor +:+ ": drive error short circuit"))
        else if cause =? 12 then
          emit (ROS_ERROR (joint_name motor +:+ ": drive error over-heating"))
        else
          emit (ROS_ERROR (joint_name motor +:+ ": unknown failure: " +:+ pretty cause))) ;;;
     canopen_query motor (chr "M") (chr "F") 0 ;;;
     ret (set_state ST_MOTOR_FAILURE motor)
   else if negb (Z.land status (Z.shiftl 1 6) =? 0) then
     when (negb (status =? prev_status))
       (emit (ROS_ERROR (joint_name motor +:+ ": failure latched"))) ;;;
     canopen_query motor (chr "M") (chr "F") 0 ;;;
     ret (set_state ST_MOTOR_FAILURE motor)
   else if negb (Z.land status (Z.shiftl 1 4) =? 0) then
     when (negb (motor_state_eqb (state motor) ST_OPERATION_ENABLED))
       (emit (ROS_INFO (joint_name motor +:+ ": operation enabled"))) ;;;
     ret (set_state ST_OPERATION_ENABLED motor)
   else
     when (negb (motor_state_eqb (state motor) ST_OPERATION_DISABLED))
       (emit (ROS_INFO (joint_name motor +:+ ": operation disabled"))) ;;;
     ret (set_state ST_OPERATION_DISABLED motor))%io.

(** *** Watchdog and homing *)

(** The condition tested by [check_motor_timeout]. *)
Definition status_timed_out (motor : motor_t) (now : Time) : bool :=
  time_lt (status_recv_time motor) (request_send_time motor)
  && (m_motor_timeout <? toSec (time_sub now (request_send_time motor)))%float.

Definition check_motor_timeout (motor : motor_t) (now : Time) : IO motor_t :=
  (if status_timed_out motor now then
     when (negb (motor_state_eqb (state motor) ST_MOTOR_FAILURE))
       (emit (ROS_ERROR (joint_name motor +:+ ": motor status timeout!"))) ;;;
     ret (set_state ST_MOTOR_FAILURE motor)
   else ret motor)%io.

(** *** Receive path *)

(** The conversion at the end of [receive_loop]: the frame read from the
    socket becomes a [can_msg_t], its bytes stored as plain [char]. *)
Definition from_can_frame (frame : can_frame) : can_msg_t :=
  let n := Z.to_nat (frame_dlc frame) in
  mk_can_msg (Z.land (frame_id frame) 0x1FFFFFFF) (frame_dlc frame)
    (take 8 (map (to_char abi) (take n (frame_data frame)) ++ replicate 8 0)).

(** [motor.curr_enc_pos_inc = p; motor.curr_enc_vel_inc_s = v;
    motor.last_update_time = t]. *)
Definition set_encoder (p v : Z) (t : Time) (m : motor_t) : motor_t := {|
  joint_name := joint_name m;
  can_id := can_id m;
  rot_sign := rot_sign m;
  enc_ticks_per_rev := enc_ticks_per_rev m;
  enc_home_offset := enc_home_offset m;
  max_vel_enc_s := max_vel_enc_s m;
  max_accel_enc_s := max_accel_enc_s m;
  can_Tx_PDO1 := can_Tx_PDO1 m;
  can_Tx_PDO2 := can_Tx_PDO2 m;
  can_Rx_PDO2 := can_Rx_PDO2 m;
  can_Tx_SDO := can_Tx_SDO m;
  can_Rx_SDO := can_Rx_SDO m;
  gear_ratio := gear_ratio m;
  state := state m;
  curr_enc_pos_inc := p;
  curr_enc_vel_inc_s := v;
  curr_status := curr_status m;
  curr_motor_failure := curr_motor_failure m;
  request_send_time := request_send_time m;
  status_recv_time := status_recv_time m;
  last_update_time := t;
  homing_state := homing_state m
|}.

(** [handle_PDO1], with [now] the value of [ros::Time::now()]. *)
Definition handle_PDO1 (motor : motor_t) (msg : can_msg_t) (now : Time) : exn + motor_t :=
  match read_int32 msg 0 with
  | inl e => inl e
  | inr p =>
      match read_int32 msg 4 with
      | inl e => inl e
      | inr v => inr (set_encoder p v now motor)
      end
  end.

End WithPlatform.

Fixpoint check_homing_done (m_wheels : list module_t) : bool :=
  match m_wheels with
  | [] => true
  | wheel :: rest =>
      if negb (homing_state (steer wheel) =? 1) then false
      else check_homing_done rest
  end.

(** The signed 32-bit little-endian value carried in bytes 4-7 of a frame
    on the wire. *)
Definition frame_payload_int32 (f : can_frame) : Z :=
  let b k := default 0 (frame_data f !! k) in
  int32 (b 4%nat + 2 ^ 8 * b 5%nat + 2 ^ 16 * b 6%nat + 2 ^ 24 * b 7%nat).

(** *** Further members of the node *)

(** [motor.curr_status = v]. *)
Definition set_curr_status (v : Z) (m : motor_t) : motor_t := {|
  joint_name := joint_name m;
  can_id := can_id m;
  rot_sign := rot_sign m;
  enc_ticks_per_rev := enc_ticks_per_rev m;
  enc_home_offset := enc_home_offset m;
  max_vel_enc_s := max_vel_enc_s m;
  max_accel_enc_s := max_accel_enc_s m;
  can_Tx_PDO1 := can_Tx_PDO1 m;
  can_Tx_PDO2 := can_Tx_PDO2 m;
  can_Rx_PDO2 := can_Rx_PDO2 m;
  can_Tx_SDO := can_Tx_SDO m;
  can_Rx_SDO := can_Rx_SDO m;
  gear_ratio := gear_ratio m;
  state := state m;
  curr_enc_pos_inc := curr_enc_pos_inc m;
  curr_enc_vel_inc_s := curr_enc_vel_inc_s m;
  curr_status := v;
  curr_motor_failure := curr_motor_failure m;
  request_send_time := request_send_time m;
  status_recv_time := status_recv_time m;
  last_update_time := last_update_time m;
  homing_state := homing_state m
|}.

(** [motor.curr_motor_failure = v]. *)
Definition set_curr_motor_failure (v : Z) (m : motor_t) : motor_t := {|
  joint_name := joint_name m;
  can_id := can_id m;
  rot_sign := rot_sign m;
  enc_ticks_per_rev := enc_ticks_per_rev m;
  enc_home_offset := enc_home_offset m;
  max_vel_enc_s := max_vel_enc_s m;
  max_accel_enc_s := max_accel_enc_s m;
  can_Tx_PDO1 := can_Tx_PDO1 m;
  can_Tx_PDO2 := can_Tx_PDO2 m;
  can_Rx_PDO2 := can_Rx_PDO2 m;
  can_Tx_SDO := can_Tx_SDO m;
  can_Rx_SDO := can_Rx_SDO m;
  gear_ratio := gear_ratio m;
  state := state m;
  curr_enc_pos_inc := curr_enc_pos_inc m;
  curr_enc_vel_inc_s := curr_enc_vel_inc_s m;
  curr_status := curr_status m;
  curr_motor_failure := v;
  request_send_time := request_send_time m;
  status_recv_time := status_recv_time m;
  last_update_time := last_update_time m;
  homing_state := homing_state m
|}.

(** [motor.status_recv_time = t]. *)
Definition set_status_recv_time (t : Time) (m : motor_t) : motor_t := {|
  joint_name := joint_name m;
  can_id := can_id m;
  rot_sign := rot_sign m;
  enc_ticks_per_rev := enc_ticks_per_rev m;
  enc_home_offset := enc_home_offset m;
  max_vel_enc_s := max_vel_enc_s m;
  max_accel_enc_s := max_accel_enc_s m;
  can_Tx_PDO1 := can_Tx_PDO1 m;
  can_Tx_PDO2 := can_Tx_PDO2 m;
  can_Rx_PDO2 := can_Rx_PDO2 m;
  can_Tx_SDO := can_Tx_SDO m;
  can_Rx_SDO := can_Rx_SDO m;
  gear_ratio := gear_ratio m;
  state := state m;
  curr_enc_pos_inc := curr_enc_pos_inc m;
  curr_enc_vel_inc_s := curr_enc_vel_inc_s m;
  curr_status := curr_status m;
  curr_motor_failure := curr_motor_failure m;
  request_send_time := request_send_time m;
  status_recv_time := t;
  last_update_time := last_update_time m;
  homing_state := homing_state m
|}.

(** [motor.request_send_time = t]. *)
Definition set_request_send_time (t : Time) (m : motor_t) : motor_t := {|
  joint_name := joint_name m;
  can_id := can_id m;
  rot_sign := rot_sign m;
  enc_ticks_per_rev := enc_ticks_per_rev m;
  enc_home_offset := enc_home_offset m;
  max_vel_enc_s := max_vel_enc_s m;
  max_accel_enc_s := max_accel_enc_s m;
  can_Tx_PDO1 := can_Tx_PDO1 m;
  can_Tx_PDO2 := can_Tx_PDO2 m;
  can_Rx_PDO2 := can_Rx_PDO2 m;
  can_Tx_SDO := can_Tx_SDO m;
  can_Rx_SDO := can_Rx_SDO m;
  gear_ratio := gear_ratio m;
  state := state m;
  curr_enc_pos_inc := curr_enc_pos_inc m;
  curr_enc_vel_inc_s := curr_enc_vel_inc_s m;
  curr_status := curr_status m;
  curr_motor_failure := curr_motor_failure m;
  request_send_time := t;
  status_recv_time := status_recv_time m;
  last_update_time := last_update_time m;
  homing_state := homing_state m
|}.

(** [motor.homing_state = h]. *)
Definition set_homing_state (h : Z) (m : motor_t) : motor_t := {|
  joint_name := joint_name m;
  can_id := can_id m;
  rot_sign := rot_sign m;
  enc_ticks_per_rev := enc_ticks_per_rev m;
  enc_home_offset := enc_home_offset m;
  max_vel_enc_s := max_vel_enc_s m;
  max_accel_enc_s := max_accel_enc_s m;
  can_Tx_PDO1 := can_Tx_PDO1 m;
  can_Tx_PDO2 := can_Tx_PDO2 m;
  can_Rx_PDO2 := can_Rx_PDO2 m;
  can_Tx_SDO := can_Tx_SDO m;
  can_Rx_SDO := can_Rx_SDO m;
  gear_ratio := gear_ratio m;
  state := state m;
  curr_enc_pos_inc := curr_enc_pos_inc m;
  curr_enc_vel_inc_s := curr_enc_vel_inc_s m;
  curr_status := curr_status m;
  curr_motor_failure := curr_motor_failure m;
  request_send_time := request_send_time m;
  status_recv_time := status_recv_time m;
  last_update_time := last_update_time m;
  homing_state := h
|}.

(** [set_motor_can_id]: the node id and the sub-addresses derived from it. *)
Definition set_motor_can_id (id : Z) (m : motor_t) : motor_t := {|
  joint_name := joint_name m;
  can_id := id;
  rot_sign := rot_sign m;
  enc_ticks_per_rev := enc_ticks_per_rev m;
  enc_home_offset := enc_home_offset m;
  max_vel_enc_s := max_vel_enc_s m;
  max_accel_enc_s := max_accel_enc_s m;
  can_Tx_PDO1 := int32 (id + 0x180);
  can_Tx_PDO2 := int32 (id + 0x280);
  can_Rx_PDO2 := int32 (id + 0x300);
  can_Tx_SDO := int32 (id + 0x580);
  can_Rx_SDO := int32 (id + 0x600);
  gear_ratio := gear_ratio m;
  state := state m;
  curr_enc_pos_inc := curr_enc_pos_inc m;
  curr_enc_vel_inc_s := curr_enc_vel_inc_s m;
  curr_status := curr_status m;
  curr_motor_failure := curr_motor_failure m;
  request_send_time := request_send_time m;
  status_recv_time := status_recv_time m;
  last_update_time := last_update_time m;
  homing_state := homing_state m
|}.

(** [all_motors_operational], with the flag [is_em_stop]. *)
Fixpoint all_motors_operational (m_wheels : list module_t) (is_em_stop : bool) : bool :=
  match m_wheels with
  | [] => negb is_em_stop
  | wheel :: rest =>
      if negb (motor_state_eqb (state (drive wheel)) ST_OPERATION_ENABLED)
         || negb (motor_state_eqb (state (steer wheel)) ST_OPERATION_ENABLED)
      then false
      else all_motors_operational rest is_em_stop
  end.

(** [wheel.drive = d; wheel.steer = s]. *)
Definition set_motors (d s : motor_t) (wheel : module_t) : module_t :=
  mk_module d s (home_dig_in wheel) (home_angle wheel) (curr_wheel_pos wheel)
    (curr_wheel_vel wheel) (curr_steer_pos wheel) (curr_steer_vel wheel).

(** [evaluate_motor_failure]: the report of a changed failure word. *)
Definition evaluate_motor_failure (motor : motor_t) (prev_status : Z) : IO unit :=
  let failure := curr_motor_failure motor in
  let bit n := negb (Z.land failure (Z.shiftl 1 n) =? 0) in
  when (negb (failure =? prev_status))
    (if bit 2 then
       emit (ROS_ERROR (joint_name motor +:+ ": motor failure: feedback loss"))
     else if bit 3 then
       emit (ROS_ERROR (joint_name motor +:+ ": motor failure: peak current exceeded"))
     else if bit 7 then
       emit (ROS_ERROR (joint_name motor +:+ ": motor failure: speed track error"))
     else if bit 8 then
       emit (ROS_ERROR (joint_name motor +:+ ": motor failure: position track error"))
     else if bit 17 then
       emit (ROS_ERROR (joint_name motor +:+ ": motor failure: speed limit exceeded"))
     else if bit 21 then
       emit (ROS_ERROR (joint_name motor +:+ ": motor failure: motor stuck"))
     else ret tt).

Section Receive.

Variable abi : char_abi.
Variable bus : transport.

(** The frame built by [canopen_SDO_download] before it is transmitted. *)
Definition canopen_SDO_download_msg (motor : motor_t) (obj_index obj_sub_index data : Z)
    : can_msg_t :=
  let ciInitDownloadReq := 0x20 in
  let ciNrBytesNoData := 0x00 in
  let ciExpedited := 0x02 in
  let ciDataSizeInd := 0x01 in
  let msg := can_msg_default in
  let msg := set_id (can_Rx_SDO motor) msg in
  let msg := set_length 8 msg in
  let msg :=
    set_data 0
      (to_char abi
         (Z.lor (Z.lor (Z.lor ciInitDownloadReq (shl32 ciNrBytesNoData 2)) ciExpedited)
            ciDataSizeInd)) msg in
  let msg := set_data 1 (to_char abi obj_index) msg in
  let msg := set_data 2 (to_char abi (shr32 obj_index 8)) msg in
  let msg := set_data 3 (to_char abi obj_sub_index) msg in
  let msg := set_data 4 (to_char abi data) msg in
  let msg := set_data 5 (to_char abi (shr32 data 8)) msg in
  let msg := set_data 6 (to_char abi (shr32 data 16)) msg in
  let msg := set_data 7 (to_char abi (shr32 data 24)) msg in
  msg.

Definition canopen_SDO_download (motor : motor_t) (obj_index obj_sub_index data : Z) : IO unit :=
  can_transmit bus (canopen_SDO_download_msg motor obj_index obj_sub_index data).

(** The value that [motor_set_pos_abs] sends. *)
Definition motor_set_pos_abs_value (motor : motor_t) (angle_rad : float) : Z :=
  let motor_pos_rev := (gear_ratio motor * angle_rad / (2 * M_PI))%float in
  int32 (rot_sign motor
         * double_to_int (motor_pos_rev * Z_to_double (enc_ticks_per_rev motor))%float).

Definition motor_set_pos_abs (motor : motor_t) (angle_rad : float) : IO unit :=
  canopen_set_int abi bus motor (chr "P") (chr "A") 0 (motor_set_pos_abs_value motor angle_rad).

(** The test [msg.data[0] == c1 && msg.data[1] == c2] of [handle_PDO2]. *)
Definition is_reply (msg : can_msg_t) (c1 c2 : ascii) : bool :=
  (data_at msg 0 =? chr c1) && (data_at msg 1 =? chr c2).

(** The value stored by [motor.curr_status = read_int32(msg, 4)]; the
    offset 4 is in range, so nothing is thrown. *)
Definition read_int32_at4 (msg : can_msg_t) : Z :=
  match read_int32 msg 4 with
  | inr v => v
  | inl _ => 0
  end.

(** [handle_PDO2] on the motor passed by reference, with [now] the value of
    [ros::Time::now()] in the status branch. *)
Definition handle_PDO2 (msg : can_msg_t) (now : Time) : ST event motor_t unit :=
  (st_when (is_reply msg "S" "R")
     (motor <- st_get ;;
      let prev_status := curr_status motor in
      st_modify (set_curr_status (read_int32_at4 msg)) ;;;
      motor <- st_get ;;
      motor <- st_lift (evaluate_status abi bus motor prev_status) ;;
      st_put motor ;;;
      st_modify (set_status_recv_time now)) ;;;
   st_when (is_reply msg "M" "F")
     (motor <- st_get ;;
      let prev_status := curr_motor_failure motor in
      st_modify (set_curr_motor_failure (read_int32_at4 msg)) ;;;
      motor <- st_get ;;
      st_lift (evaluate_motor_failure motor prev_status)) ;;;
   st_when (is_reply msg "H" "M")
     (st_modify (set_homing_state (if data_at msg 4 =? 0 then 1 else 0))))%st.

(** The watchdog pass at the head of [update]: every wheel's drive motor,
    then its steer motor, all against the same [now]. *)
Fixpoint check_motor_timeouts (m_motor_timeout : float) (m_wheels : list module_t)
    (now : Time) : IO (list module_t) :=
  match m_wheels with
  | [] => ret []
  | wheel :: rest =>
      bind (check_motor_timeout m_motor_timeout (drive wheel) now) (fun d =>
      bind (check_motor_timeout m_motor_timeout (steer wheel) now) (fun s =>
      bind (check_motor_timeouts m_motor_timeout rest now) (fun rest' =>
      ret (set_motors d s wheel :: rest'))))
  end.

End Receive.

(** The little-endian two's complement bytes of a 32-bit value, as the
    motor controllers put them into a telemetry frame. *)
Definition le_bytes (v : Z) : list Z :=
  [uint8 v; uint8 (shr32 v 8); uint8 (shr32 v 16); uint8 (shr32 v 24)].

(** The values a plain [char] can hold. *)
Definition is_char (abi : char_abi) (c : Z) : Prop :=
  match abi with
  | char_signed => -128 <= c < 128
  | char_unsigned => 0 <= c < 256
  end.

(** A message as the node builds them: an 11- or 29-bit identifier, a
    length of at most 8, eight [char]s of which those beyond the length are
    zero. *)
Definition msg_ok (abi : char_abi) (msg : can_msg_t) : Prop :=
  0 <= msg_id msg < 2 ^ 29
  /\ 0 <= msg_length msg <= 8
  /\ length (msg_data msg) = 8%nat
  /\ Forall (is_char abi) (msg_data msg)
  /\ drop (Z.to_nat (msg_length msg)) (msg_data msg)
     = replicate (8 - Z.to_nat (msg_length msg)) 0.

(** An error report of the ROS log. *)
Definition is_report (ev : event) : Prop := exists text, ev = ROS_ERROR text.

(** The three low bytes of a value are below 0x80, so that a signed plain
    [char] holds them unchanged. *)
Definition low_bytes_plain (v : Z) : Prop :=
  uint8 v < 128 /\ uint8 (shr32 v 8) < 128 /\ uint8 (shr32 v 16) < 128.

(** The five bus addresses of a motor. *)
Definition sub_addresses (m : motor_t) : list Z :=
  [can_Tx_PDO1 m; can_Tx_PDO2 m; can_Rx_PDO2 m; can_Tx_SDO m; can_Rx_SDO m].

End Node.

(** ** [OmniKinematics] (include/OmniKinematics.h) *)

Module Kin.

(** The functions of <math.h> that the solver calls and that binary64
    arithmetic does not fix ([fabs] is [PrimFloat.abs]). *)
Class LibM : Type := {
  sin : float -> float;
  cos : float -> float;
  atan2 : float -> float -> float;
  hypot : float -> float -> float
}.

(** The functions of ROS's <angles/angles.h> that the solver calls. *)
Class Angles : Type := {
  normalize_angle : float -> float;
  shortest_angular_distance : float -> float -> float
}.

(** Modelled from the spec: include/OmniWheel.h is not among the sources.
    [OmniWheel] has the data members that [compute] reads and writes
    (wheel angle and velocity, home angle, centre position); whatever else
    the class declares is the opaque component [other_members]. *)
Record OmniWheel (Members : Type) : Type := mk_OmniWheel {
  wheel_angle : float;
  wheel_vel : float;
  home_angle : float;
  center_pos_x : float;
  center_pos_y : float;
  other_members : Members
}.

Arguments mk_OmniWheel {Members}.
Arguments wheel_angle {Members}.
Arguments wheel_vel {Members}.
Arguments home_angle {Members}.
Arguments center_pos_x {Members}.
Arguments center_pos_y {Members}.
Arguments other_members {Members}.

(** Modelled from the spec: the member functions of [OmniWheel] that
    [compute] calls; their bodies are in include/OmniWheel.h. *)
Class OmniWheelMethods (Members : Type) : Type := {
  get_wheel_pos_radius : OmniWheel Members -> float;
  get_wheel_pos_angle : OmniWheel Members -> float;
  set_wheel_angle : float -> OmniWheel Members -> OmniWheel Members
}.

(** The solver object: public tuning members and private state. *)
Record OmniKinematics : Type := mk_OmniKinematics {
  zero_vel_threshold : float;
  steering_hysteresis : float;
  home_on_stop : bool;
  num_wheels : Z;
  is_driving : list bool;
  is_alternate : list bool
}.

(** The constructor; [resize] with a negative count throws. *)
Definition OmniKinematics_new (num_wheels_ : Z) : exn + OmniKinematics :=
  if num_wheels_ <? 0 then inl (length_error "vector<bool>::resize")
  else inr {|
    zero_vel_threshold := 0x1.47ae147ae147bp-7;      (* 0.01 *)
    steering_hysteresis := 0x1.999999999999ap-4;     (* 0.1 *)
    home_on_stop := false;
    num_wheels := num_wheels_;
    is_driving := replicate (Z.to_nat num_wheels_) false;
    is_alternate := replicate (Z.to_nat num_wheels_) false
  |}.

(** Both flag vectors have one entry per configured wheel. *)
Definition state_ok (K : OmniKinematics) : Prop :=
  0 <= num_wheels K
  /\ length (is_driving K) = Z.to_nat (num_wheels K)
  /\ length (is_alternate K) = Z.to_nat (num_wheels K).

(** The members that [compute] never assigns. *)
Definition tuning (K : OmniKinematics) : float * float * bool * Z :=
  (zero_vel_threshold K, steering_hysteresis K, home_on_stop K, num_wheels K).

(** [v[i]] on a [std::vector<bool>]. *)
Definition flag_at (v : list bool) (i : nat) : bool := default false (v !! i).

(** [is_driving[i] = b]. *)
Definition set_is_driving (i : nat) (b : bool) (K : OmniKinematics) : OmniKinematics :=
  mk_OmniKinematics (zero_vel_threshold K) (steering_hysteresis K) (home_on_stop K)
    (num_wheels K) (<[i := b]> (is_driving K)) (is_alternate K).

(** [is_alternate[i] = b]. *)
Definition set_is_alternate (i : nat) (b : bool) (K : OmniKinematics) : OmniKinematics :=
  mk_OmniKinematics (zero_vel_threshold K) (steering_hysteresis K) (home_on_stop K)
    (num_wheels K) (is_driving K) (<[i := b]> (is_alternate K)).

Section Compute.

Context {Members : Type} {libm : LibM} {angles : Angles}
        {methods : OmniWheelMethods Members}.

Local Open Scope float_scope.

(** [w.wheel_angle = a]. *)
Definition with_wheel_angle (a : float) (w : OmniWheel Members) : OmniWheel Members :=
  mk_OmniWheel a (wheel_vel w) (home_angle w) (center_pos_x w) (center_pos_y w)
    (other_members w).

(** [w.wheel_vel = v]. *)
Definition with_wheel_vel (v : float) (w : OmniWheel Members) : OmniWheel Members :=
  mk_OmniWheel (wheel_angle w) v (home_angle w) (center_pos_x w) (center_pos_y w)
    (other_members w).

(** The test [vx == 0 && vy == 0 && yawrate == 0]. *)
Definition no_move_command (move_vel_x move_vel_y move_yawrate : float) : bool :=
  (move_vel_x =? 0) && (move_vel_y =? 0) && (move_yawrate =? 0).

(** Body of the first loop: stop the wheel, optionally steer it home. *)
Definition stop_wheel (K : OmniKinematics) (wheel : OmniWheel Members) : OmniWheel Members :=
  let new_wheel := wheel in
  let new_wheel :=
    if home_on_stop K then with_wheel_angle (home_angle wheel) new_wheel
    else new_wheel in
  with_wheel_vel 0 new_wheel.

(** The effective velocity of a wheel's contact point. *)
Definition wheel_vel_x (wheel : OmniWheel Members) (move_vel_x move_yawrate : float) : float :=
  let tangential := get_wheel_pos_radius wheel * move_yawrate in
  move_vel_x + tangential * - sin (get_wheel_pos_angle wheel).

Definition wheel_vel_y (wheel : OmniWheel Members) (move_vel_y move_yawrate : float) : float :=
  let tangential := get_wheel_pos_radius wheel * move_yawrate in
  move_vel_y + tangential * cos (get_wheel_pos_angle wheel).

(** The candidate solution: [atan2(vel_y, vel_x)] and [hypot(vel_x, vel_y)]. *)
Definition candidate_angle (wheel : OmniWheel Members)
    (move_vel_x move_vel_y move_yawrate : float) : float :=
  atan2 (wheel_vel_y wheel move_vel_y move_yawrate) (wheel_vel_x wheel move_vel_x move_yawrate).

Definition candidate_speed (wheel : OmniWheel Members)
    (move_vel_x move_vel_y move_yawrate : float) : float :=
  hypot (wheel_vel_x wheel move_vel_x move_yawrate) (wheel_vel_y wheel move_vel_y move_yawrate).

(** The threshold against which [fabs(wheel.wheel_vel)] is compared. *)
Definition driving_threshold (K : OmniKinematics) (i : nat) : float :=
  if flag_at (is_driving K) i then zero_vel_threshold K
  else 2 * zero_vel_threshold K.

(** The test "wheel is currently driving". *)
Definition classified_driving (K : OmniKinematics) (i : nat) (wheel : OmniWheel Members) : bool :=
  driving_threshold K i <? abs (wheel_vel wheel).

(** The test of the standing branch: the candidate angle is further from
    the outer steering angle than the hysteresis band allows. *)
Definition beyond_outer_angle (K : OmniKinematics) (i : nat) (wheel : OmniWheel Members)
    (new_wheel_angle : float) : bool :=
  let center_pos_angle := atan2 (center_pos_y wheel) (center_pos_x wheel) in
  let outer_wheel_angle := normalize_angle (center_pos_angle - M_PI / 2) in
  M_PI / 2 + (if flag_at (is_alternate K) i then -1 else 1) * steering_hysteresis K
  <? abs (shortest_angular_distance new_wheel_angle outer_wheel_angle).

(** Body of the second loop for wheel [i]. *)
Definition compute_wheel (K : OmniKinematics) (i : nat) (wheel : OmniWheel Members)
    (move_vel_x move_vel_y move_yawrate : float) : OmniKinematics * OmniWheel Members :=
  let new_wheel_angle := candidate_angle wheel move_vel_x move_vel_y move_yawrate in
  let new_wheel_vel := candidate_speed wheel move_vel_x move_vel_y move_yawrate in
  let '(K, new_wheel_angle, new_wheel_vel) :=
    if classified_driving K i wheel then
      let '(K, new_wheel_angle, new_wheel_vel) :=
        if new_wheel_vel * wheel_vel wheel <? 0 then
          (set_is_alternate i true K,
           normalize_angle (new_wheel_angle + M_PI),
           -1 * new_wheel_vel)
        else
          (set_is_alternate i false K, new_wheel_angle, new_wheel_vel) in
      (set_is_driving i true K, new_wheel_angle, new_wheel_vel)
    else
      let '(K, new_wheel_angle, new_wheel_vel) :=
        if beyond_outer_angle K i wheel new_wheel_angle then
          (set_is_alternate i true K,
           normalize_angle (new_wheel_angle + M_PI),
           -1 * new_wheel_vel)
        else
          (set_is_alternate i false K, new_wheel_angle, new_wheel_vel) in
      (set_is_driving i false K, new_wheel_angle, new_wheel_vel) in
  let new_wheel := wheel in
  let new_wheel := set_wheel_angle new_wheel_angle new_wheel in
  let new_wheel := with_wheel_vel new_wheel_vel new_wheel in
  (K, new_wheel).

(** Whether wheel [i] leaves the body in alternate mode (the [if] of
    whichever branch is taken). *)
Definition takes_alternate (K : OmniKinematics) (i : nat) (wheel : OmniWheel Members)
    (move_vel_x move_vel_y move_yawrate : float) : bool :=
  if classified_driving K i wheel then
    candidate_speed wheel move_vel_x move_vel_y move_yawrate * wheel_vel wheel <? 0
  else
    beyond_outer_angle K i wheel (candidate_angle wheel move_vel_x move_vel_y move_yawrate).

(** What two solvers must share for the body to treat wheel [i] alike. *)
Definition same_view (i : nat) (K1 K2 : OmniKinematics) : Prop :=
  tuning K1 = tuning K2
  /\ is_driving K1 !! i = is_driving K2 !! i
  /\ is_alternate K1 !! i = is_alternate K2 !! i.

(** The second loop, from index [i] on, over the wheels not yet done. *)
Fixpoint compute_loop (K : OmniKinematics) (i : nat) (wheels : list (OmniWheel Members))
    (move_vel_x move_vel_y move_yawrate : float) (result : list (OmniWheel Members))
    : OmniKinematics * list (OmniWheel Members) :=
  match wheels with
  | [] => (K, result)
  | wheel :: rest =>
      let '(K, new_wheel) := compute_wheel K i wheel move_vel_x move_vel_y move_yawrate in
      compute_loop K (S i) rest move_vel_x move_vel_y move_yawrate (result ++ [new_wheel])
  end.

(** [OmniKinematics::compute]: the solver after the call and either the
    exception or the returned vector. *)
Definition compute (K : OmniKinematics) (wheels : list (OmniWheel Members))
    (move_vel_x move_vel_y move_yawrate : float)
    : OmniKinematics * (exn + list (OmniWheel Members)) :=
  if negb (Z.of_nat (length wheels) =? num_wheels K)%Z then
    (K, inl (logic_error "wheels.size() != num_wheels"))
  else if no_move_command move_vel_x move_vel_y move_yawrate then
    (K, inr (map (stop_wheel K) wheels))
  else
    let '(K, result) := compute_loop K 0 wheels move_vel_x move_vel_y move_yawrate [] in
    (K, inr result).

End Compute.

End Kin.

(** ** The sequencer of [NeoSocketCanNode] *)

Module Orchestrator.

Import RosTime Node.

(** What the sequencer does to the outside world: what the codec does, and
    the two system calls of its own. *)
Inductive node_event : Type :=
| bus_event (ev : event)
| sys_fsync (res : Z)              (* ::fsync(m_can_sock) = res *)
| sys_usleep (usec : Z).           (* ::usleep(usec) *)

(** The members of the node that the sequencer reads and writes.
    [clock_reads] counts the calls of [ros::Time::now()], whose results are
    the successive values of [env_clock]. *)
Record node_t : Type := mk_node {
  m_wheels : list module_t;
  is_homing_active : bool;
  is_steer_reset_active : bool;
  is_all_homed : bool;
  is_em_stop : bool;
  is_motor_reset : bool;
  m_sync_counter : Z;
  m_last_sync_time : Time;
  m_last_update_time : Time;
  m_wait_for_can_sock : bool;
  clock_reads : nat
}.

Definition set_m_wheels (v : list module_t) (n : node_t) : node_t := {|
  m_wheels := v;
  is_homing_active := is_homing_active n;
  is_steer_reset_active := is_steer_reset_active n;
  is_all_homed := is_all_homed n;
  is_em_stop := is_em_stop n;
  is_motor_reset := is_motor_reset n;
  m_sync_counter := m_sync_counter n;
  m_last_sync_time := m_last_sync_time n;
  m_last_update_time := m_last_update_time n;
  m_wait_for_can_sock := m_wait_for_can_sock n;
  clock_reads := clock_reads n
|}.

Definition set_is_homing_active (v : bool) (n : node_t) : node_t := {|
  m_wheels := m_wheels n;
  is_homing_active := v;
  is_steer_reset_active := is_steer_reset_active n;
  is_all_homed := is_all_homed n;
  is_em_stop := is_em_stop n;
  is_motor_reset := is_motor_reset n;
  m_sync_counter := m_sync_counter n;
  m_last_sync_time := m_last_sync_time n;
  m_last_update_time := m_last_update_time n;
  m_wait_for_can_sock := m_wait_for_can_sock n;
  clock_reads := clock_reads n
|}.

Definition set_is_steer_reset_active (v : bool) (n : node_t) : node_t := {|
  m_wheels := m_wheels n;
  is_homing_active := is_homing_active n;
  is_steer_reset_active := v;
  is_all_homed := is_all_homed n;
  is_em_stop := is_em_stop n;
  is_motor_reset := is_motor_reset n;
  m_sync_counter := m_sync_counter n;
  m_last_sync_time := m_last_sync_time n;
  m_last_update_time := m_last_update_time n;
  m_wait_for_can_sock := m_wait_for_can_sock n;
  clock_reads := clock_reads n
|}.

Definition set_is_all_homed (v : bool) (n : node_t) : node_t := {|
  m_wheels := m_wheels n;
  is_homing_active := is_homing_active n;
  is_steer_reset_active := is_steer_reset_active n;
  is_all_homed := v;
  is_em_stop := is_em_stop n;
  is_motor_reset := is_motor_reset n;
  m_sync_counter := m_sync_counter n;
  m_last_sync_time := m_last_sync_time n;
  m_last_update_time := m_last_update_time n;
  m_wait_for_can_sock := m_wait_for_can_sock n;
  clock_reads := clock_reads n
|}.

Definition set_is_em_stop (v : bool) (n : node_t) : node_t := {|
  m_wheels := m_wheels n;
  is_homing_active := is_homing_active n;
  is_steer_reset_active := is_steer_reset_active n;
  is_all_homed := is_all_homed n;
  is_em_stop := v;
  is_motor_reset := is_motor_reset n;
  m_sync_counter := m_sync_counter n;
  m_last_sync_time := m_last_sync_time n;
  m_last_update_time := m_last_update_time n;
  m_wait_for_can_sock := m_wait_for_can_sock n;
  clock_reads := clock_reads n
|}.

Definition set_is_motor_reset (v : bool) (n : node_t) : node_t := {|
  m_wheels := m_wheels n;
  is_homing_active := is_homing_active n;
  is_steer_reset_active := is_steer_reset_active n;
  is_all_homed := is_all_homed n;
  is_em_stop := is_em_stop n;
  is_motor_reset := v;
  m_sync_counter := m_sync_counter n;
  m_last_sync_time := m_last_sync_time n;
  m_last_update_time := m_last_update_time n;
  m_wait_for_can_sock := m_wait_for_can_sock n;
  clock_reads := clock_reads n
|}.

Definition set_m_sync_counter (v : Z) (n : node_t) : node_t := {|
  m_wheels := m_wheels n;
  is_homing_active := is_homing_active n;
  is_steer_reset_active := is_steer_reset_active n;
  is_all_homed := is_all_homed n;
  is_em_stop := is_em_stop n;
  is_motor_reset := is_motor_reset n;
  m_sync_counter := v;
  m_last_sync_time := m_last_sync_time n;
  m_last_update_time := m_last_update_time n;
  m_wait_for_can_sock := m_wait_for_can_sock n;
  clock_reads := clock_reads n
|}.

Definition set_m_last_sync_time (v : Time) (n : node_t) : node_t := {|
  m_wheels := m_wheels n;
  is_homing_active := is_homing_active n;
  is_steer_reset_active := is_steer_reset_active n;
  is_all_homed := is_all_homed n;
  is_em_stop := is_em_stop n;
  is_motor_reset := is_motor_reset n;
  m_sync_counter := m_sync_counter n;
  m_last_sync_time := v;
  m_last_update_time := m_last_update_time n;
  m_wait_for_can_sock := m_wait_for_can_sock n;
  clock_reads := clock_reads n
|}.

Definition set_m_last_update_time (v : Time) (n : node_t) : node_t := {|
  m_wheels := m_wheels n;
  is_homing_active := is_homing_active n;
  is_steer_reset_active := is_steer_reset_active n;
  is_all_homed := is_all_homed n;
  is_em_stop := is_em_stop n;
  is_motor_reset := is_motor_reset n;
  m_sync_counter := m_sync_counter n;
  m_last_sync_time := m_last_sync_time n;
  m_last_update_time := v;
  m_wait_for_can_sock := m_wait_for_can_sock n;
  clock_reads := clock_reads n
|}.

Definition set_m_wait_for_can_sock (v : bool) (n : node_t) : node_t := {|
  m_wheels := m_wheels n;
  is_homing_active := is_homing_active n;
  is_steer_reset_active := is_steer_reset_active n;
  is_all_homed := is_all_homed n;
  is_em_stop := is_em_stop n;
  is_motor_reset := is_motor_reset n;
  m_sync_counter := m_sync_counter n;
  m_last_sync_time := m_last_sync_time n;
  m_last_update_time := m_last_update_time n;
  m_wait_for_can_sock := v;
  clock_reads := clock_reads n
|}.

Definition set_clock_reads (v : nat) (n : node_t) : node_t := {|
  m_wheels := m_wheels n;
  is_homing_active := is_homing_active n;
  is_steer_reset_active := is_steer_reset_active n;
  is_all_homed := is_all_homed n;
  is_em_stop := is_em_stop n;
  is_motor_reset := is_motor_reset n;
  m_sync_counter := m_sync_counter n;
  m_last_sync_time := m_last_sync_time n;
  m_last_update_time := m_last_update_time n;
  m_wait_for_can_sock := m_wait_for_can_sock n;
  clock_reads := v
|}.

(** What the node finds around it: the ABI, the transport, the result of
    [::fsync] with the text of [strerror(errno)], the clock, the two
    parameters [motor_timeout] and [home_vel], and [angles::normalize_angle]. *)
Record node_env : Type := mk_env {
  env_abi : char_abi;
  env_bus : transport;
  env_fsync : Z;
  env_fsync_strerror : string;
  env_clock : nat -> Time;
  env_motor_timeout : float;
  env_home_vel : float;
  env_normalize_angle : float -> float
}.

(** A default-constructed [module_t]. *)
Definition module_default : module_t :=
  mk_module motor_default motor_default 0 0%float 0%float 0%float 0%float 0%float.

(** The two motors of a wheel module. *)
Inductive axis : Set := Drive | Steer.

Definition motor_of (ax : axis) (wheel : module_t) : motor_t :=
  match ax with Drive => drive wheel | Steer => steer wheel end.

Definition with_motor (ax : axis) (m : motor_t) (wheel : module_t) : module_t :=
  match ax with
  | Drive => set_motors m (steer wheel) wheel
  | Steer => set_motors (drive wheel) m wheel
  end.

Section WithEnv.

Variable env : node_env.

Definition Op (A : Type) : Type := ST node_event node_t A.

(** A call into the codec. *)
Definition call {A : Type} (m : IO A) : Op A := st_call bus_event m.

Definition log (ev : event) : Op unit := call (emit ev).

(** [ros::Time::now()]. *)
Definition time_now : Op Time :=
  fun n => mk_outcome (set_clock_reads (S (clock_reads n)) n) []
             (inr (env_clock env (clock_reads n))).

(** [can_sync]. *)
Definition can_sync : Op unit :=
  (st_emit (sys_fsync (env_fsync env)) ;;;
   if negb (env_fsync env =? 0) then
     st_throw (runtime_error ("fsync() failed with: " +:+ env_fsync_strerror env))
   else st_ret tt)%st.

Definition usleep (usec : Z) : Op unit := st_emit (sys_usleep usec).

(** [m_wheels[i]]. *)
Definition get_wheel (i : nat) : Op module_t :=
  fun n => mk_outcome n [] (inr (default module_default (m_wheels n !! i))).

Definition get_motor (i : nat) (ax : axis) : Op motor_t :=
  (wheel <- get_wheel i ;; st_ret (motor_of ax wheel))%st.

(** An assignment to members of one motor of [m_wheels[i]]. *)
Definition modify_motor (i : nat) (ax : axis) (f : motor_t -> motor_t) : Op unit :=
  st_modify (fun n =>
    set_m_wheels
      (alter (fun wheel => with_motor ax (f (motor_of ax wheel)) wheel) i (m_wheels n)) n).

(** [for(auto& wheel : m_wheels) body], by index. *)
Definition for_wheels (body : nat -> Op unit) : Op unit :=
  fun n => st_for (seq 0 (length (m_wheels n))) body n.

Definition query (motor : motor_t) (c1 c2 : ascii) (index : Z) : Op unit :=
  call (canopen_query (env_abi env) (env_bus env) motor (chr c1) (chr c2) index).

Definition set_int (motor : motor_t) (c1 c2 : ascii) (index data : Z) : Op unit :=
  call (canopen_set_int (env_abi env) (env_bus env) motor (chr c1) (chr c2) index data).

Definition SDO_download (motor : motor_t) (obj_index obj_sub_index data : Z) : Op unit :=
  call (canopen_SDO_download (env_abi env) (env_bus env) motor obj_index obj_sub_index data).

(** [all_motors_operational()]. *)
Definition operational : Op bool :=
  fun n => mk_outcome n [] (inr (all_motors_operational (m_wheels n) (is_em_stop n))).

Definition stop_motion : Op unit :=
  (for_wheels (fun i =>
     wheel <- get_wheel i ;;
     query (drive wheel) "S" "T" 0 ;;;
     query (steer wheel) "S" "T" 0) ;;;
   can_sync)%st.

Definition begin_motion : Op unit :=
  (for_wheels (fun i =>
     wheel <- get_wheel i ;;
     query (drive wheel) "B" "G" 0 ;;;
     query (steer wheel) "B" "G" 0) ;;;
   can_sync)%st.

Definition motor_on (motor : motor_t) : Op unit := set_int motor "M" "O" 0 1.

Definition motor_off (motor : motor_t) : Op unit := set_int motor "M" "O" 0 0.

Definition all_motors_on : Op unit :=
  (for_wheels (fun i =>
     wheel <- get_wheel i ;;
     motor_on (drive wheel) ;;;
     motor_on (steer wheel)) ;;;
   can_sync)%st.

Definition all_motors_off : Op unit :=
  (for_wheels (fun i =>
     wheel <- get_wheel i ;;
     motor_off (drive wheel) ;;;
     motor_off (steer wheel)) ;;;
   can_sync ;;;
   st_modify (set_is_motor_reset true))%st.

(** [request_status] on one motor of wheel [i]. *)
Definition request_status (i : nat) (ax : axis) : Op unit :=
  (motor <- get_motor i ax ;;
   query motor "S" "R" 0 ;;;
   t <- time_now ;;
   modify_motor i ax (set_request_send_time t))%st.

Definition request_status_all : Op unit :=
  (for_wheels (fun i =>
     request_status i Drive ;;;
     request_status i Steer) ;;;
   can_sync)%st.

Definition set_motion_vel_ctrl (motor : motor_t) : Op unit :=
  (set_int motor "U" "M" 0 2 ;;;
   set_int motor "P" "M" 0 1 ;;;
   set_int motor "A" "C" 0 (max_accel_enc_s motor) ;;;
   set_int motor "D" "C" 0 (max_accel_enc_s motor) ;;;
   can_sync)%st.

Definition set_motion_pos_ctrl (motor : motor_t) : Op unit :=
  (set_int motor "U" "M" 0 5 ;;;
   set_int motor "T" "R" 1 15 ;;;
   set_int motor "T" "R" 2 100 ;;;
   set_int motor "A" "C" 0 (max_accel_enc_s motor) ;;;
   set_int motor "D" "C" 0 (max_accel_enc_s motor) ;;;
   can_sync)%st.

Definition reset_pos_counter (motor : motor_t) : Op unit := set_int motor "P" "X" 0 0.

Definition configure_PDO_mapping (motor : motor_t) : Op unit :=
  (SDO_download motor 0x1A00 0 0 ;;;
   SDO_download motor 0x1A00 1 0x60640020 ;;;
   SDO_download motor 0x1A00 2 0x60690020 ;;;
   SDO_download motor 0x1800 2 1 ;;;
   SDO_download motor 0x1A00 0 2 ;;;
   can_sync)%st.

Definition set_motor_modulo (motor : motor_t) (num_wheel_rev : Z) : Op unit :=
  (let ticks_per_rev :=
     double_to_int (Z_to_double (enc_ticks_per_rev motor) * gear_ratio motor)%float in
   set_int motor "X" "M" 1 (int32 (int32 (-1 * num_wheel_rev) * ticks_per_rev)) ;;;
   set_int motor "X" "M" 2 (int32 (num_wheel_rev * ticks_per_rev)) ;;;
   can_sync)%st.

Definition start_homing : Op unit :=
  (ready <- operational ;;
   if negb ready then st_ret tt
   else
     stop_motion ;;;
     for_wheels (fun i =>
       wheel <- get_wheel i ;;
       set_int (steer wheel) "H" "M" 1 0 ;;;
       can_sync ;;;
       set_int (steer wheel) "H" "M" 2 (enc_home_offset (steer wheel)) ;;;
       can_sync ;;;
       set_int (steer wheel) "H" "M" 3 (home_dig_in wheel) ;;;
       can_sync ;;;
       set_int (steer wheel) "H" "M" 4 0 ;;;
       can_sync ;;;
       set_int (steer wheel) "H" "M" 5 0 ;;;
       can_sync) ;;;
     for_wheels (fun i =>
       wheel <- get_wheel i ;;
       call (motor_set_vel (env_abi env) (env_bus env) (drive wheel) 0%float) ;;;
       call (motor_set_vel (env_abi env) (env_bus env) (steer wheel) (env_home_vel env))) ;;;
     can_sync ;;;
     begin_motion ;;;
     usleep (500 * 1000) ;;;
     for_wheels (fun i =>
       wheel <- get_wheel i ;;
       set_int (steer wheel) "H" "M" 1 1 ;;;
       modify_motor i Steer (set_homing_state (-1))) ;;;
     can_sync ;;;
     st_modify (set_is_homing_active true))%st.

Definition finish_homing : Op unit :=
  (stop_motion ;;;
   all_motors_off ;;;
   for_wheels (fun i =>
     wheel <- get_wheel i ;;
     set_motion_pos_ctrl (steer wheel)) ;;;
   can_sync ;;;
   all_motors_on ;;;
   st_modify (set_is_all_homed true) ;;;
   st_modify (set_is_homing_active false) ;;;
   st_modify (set_is_steer_reset_active true))%st.

(** [emergency_stop_callback]; [free] is the test
    [state->emergency_state == EMFREE]. *)
Definition emergency_stop_callback (free : bool) : Op unit :=
  (n <- st_get ;;
   st_when (is_em_stop n && free)
     (log (ROS_INFO "Reactivating motors ...") ;;;
      for_wheels (fun i =>
        modify_motor i Drive (set_state ST_PRE_INITIALIZED) ;;;
        modify_motor i Steer (set_state ST_PRE_INITIALIZED)) ;;;
      st_modify (set_is_motor_reset true) ;;;
      all_motors_on ;;;
      request_status_all) ;;;
   st_modify (set_is_em_stop (negb free)))%st.

(** [check_motor_timeout] on one motor of wheel [i]. *)
Definition check_timeout (i : nat) (ax : axis) (now : Time) : Op unit :=
  (motor <- get_motor i ax ;;
   motor' <- call (check_motor_timeout (env_motor_timeout env) motor now) ;;
   modify_motor i ax (fun _ => motor'))%st.

(** The loop of the steering reset, with its local [is_all_reached]. *)
Fixpoint steer_reset_loop (l : list nat) (is_all_reached : bool) : Op bool :=
  match l with
  | [] => st_ret is_all_reached
  | i :: rest =>
      (wheel <- get_wheel i ;;
       if (0x1.47ae147ae147bp-7 <? abs (env_normalize_angle env (curr_steer_pos wheel)))%float
       then
         call (motor_set_pos_abs (env_abi env) (env_bus env) (steer wheel) 0%float) ;;;
         steer_reset_loop rest false
       else steer_reset_loop rest is_all_reached)%st
  end.

(** The message that asks every controller for its telemetry. *)
Definition sync_msg : can_msg_t := set_length 0 (set_id 0x80 can_msg_default).

(** [update]. *)
Definition update : Op unit :=
  (now <- time_now ;;
   for_wheels (fun i =>
     check_timeout i Drive now ;;;
     check_timeout i Steer now) ;;;
   ready <- operational ;;
   st_when (negb ready) stop_motion ;;;
   n <- st_get ;;
   st_when (is_motor_reset n)
     (ready <- operational ;;
      st_when ready
        (log (ROS_INFO "All motors operational!") ;;;
         st_modify (set_is_motor_reset false))) ;;;
   n <- st_get ;;
   ready <- operational ;;
   st_when (negb (is_all_homed n) && negb (is_homing_active n) && ready)
     (log (ROS_INFO "Start homing procedure ...") ;;;
      start_homing) ;;;
   n <- st_get ;;
   st_when (is_homing_active n)
     (ready <- operational ;;
      if negb ready then
        log (ROS_ERROR "Homing has been interrupted!") ;;;
        st_modify (set_is_homing_active false)
      else if check_homing_done (m_wheels n) then
        finish_homing ;;;
        log (ROS_INFO "Homing successful!")
      else
        for_wheels (fun i =>
          wheel <- get_wheel i ;;
          query (steer wheel) "H" "M" 1) ;;;
        can_sync) ;;;
   n <- st_get ;;
   st_when (is_steer_reset_active n)
     (ready <- operational ;;
      st_when ready
        (is_all_reached <- steer_reset_loop (seq 0 (length (m_wheels n))) true ;;
         if is_all_reached then
           log (ROS_INFO "Steering reset successful!") ;;;
           st_modify (set_is_steer_reset_active false)
         else begin_motion)) ;;;
   n <- st_get ;;
   st_when (time_lt (m_last_update_time n) (m_last_sync_time n))
     (log (ROS_WARN "Sync update timeout!")) ;;;
   call (can_transmit (env_bus env) sync_msg) ;;;
   can_sync ;;;
   t <- time_now ;;
   st_modify (set_m_last_sync_time t) ;;;
   st_modify (fun n => set_m_sync_counter ((m_sync_counter n + 1) mod 2 ^ 64) n) ;;;
   n <- st_get ;;
   st_when (m_sync_counter n mod 10 =? 0) request_status_all)%st.

(** The message that starts the network. *)
Definition start_network_msg : can_msg_t :=
  set_data 1 (to_char (env_abi env) 0)
    (set_data 0 (to_char (env_abi env) 1) (set_length 2 (set_id 0 can_msg_default))).

(** [initialize]. *)
Definition initialize : Op unit :=
  (st_modify (set_m_wait_for_can_sock true) ;;;
   for_wheels (fun i =>
     modify_motor i Drive (set_state ST_PRE_INITIALIZED) ;;;
     modify_motor i Steer (set_state ST_PRE_INITIALIZED)) ;;;
   st_modify (set_is_all_homed false) ;;;
   st_modify (set_is_homing_active false) ;;;
   st_modify (set_is_steer_reset_active false) ;;;
   call (can_transmit (env_bus env) start_network_msg) ;;;
   can_sync ;;;
   usleep (100 * 1000) ;;;
   all_motors_off ;;;
   stop_motion ;;;
   for_wheels (fun i =>
     wheel <- get_wheel i ;;
     set_motor_modulo (drive wheel) 1 ;;;
     set_motor_modulo (steer wheel) 1) ;;;
   can_sync ;;;
   for_wheels (fun i =>
     wheel <- get_wheel i ;;
     set_motion_vel_ctrl (drive wheel) ;;;
     set_motion_vel_ctrl (steer wheel)) ;;;
   can_sync ;;;
   for_wheels (fun i =>
     wheel <- get_wheel i ;;
     reset_pos_counter (drive wheel) ;;;
     reset_pos_counter (steer wheel)) ;;;
   can_sync ;;;
   for_wheels (fun i =>
     wheel <- get_wheel i ;;
     configure_PDO_mapping (drive wheel) ;;;
     configure_PDO_mapping (steer wheel)) ;;;
   can_sync ;;;
   all_motors_on ;;;
   request_status_all)%st.

End WithEnv.

(** The transport takes every frame whole and [::fsync] succeeds. *)
Definition accepting (env : node_env) : Prop :=
  do_run (env_bus env) = true
  /\ (forall out, sock_write (env_bus env) out = sizeof_can_frame)
  /\ env_fsync env = 0.

(** The two state members of a wheel module, and its two request times. *)
Definition wheel_states (wheel : module_t) : motor_state_e * motor_state_e :=
  (state (drive wheel), state (steer wheel)).

Definition wheel_request_times (wheel : module_t) : Time * Time :=
  (request_send_time (drive wheel), request_send_time (steer wheel)).

(** The three flags of the homing sequence. *)
Definition homing_flags (n : node_t) : bool * bool * bool :=
  (is_all_homed n, is_homing_active n, is_steer_reset_active n).

End Orchestrator.

(** ** Judgements on operations of an object *)

Module Judgements.

Section Generic.

Context {E S : Type}.

(** Whichever way [m] leaves, it leaves the view [f] of the object as it
    found it. *)
Definition keeps {A T : Type} (f : S -> T) (m : ST E S A) : Prop :=
  forall s, f (final (m s)) = f s.

(** [m] returns; it does not throw. *)
Definition succeeds {A : Type} (m : ST E S A) : Prop :=
  forall s, exists a, returned (m s) = inr a.

(** Started where [P] holds, [m] returns [a] with [Q a] or throws with [X]. *)
Definition hoare {A : Type} (P : S -> Prop) (m : ST E S A)
    (Q : A -> S -> Prop) (X : S -> Prop) : Prop :=
  forall s, P s ->
    match returned (m s) with
    | inr a => Q a (final (m s))
    | inl _ => X (final (m s))
    end.

End Generic.

End Judgements.

(** ** Fixtures

    Concrete motors, transports and wheels on which the examples and the
    witnesses of Part II are evaluated. *)

Module Fixtures.

Import RosTime Node.

(** A transport whose socket accepts every frame. *)
Definition bus_ok : transport := mk_transport true (fun _ => sizeof_can_frame) "Success".

(** A transport whose socket refuses every frame. *)
Definition bus_refusing : transport := mk_transport true (fun _ => -1) "No buffer space available".

(** Steer motor of wheel 0 with CAN id 1, as [set_motor_can_id] derives
    its sub-addresses. *)
Definition steer0 : motor_t := {|
  joint_name := "steer0";
  can_id := 1;
  rot_sign := 1;
  enc_ticks_per_rev := 4096;
  enc_home_offset := 0;
  max_vel_enc_s := 1000000;
  max_accel_enc_s := 1000000;
  can_Tx_PDO1 := 1 + 0x180;
  can_Tx_PDO2 := 1 + 0x280;
  can_Rx_PDO2 := 1 + 0x300;
  can_Tx_SDO := 1 + 0x580;
  can_Rx_SDO := 1 + 0x600;
  gear_ratio := 10%float;
  state := ST_OPERATION_ENABLED;
  curr_enc_pos_inc := 0;
  curr_enc_vel_inc_s := 0;
  curr_status := 0;
  curr_motor_failure := 0;
  request_send_time := Time_zero;
  status_recv_time := Time_zero;
  last_update_time := Time_zero;
  homing_state := -1
|}.

(** [motor.curr_status = s]. *)
Definition with_status (s : Z) (m : motor_t) : motor_t := {|
  joint_name := joint_name m;
  can_id := can_id m;
  rot_sign := rot_sign m;
  enc_ticks_per_rev := enc_ticks_per_rev m;
  enc_home_offset := enc_home_offset m;
  max_vel_enc_s := max_vel_enc_s m;
  max_accel_enc_s := max_accel_enc_s m;
  can_Tx_PDO1 := can_Tx_PDO1 m;
  can_Tx_PDO2 := can_Tx_PDO2 m;
  can_Rx_PDO2 := can_Rx_PDO2 m;
  can_Tx_SDO := can_Tx_SDO m;
  can_Rx_SDO := can_Rx_SDO m;
  gear_ratio := gear_ratio m;
  state := state m;
  curr_enc_pos_inc := curr_enc_pos_inc m;
  curr_enc_vel_inc_s := curr_enc_vel_inc_s m;
  curr_status := s;
  curr_motor_failure := curr_motor_failure m;
  request_send_time := request_send_time m;
  status_recv_time := status_recv_time m;
  last_update_time := last_update_time m;
  homing_state := homing_state m
|}.

(** [motor.request_send_time = request; motor.status_recv_time = reply]. *)
Definition with_times (request reply : Time) (m : motor_t) : motor_t := {|
  joint_name := joint_name m;
  can_id := can_id m;
  rot_sign := rot_sign m;
  enc_ticks_per_rev := enc_ticks_per_rev m;
  enc_home_offset := enc_home_offset m;
  max_vel_enc_s := max_vel_enc_s m;
  max_accel_enc_s := max_accel_enc_s m;
  can_Tx_PDO1 := can_Tx_PDO1 m;
  can_Tx_PDO2 := can_Tx_PDO2 m;
  can_Rx_PDO2 := can_Rx_PDO2 m;
  can_Tx_SDO := can_Tx_SDO m;
  can_Rx_SDO := can_Rx_SDO m;
  gear_ratio := gear_ratio m;
  state := state m;
  curr_enc_pos_inc := curr_enc_pos_inc m;
  curr_enc_vel_inc_s := curr_enc_vel_inc_s m;
  curr_status := curr_status m;
  curr_motor_failure := curr_motor_failure m;
  request_send_time := request;
  status_recv_time := reply;
  last_update_time := last_update_time m;
  homing_state := homing_state m
|}.

(** A motor whose status request of second 10 is still unanswered (the
    last reply dates from second 9). *)
Definition steer0_waiting : motor_t := with_times (mk_Time 10 0) (mk_Time 9 0) steer0.

(** [motor.homing_state = h]. *)
Definition with_homing_state (h : Z) (m : motor_t) : motor_t := {|
  joint_name := joint_name m;
  can_id := can_id m;
  rot_sign := rot_sign m;
  enc_ticks_per_rev := enc_ticks_per_rev m;
  enc_home_offset := enc_home_offset m;
  max_vel_enc_s := max_vel_enc_s m;
  max_accel_enc_s := max_accel_enc_s m;
  can_Tx_PDO1 := can_Tx_PDO1 m;
  can_Tx_PDO2 := can_Tx_PDO2 m;
  can_Rx_PDO2 := can_Rx_PDO2 m;
  can_Tx_SDO := can_Tx_SDO m;
  can_Rx_SDO := can_Rx_SDO m;
  gear_ratio := gear_ratio m;
  state := state m;
  curr_enc_pos_inc := curr_enc_pos_inc m;
  curr_enc_vel_inc_s := curr_enc_vel_inc_s m;
  curr_status := curr_status m;
  curr_motor_failure := curr_motor_failure m;
  request_send_time := request_send_time m;
  status_recv_time := status_recv_time m;
  last_update_time := last_update_time m;
  homing_state := h
|}.

(** A wheel module whose steer motor reports homing state [h]. *)
Definition wheel_with_homing (h : Z) : module_t :=
  mk_module motor_default (with_homing_state h steer0) 0 0%float 0%float 0%float 0%float 0%float.

(** Stand-in for <math.h>: exact where an argument lies on a coordinate
    axis, which is all the examples touch, and NaN elsewhere. *)
Definition axis_libm : Kin.LibM := {|
  Kin.sin x := (if x =? 0 then x else nan)%float;
  Kin.cos x := (if x =? 0 then 1 else nan)%float;
  Kin.atan2 y x :=
    (if y =? 0 then
       if 0 <? x then y
       else if x <? 0 then (if 1 / y <? 0 then - M_PI else M_PI)
       else nan
     else if x =? 0 then
       if 0 <? y then M_PI / 2 else if y <? 0 then - (M_PI / 2) else nan
     else nan)%float;
  Kin.hypot x y :=
    (if y =? 0 then abs x else if x =? 0 then abs y else nan)%float
|}.

(** Stand-in for <angles/angles.h>: the identity on the principal range
    (-pi, pi], NaN elsewhere. *)
Definition principal_angles : Kin.Angles :=
  let normalize a := (if (- M_PI <? a) && (a <=? M_PI) then a else nan)%float in
  {| Kin.normalize_angle := normalize;
     Kin.shortest_angular_distance from to := normalize (to - from)%float |}.

(** Stand-in for include/OmniWheel.h: a wheel without lever arm, whose
    contact point is its steering centre and which has no further members. *)
Definition plain_wheel_methods : Kin.OmniWheelMethods unit := {|
  Kin.get_wheel_pos_radius w :=
    Kin.hypot (LibM := axis_libm) (Kin.center_pos_x w) (Kin.center_pos_y w);
  Kin.get_wheel_pos_angle w :=
    Kin.atan2 (LibM := axis_libm) (Kin.center_pos_y w) (Kin.center_pos_x w);
  Kin.set_wheel_angle a w :=
    Kin.mk_OmniWheel a (Kin.wheel_vel w) (Kin.home_angle w) (Kin.center_pos_x w)
      (Kin.center_pos_y w) (Kin.other_members w)
|}.

(** A wheel mounted 0.3 m ahead of the platform centre, steered to
    [angle] and last commanded to roll at [vel]. *)
Definition front_wheel (angle vel : float) : Kin.OmniWheel unit :=
  Kin.mk_OmniWheel angle vel 0%float 0x1.3333333333333p-2%float 0%float tt.

(** A solver for one wheel with the default tuning and the given memory. *)
Definition solver1 (driving alternate : bool) : Kin.OmniKinematics :=
  Kin.mk_OmniKinematics 0x1.47ae147ae147bp-7%float 0x1.999999999999ap-4%float false 1
    [driving] [alternate].

(** The same solver with "home on stop" switched on. *)
Definition solver1_homing : Kin.OmniKinematics :=
  Kin.mk_OmniKinematics 0x1.47ae147ae147bp-7%float 0x1.999999999999ap-4%float true 1
    [true] [false].

(** The reply "SR" with the given status word, as a received message. *)
Definition status_reply (status : Z) : Node.can_msg_t :=
  Node.canopen_set_int_msg char_signed steer0 (chr "S") (chr "R") 0 status.

(** The reply "HM" with the given first payload byte. *)
Definition homing_reply (armed : Z) : Node.can_msg_t :=
  Node.canopen_set_int_msg char_signed steer0 (chr "H") (chr "M") 1 armed.

(** A drive motor with CAN id 2, in operation. *)
Definition drive0 : motor_t := Node.set_motor_can_id 2 steer0.

(** One wheel module, both motors in operation, nothing requested yet. *)
Definition wheel0 : module_t :=
  mk_module drive0 steer0 1 0%float 0%float 0%float 0%float 0%float.

(** A node with that wheel: as constructed, but with the emergency stop
    released. *)
Definition node0 : Orchestrator.node_t :=
  Orchestrator.mk_node [wheel0] false false false false true 0 Time_zero Time_zero true 0.

(** The same node in emergency stop. *)
Definition node0_stopped : Orchestrator.node_t := Orchestrator.set_is_em_stop true node0.

(** An accepting environment whose clock ticks one second per reading. *)
Definition env_ok : Orchestrator.node_env :=
  Orchestrator.mk_env char_signed bus_ok 0 "Success" (fun k => mk_Time (Z.of_nat k) 0)
    1%float (-1)%float (fun a => a).

(** The same environment with a socket that refuses every frame. *)
Definition env_refusing : Orchestrator.node_env :=
  Orchestrator.mk_env char_signed bus_refusing 0 "Success" (fun k => mk_Time (Z.of_nat k) 0)
    1%float (-1)%float (fun a => a).

(** A node in the middle of homing whose steering motor has passed its
    homing switch. *)
Definition node0_homing : Orchestrator.node_t :=
  Orchestrator.set_is_homing_active true
    (Orchestrator.set_m_wheels
       [mk_module drive0 (with_homing_state 1 steer0) 1 0%float 0%float 0%float 0%float 0%float]
       node0).

(** The same environment after [shutdown()] has cleared [do_run]. *)
Definition env_down : Orchestrator.node_env :=
  Orchestrator.mk_env char_signed (mk_transport false (fun _ => sizeof_can_frame) "Success") 0
    "Success" (fun k => mk_Time (Z.of_nat k) 0) 1%float (-1)%float (fun a => a).

End Fixtures.

(* ===================================================================== *)
(** * Part II: lemmas and theorems                                         *)
(* ===================================================================== *)

Import RosTime Node.

(** ** Arithmetic of the little-endian codec *)

Ltac pow2_consts :=
  change (2 ^ (32 - 1)) with 2147483648 in *;
  change (2 ^ (8 - 1)) with 128 in *;
  change (2 ^ 32) with 4294967296 in *;
  change (2 ^ 31) with 2147483648 in *;
  change (2 ^ 24) with 16777216 in *;
  change (2 ^ 16) with 65536 in *;
  change (2 ^ 8) with 256 in *.

Ltac zdivmod := Z.div_mod_to_equations; lia.

Ltac chain_div v :=
  replace (v / 65536) with (v / 256 / 256) by (rewrite Z.div_div by lia; reflexivity);
  replace (v / 16777216) with (v / 256 / 256 / 256) by (rewrite !Z.div_div by lia; reflexivity).

(** OR-ing a value below [2^k] into a multiple of [2^k] adds it. *)
Lemma lor_shifted_low (a b k : Z) :
  0 <= k -> 0 <= b < 2 ^ k -> Z.lor (a * 2 ^ k) b = a * 2 ^ k + b.
Proof.
  intros Hk Hb.
  assert (Hland : Z.land (a * 2 ^ k) b = 0).
  { apply Z.bits_inj'. intros n Hn. rewrite Z.land_spec, Z.bits_0.
    destruct (Z.lt_ge_cases n k) as [Hlt | Hge].
    - rewrite Z.mul_pow2_bits_low by lia. reflexivity.
    - rewrite <- (Z.mod_small b (2 ^ k)) by lia.
      rewrite Z.mod_pow2_bits_high by lia. apply andb_false_r. }
  rewrite <- Z.lxor_lor by exact Hland.
  symmetry. apply Z.add_nocarry_lxor. exact Hland.
Qed.

Lemma int32_small (z : Z) : in_int32 z -> int32 z = z.
Proof.
  unfold in_int32, INT32_MIN, INT32_MAX, int32, wrap_signed. intros H.
  pow2_consts. rewrite Z.mod_small by lia. lia.
Qed.

(** On the wire a plain [char] is its low eight bits, whatever the ABI. *)
Lemma uint8_to_char (abi : char_abi) (z : Z) : uint8 (to_char abi z) = uint8 z.
Proof.
  destruct abi; unfold to_char, uint8, int8, wrap_signed.
  - pow2_consts. zdivmod.
  - apply Z.mod_mod. lia.
Qed.

(** The four bytes that [canopen_set_int] stores are the little-endian
    two's complement digits of the value. *)
Lemma le_bytes_int32 (v : Z) :
  in_int32 v ->
  int32 (uint8 v + 2 ^ 8 * uint8 (shr32 v 8) + 2 ^ 16 * uint8 (shr32 v 16)
         + 2 ^ 24 * uint8 (shr32 v 24)) = v.
Proof.
  unfold in_int32, INT32_MIN, INT32_MAX, int32, wrap_signed, uint8, shr32. intros H.
  rewrite !Z.shiftr_div_pow2 by lia. pow2_consts. chain_div v. zdivmod.
Qed.

(** ** The frame codec *)

(** The frame that [can_transmit] hands to [::write] for a
    [canopen_set_int]. *)
Lemma to_can_frame_canopen_set_int (abi : char_abi) (motor : motor_t) (c1 c2 index v : Z) :
  to_can_frame (canopen_set_int_msg abi motor c1 c2 index v)
  = mk_can_frame (uint32 (can_Rx_PDO2 motor)) 8
      [uint8 (to_char abi c1); uint8 (to_char abi c2); uint8 (to_char abi index);
       uint8 (to_char abi (Z.land (shr32 index 8) 0x3F));
       uint8 (to_char abi v); uint8 (to_char abi (shr32 v 8));
       uint8 (to_char abi (shr32 v 16)); uint8 (to_char abi (shr32 v 24))].
Proof. reflexivity. Qed.

(** Bytes 4-7 of the frame that reaches the bus carry the value, on either
    ABI. *)
Lemma canopen_set_int_payload (abi : char_abi) (motor : motor_t) (c1 c2 index v : Z) :
  in_int32 v ->
  frame_payload_int32 (to_can_frame (canopen_set_int_msg abi motor c1 c2 index v)) = v.
Proof.
  intros Hv. rewrite to_can_frame_canopen_set_int.
  unfold frame_payload_int32. cbn [frame_data lookup list_lookup default].
  rewrite !uint8_to_char. apply le_bytes_int32, Hv.
Qed.

(** The top byte may be widened from either kind of [char]: shifted into
    place it is the signed top digit. *)
Lemma shl32_top_byte (t : Z) :
  -128 <= t < 256 -> shl32 t 24 = wrap_signed 8 t * 2 ^ 24.
Proof.
  intros Ht. unfold shl32, int32, wrap_signed. rewrite Z.shiftl_mul_pow2 by lia.
  pow2_consts. zdivmod.
Qed.

(** What [read_int32] returns at offset 4 when the three low bytes are
    stored as non-negative values. *)
Lemma read_int32_bytes (msg : can_msg_t) (b0 b1 b2 t : Z) :
  data_at msg 4 = b0 -> data_at msg 5 = b1 -> data_at msg 6 = b2 -> data_at msg 7 = t ->
  0 <= b0 < 256 -> 0 <= b1 < 256 -> 0 <= b2 < 256 -> -128 <= t < 256 ->
  read_int32 msg 4 = inr (wrap_signed 8 t * 2 ^ 24 + b2 * 2 ^ 16 + b1 * 2 ^ 8 + b0).
Proof.
  intros E0 E1 E2 E3 H0 H1 H2 Ht. unfold read_int32.
  change ((4 <? 0) || (4 >? 4)) with false.
  change (4 + 3) with 7. change (4 + 2) with 6. change (4 + 1) with 5. change (4 + 0) with 4.
  rewrite E0, E1, E2, E3, shl32_top_byte by exact Ht. f_equal.
  unfold shl32. rewrite !Z.shiftl_mul_pow2 by lia.
  rewrite !int32_small by (unfold in_int32, INT32_MIN, INT32_MAX; pow2_consts; lia).
  rewrite (lor_shifted_low _ (b2 * 2 ^ 16) 24) by (pow2_consts; lia).
  replace (wrap_signed 8 t * 2 ^ 24 + b2 * 2 ^ 16)
    with ((wrap_signed 8 t * 2 ^ 8 + b2) * 2 ^ 16) by (pow2_consts; lia).
  rewrite (lor_shifted_low _ (b1 * 2 ^ 8) 16) by (pow2_consts; lia).
  replace ((wrap_signed 8 t * 2 ^ 8 + b2) * 2 ^ 16 + b1 * 2 ^ 8)
    with ((wrap_signed 8 t * 2 ^ 16 + b2 * 2 ^ 8 + b1) * 2 ^ 8) by (pow2_consts; lia).
  rewrite (lor_shifted_low _ b0 8) by (pow2_consts; lia).
  pow2_consts. lia.
Qed.

Lemma to_char_range (abi : char_abi) (z : Z) : -128 <= to_char abi z < 256.
Proof.
  destruct abi; unfold to_char, int8, uint8, wrap_signed; pow2_consts; zdivmod.
Qed.

Lemma wrap_signed_to_char (abi : char_abi) (z : Z) :
  wrap_signed 8 (to_char abi z) = wrap_signed 8 z.
Proof.
  destruct abi; unfold to_char, int8, uint8, wrap_signed; pow2_consts; zdivmod.
Qed.

(** A byte below 0x80 is stored alike on both ABIs. *)
Lemma to_char_low (abi : char_abi) (z : Z) :
  abi = char_unsigned \/ uint8 z < 128 -> to_char abi z = uint8 z.
Proof.
  destruct abi; unfold to_char, int8, uint8, wrap_signed; pow2_consts.
  - intros [H | H]; [discriminate H | zdivmod].
  - reflexivity.
Qed.

Lemma le_digits_int32 (v : Z) :
  in_int32 v ->
  wrap_signed 8 (shr32 v 24) * 2 ^ 24 + uint8 (shr32 v 16) * 2 ^ 16
  + uint8 (shr32 v 8) * 2 ^ 8 + uint8 v = v.
Proof.
  unfold in_int32, INT32_MIN, INT32_MAX, wrap_signed, uint8, shr32. intros H.
  rewrite !Z.shiftr_div_pow2 by lia. pow2_consts. chain_div v. zdivmod.
Qed.

(** The decoder inverts the encoder whenever the three low bytes of the
    value are stored as non-negative [char]s: always with an unsigned plain
    [char], and with a signed one if each of them is below 0x80. *)
Lemma read_int32_canopen_set_int (abi : char_abi) (motor : motor_t) (c1 c2 index v : Z) :
  in_int32 v ->
  abi = char_unsigned
  \/ (uint8 v < 128 /\ uint8 (shr32 v 8) < 128 /\ uint8 (shr32 v 16) < 128) ->
  read_int32 (canopen_set_int_msg abi motor c1 c2 index v) 4 = inr v.
Proof.
  intros Hv Hlow.
  rewrite (read_int32_bytes _ (uint8 v) (uint8 (shr32 v 8)) (uint8 (shr32 v 16))
             (to_char abi (shr32 v 24))).
  - rewrite wrap_signed_to_char, le_digits_int32 by exact Hv. reflexivity.
  - change (data_at (canopen_set_int_msg abi motor c1 c2 index v) 4) with (to_char abi v).
    apply to_char_low. tauto.
  - change (data_at (canopen_set_int_msg abi motor c1 c2 index v) 5)
      with (to_char abi (shr32 v 8)).
    apply to_char_low. tauto.
  - change (data_at (canopen_set_int_msg abi motor c1 c2 index v) 6)
      with (to_char abi (shr32 v 16)).
    apply to_char_low. tauto.
  - reflexivity.
  - unfold uint8. zdivmod.
  - unfold uint8. zdivmod.
  - unfold uint8. zdivmod.
  - apply to_char_range.
Qed.

(** With an unsigned plain [char] the decoder inverts the encoder. *)
Lemma read_int32_canopen_set_int_unsigned (motor : motor_t) (c1 c2 index v : Z) :
  in_int32 v ->
  read_int32 (canopen_set_int_msg char_unsigned motor c1 c2 index v) 4 = inr v.
Proof.
  intros Hv. apply read_int32_canopen_set_int; [exact Hv | left; reflexivity].
Qed.

(** C1 (behaviour of the code at the failing input): with a signed plain
    [char] the value 128 is encoded as the bytes 80 00 00 00; [read_int32]
    widens the byte 0x80 to the [int32_t] -128 before OR-ing it in, and so
    decodes the frame that [canopen_set_int] built to -128 instead of 128. *)
Theorem read_int32_sign_extends_low_byte :
  forall (motor : motor_t) (cmd_char_1 cmd_char_2 index : Z),
    read_int32 (canopen_set_int_msg char_signed motor cmd_char_1 cmd_char_2 index 128) 4
    = inr (-128).
Proof. intros. reflexivity. Qed.

(** The same loss on the receive path: a telemetry frame whose position
    field holds 128 (bytes 80 00 00 00) is stored by [handle_PDO1] as the
    encoder position -128 when plain [char] is signed, and as 128 when it is
    unsigned. *)
Lemma handle_PDO1_position_128 :
  let frame := mk_can_frame (1 + 0x180) 8 [0x80; 0; 0; 0; 0; 0; 0; 0] in
  handle_PDO1 Fixtures.steer0 (from_can_frame char_signed frame) Time_zero
  = inr (set_encoder (-128) 0 Time_zero Fixtures.steer0)
  /\ handle_PDO1 Fixtures.steer0 (from_can_frame char_unsigned frame) Time_zero
     = inr (set_encoder 128 0 Time_zero Fixtures.steer0).
Proof. split; reflexivity. Qed.

(** C8: [read_int32] throws exactly for the offsets outside [0,4], the
    exception being the invalid-offset [logic_error], and returns a value for
    every offset in [0,4]. *)
Theorem read_int32_offset_check :
  forall (msg : can_msg_t) (offset : Z),
    ((exists e, read_int32 msg offset = inl e) <-> (offset < 0 \/ 4 < offset))
    /\ (read_int32 msg offset = inl (logic_error "invalid offset")
        <-> (offset < 0 \/ 4 < offset))
    /\ ((exists v, read_int32 msg offset = inr v) <-> 0 <= offset <= 4).
Proof.
  intros msg offset. unfold read_int32.
  destruct (offset <? 0) eqn:Hlo; destruct (offset >? 4) eqn:Hhi; cbn [orb];
    rewrite ?Z.ltb_lt, ?Z.ltb_ge in Hlo; rewrite Z.gtb_ltb in Hhi;
    rewrite ?Z.ltb_lt, ?Z.ltb_ge in Hhi;
    repeat split; intros; try lia; eauto;
    match goal with
    | H : exists _, _ |- _ => destruct H; discriminate
    | H : inr _ = inl _ |- _ => discriminate H
    | _ => idtac
    end.
Qed.

(** ** The send path *)

(** A send that the socket accepts writes the frame once and returns. *)
Lemma can_transmit_accepted (bus : transport) (msg : can_msg_t) :
  do_run bus = true ->
  sock_write bus (to_can_frame msg) = sizeof_can_frame ->
  can_transmit bus msg = ([sys_write (to_can_frame msg) sizeof_can_frame], inr tt).
Proof.
  intros Hrun Hres. unfold can_transmit. rewrite Hrun, Hres. reflexivity.
Qed.

(** Whatever the socket does, the only frame a send hands to [::write] is
    the converted message. *)
Lemma can_transmit_writes (bus : transport) (msg : can_msg_t) (out : can_frame) (res : Z) :
  sys_write out res ∈ trace (can_transmit bus msg) -> out = to_can_frame msg.
Proof.
  unfold can_transmit.
  destruct (do_run bus); cbn [negb].
  - destruct (sock_write bus (to_can_frame msg) <? 0);
      [| destruct (sock_write bus (to_can_frame msg) =? sizeof_can_frame)];
      cbn; rewrite ?elem_of_cons, ?elem_of_nil;
      intros H; repeat destruct H as [H | H]; try discriminate H;
      try contradiction; congruence.
  - cbn. rewrite elem_of_nil. contradiction.
Qed.

(** While the node runs, a send reaches [::write]. *)
Lemma can_transmit_attempts (bus : transport) (msg : can_msg_t) :
  do_run bus = true ->
  sys_write (to_can_frame msg) (sock_write bus (to_can_frame msg))
    ∈ trace (can_transmit bus msg).
Proof.
  intros Hrun. unfold can_transmit. rewrite Hrun. cbn [negb].
  destruct (sock_write bus (to_can_frame msg) <? 0);
    [| destruct (sock_write bus (to_can_frame msg) =? sizeof_can_frame)];
    cbn; rewrite elem_of_cons; left; reflexivity.
Qed.

(** ** Velocity command *)

(** C9: for a motor whose velocity limit is a non-negative [int32_t] (the
    member is documented as positive), the value [motor_set_vel] computes
    lies in [-max_vel_enc_s, +max_vel_enc_s] for every commanded velocity,
    every frame it hands to the bus carries exactly that value in bytes 4-7,
    and while the node runs such a frame is handed to the bus. *)
Theorem motor_set_vel_clamped :
  forall (abi : char_abi) (bus : transport) (motor : motor_t) (rot_vel_rad_s : float),
    0 <= max_vel_enc_s motor <= INT32_MAX ->
    (- max_vel_enc_s motor <= motor_set_vel_value motor rot_vel_rad_s <= max_vel_enc_s motor)
    /\ (forall out res,
          sys_write out res ∈ trace (motor_set_vel abi bus motor rot_vel_rad_s) ->
          frame_payload_int32 out = motor_set_vel_value motor rot_vel_rad_s
          /\ - max_vel_enc_s motor <= frame_payload_int32 out <= max_vel_enc_s motor)
    /\ (do_run bus = true ->
        exists out res, sys_write out res ∈ trace (motor_set_vel abi bus motor rot_vel_rad_s)).
Proof.
  intros abi bus motor vel Hmax.
  assert (Hneg : int32 (- max_vel_enc_s motor) = - max_vel_enc_s motor).
  { apply int32_small. unfold in_int32, INT32_MIN, INT32_MAX in *. lia. }
  assert (Hval : - max_vel_enc_s motor <= motor_set_vel_value motor vel <= max_vel_enc_s motor).
  { unfold motor_set_vel_value. rewrite Hneg. lia. }
  split; [exact Hval |]. split.
  - intros out res Hin. unfold motor_set_vel, canopen_set_int in Hin.
    apply can_transmit_writes in Hin. subst out.
    rewrite canopen_set_int_payload; [split; [reflexivity | exact Hval] |].
    unfold in_int32, INT32_MIN, INT32_MAX in *. lia.
  - intros Hrun. eexists _, _. unfold motor_set_vel, canopen_set_int.
    apply can_transmit_attempts, Hrun.
Qed.

(** The clamp on the default motor configuration, at the homing velocity
    of -1 rad/s. *)
Lemma motor_set_vel_clamped_witness :
  (0 <= max_vel_enc_s Fixtures.steer0 <= INT32_MAX)
  /\ (- max_vel_enc_s Fixtures.steer0
        <= motor_set_vel_value Fixtures.steer0 (-1)%float
        <= max_vel_enc_s Fixtures.steer0)
  /\ motor_set_vel_value Fixtures.steer0 (-1)%float = -6518.
Proof.
  assert (H : 0 <= max_vel_enc_s Fixtures.steer0 <= INT32_MAX) by (vm_compute; split; discriminate).
  split; [exact H |]. split.
  - exact (proj1 (motor_set_vel_clamped char_signed Fixtures.bus_ok Fixtures.steer0 (-1)%float H)).
  - vm_compute. reflexivity.
Defined.

(** ** Status decoding *)

Lemma evaluate_status_fault_unfold (abi : char_abi) (bus : transport) (motor : motor_t)
    (prev_status : Z) :
  Z.land (curr_status motor) 1 <> 0 ->
  Z.land (curr_status motor) 0xE = 10 ->
  evaluate_status abi bus motor prev_status
  = (when (negb (curr_status motor =? prev_status))
       (emit (ROS_ERROR (joint_name motor +:+ ": drive error short circuit"))) ;;;
     canopen_query abi bus motor (chr "M") (chr "F") 0 ;;;
     ret (set_state ST_MOTOR_FAILURE motor))%io.
Proof.
  intros Hbit0 Hcause. unfold evaluate_status.
  destruct (Z.land (curr_status motor) 1 =? 0) eqn:E; [apply Z.eqb_eq in E; contradiction |].
  cbn [negb]. rewrite Hcause. reflexivity.
Qed.

(** A status word without fault bit and without latched failure, with the
    motor-on bit 4 set. *)
Lemma evaluate_status_on_unfold (abi : char_abi) (bus : transport) (motor : motor_t)
    (prev_status : Z) :
  Z.land (curr_status motor) 1 = 0
  /\ Z.land (curr_status motor) (Z.shiftl 1 6) = 0
  /\ Z.land (curr_status motor) (Z.shiftl 1 4) <> 0 ->
  evaluate_status abi bus motor prev_status
  = (when (negb (motor_state_eqb (state motor) ST_OPERATION_ENABLED))
       (emit (ROS_INFO (joint_name motor +:+ ": operation enabled"))) ;;;
     ret (set_state ST_OPERATION_ENABLED motor))%io.
Proof.
  intros (H0 & H6 & H4). unfold evaluate_status. rewrite H0, H6.
  apply Z.eqb_neq in H4. rewrite H4. reflexivity.
Qed.

(** C5 (amended): for a status word with bit 0 set and sub-bits [status &
    0xE] equal to 10, [evaluate_status] reports "drive error short circuit"
    when the status word differs from the previous one and reports nothing
    when it repeats it; once the failure-detail request has been sent without
    error the motor state is MOTOR_FAILURE.  For the status word 0b10000 the
    motor state becomes OPERATION_ENABLED and nothing is sent. *)
Theorem evaluate_status_decode :
  (forall (abi : char_abi) (bus : transport) (motor : motor_t) (prev_status : Z),
      Z.land (curr_status motor) 1 <> 0 ->
      Z.land (curr_status motor) 0xE = 10 ->
      (curr_status motor <> prev_status ->
         exists rest,
           trace (evaluate_status abi bus motor prev_status)
           = ROS_ERROR (joint_name motor +:+ ": drive error short circuit") :: rest)
      /\ (curr_status motor = prev_status ->
          forall text, ROS_ERROR text ∉ trace (evaluate_status abi bus motor prev_status))
      /\ (do_run bus = true ->
          sock_write bus (to_can_frame (canopen_query_msg abi motor (chr "M") (chr "F") 0))
          = sizeof_can_frame ->
          result (evaluate_status abi bus motor prev_status)
          = inr (set_state ST_MOTOR_FAILURE motor)))
  /\ (forall (abi : char_abi) (bus : transport) (motor : motor_t) (prev_status : Z),
      curr_status motor = 16 ->
      result (evaluate_status abi bus motor prev_status)
      = inr (set_state ST_OPERATION_ENABLED motor)
      /\ (forall out res, sys_write out res ∉ trace (evaluate_status abi bus motor prev_status))).
Proof.
  split.
  - intros abi bus motor prev Hbit0 Hcause.
    rewrite (evaluate_status_fault_unfold abi bus motor prev Hbit0 Hcause).
    repeat split.
    + intros Hne. apply Z.eqb_neq in Hne. rewrite Hne. cbn [negb when].
      unfold canopen_query.
      destruct (can_transmit bus (canopen_query_msg abi motor (chr "M") (chr "F") 0))
        as [t [e | []]]; cbn; eauto.
    + intros Heq text. apply Z.eqb_eq in Heq. rewrite Heq. cbn [negb when].
      unfold canopen_query, can_transmit.
      destruct (do_run bus); cbn [negb];
        [destruct (sock_write bus _ <? 0); [| destruct (sock_write bus _ =? sizeof_can_frame)] |];
        cbn; rewrite ?elem_of_cons, ?elem_of_nil; intuition discriminate.
    + intros Hrun Hres. unfold canopen_query.
      rewrite (can_transmit_accepted bus _ Hrun Hres).
      destruct (negb (curr_status motor =? prev)); reflexivity.
  - intros abi bus motor prev Hst.
    rewrite (evaluate_status_on_unfold abi bus motor prev)
      by (rewrite Hst; repeat split; discriminate).
    split.
    + destruct (motor_state_eqb (state motor) ST_OPERATION_ENABLED); reflexivity.
    + intros out res.
      destruct (motor_state_eqb (state motor) ST_OPERATION_ENABLED); cbn;
        rewrite ?elem_of_cons, ?elem_of_nil; intuition discriminate.
Qed.

(** The decoder on the steer motor of wheel 0: a first short-circuit status
    11 after status 0, with a socket that accepts the query. *)
Lemma evaluate_status_decode_witness :
  let motor := Fixtures.with_status 11 Fixtures.steer0 in
  Z.land (curr_status motor) 1 <> 0
  /\ Z.land (curr_status motor) 0xE = 10
  /\ curr_status motor <> 0
  /\ (exists rest,
        trace (evaluate_status char_signed Fixtures.bus_ok motor 0)
        = ROS_ERROR (joint_name motor +:+ ": drive error short circuit") :: rest)
  /\ result (evaluate_status char_signed Fixtures.bus_ok motor 0)
     = inr (set_state ST_MOTOR_FAILURE motor).
Proof.
  intros motor.
  assert (H0 : Z.land (curr_status motor) 1 <> 0) by (vm_compute; discriminate).
  assert (HE : Z.land (curr_status motor) 0xE = 10) by reflexivity.
  assert (Hne : curr_status motor <> 0) by (vm_compute; discriminate).
  destruct (proj1 evaluate_status_decode char_signed Fixtures.bus_ok motor 0 H0 HE)
    as (Hreport & _ & Hstate).
  split; [exact H0 |]. split; [exact HE |]. split; [exact Hne |].
  split; [exact (Hreport Hne) |].
  apply Hstate; reflexivity.
Defined.

(** C5 (counterexample to the claim as stated): the status word 11 has bit 0
    set and sub-bits 10, yet when it repeats the previous status word the
    decoder reports no cause at all; the only event is the failure-detail
    query. *)
Lemma evaluate_status_repeated_fault_unreported :
  let motor := Fixtures.with_status 11 Fixtures.steer0 in
  Z.land (curr_status motor) 1 <> 0
  /\ Z.land (curr_status motor) 0xE = 10
  /\ trace (evaluate_status char_signed Fixtures.bus_ok motor 11)
     = [sys_write (to_can_frame (canopen_query_msg char_signed motor (chr "M") (chr "F") 0))
          sizeof_can_frame]
  /\ (forall text,
        ROS_ERROR text ∉ trace (evaluate_status char_signed Fixtures.bus_ok motor 11)).
Proof.
  intros motor.
  split; [vm_compute; discriminate |]. split; [reflexivity |]. split; [reflexivity |].
  intros text. change (trace (evaluate_status char_signed Fixtures.bus_ok motor 11))
    with [sys_write (to_can_frame (canopen_query_msg char_signed motor (chr "M") (chr "F") 0))
            sizeof_can_frame].
  rewrite elem_of_cons, elem_of_nil. intuition discriminate.
Qed.

(** When the failure-detail query cannot be sent, the exception leaves
    [evaluate_status] before the state is assigned. *)
Lemma evaluate_status_query_refused :
  let motor := Fixtures.with_status 11 Fixtures.steer0 in
  result (evaluate_status char_signed Fixtures.bus_refusing motor 0)
  = inl (runtime_error "write() failed with: No buffer space available").
Proof. reflexivity. Qed.

(** ** Homing *)

Lemma check_homing_done_Forall (m_wheels : list module_t) :
  check_homing_done m_wheels = true
  <-> Forall (fun wheel => homing_state (steer wheel) = 1) m_wheels.
Proof.
  induction m_wheels as [| wheel rest IH]; cbn [check_homing_done].
  - split; [constructor | reflexivity].
  - rewrite Forall_cons. destruct (homing_state (steer wheel) =? 1) eqn:E; cbn [negb].
    + apply Z.eqb_eq in E. rewrite IH. tauto.
    + apply Z.eqb_neq in E. split; [discriminate | tauto].
Qed.

(** C6: [check_homing_done] is true exactly when every wheel's steer motor
    has homing state 1 (triggered); with four wheels of which exactly three
    are triggered it is false. *)
Theorem check_homing_done_iff_all_triggered :
  forall m_wheels : list module_t,
    (check_homing_done m_wheels = true
     <-> forall wheel, wheel ∈ m_wheels -> homing_state (steer wheel) = 1)
    /\ (length m_wheels = 4%nat ->
        length (filter (fun wheel => homing_state (steer wheel) = 1) m_wheels) = 3%nat ->
        check_homing_done m_wheels = false).
Proof.
  intros m_wheels. split.
  - rewrite check_homing_done_Forall. apply Forall_forall.
  - intros Hlen Hthree.
    destruct (check_homing_done m_wheels) eqn:E; [| reflexivity].
    apply check_homing_done_Forall in E.
    assert (Hall : filter (fun wheel => homing_state (steer wheel) = 1) m_wheels = m_wheels).
    { clear Hlen Hthree. induction E as [| w l Hw _ IH]; [reflexivity |].
      rewrite filter_cons_True by exact Hw. f_equal. exact IH. }
    rewrite Hall in Hthree. congruence.
Qed.

(** Four wheels, the third still searching its switch. *)
Lemma check_homing_done_witness :
  let m_wheels := [Fixtures.wheel_with_homing 1; Fixtures.wheel_with_homing 1;
                   Fixtures.wheel_with_homing 0; Fixtures.wheel_with_homing 1] in
  length m_wheels = 4%nat
  /\ length (filter (fun wheel => homing_state (steer wheel) = 1) m_wheels) = 3%nat
  /\ check_homing_done m_wheels = false.
Proof.
  intros m_wheels.
  assert (H4 : length m_wheels = 4%nat) by reflexivity.
  assert (H3 : length (filter (fun wheel => homing_state (steer wheel) = 1) m_wheels) = 3%nat)
    by (vm_compute; reflexivity).
  split; [exact H4 |]. split; [exact H3 |].
  exact (proj2 (check_homing_done_iff_all_triggered m_wheels) H4 H3).
Defined.

(** ** Status-reply watchdog *)

(** C7: [check_motor_timeout] puts the motor into MOTOR_FAILURE exactly when
    the last status reply is older than the last status request and more than
    [m_motor_timeout] seconds have passed since that request; otherwise the
    motor is returned untouched.  The timeout error is logged only if the
    motor was not in MOTOR_FAILURE before, so a further check of the motor
    it returned logs nothing and leaves it in MOTOR_FAILURE. *)
Theorem check_motor_timeout_spec :
  forall (m_motor_timeout : float) (motor : motor_t) (now : Time),
    let expired :=
      time_lt (status_recv_time motor) (request_send_time motor)
      && (m_motor_timeout <? toSec (time_sub now (request_send_time motor)))%float in
    (expired = true ->
       check_motor_timeout m_motor_timeout motor now
       = ((if motor_state_eqb (state motor) ST_MOTOR_FAILURE then []
           else [ROS_ERROR (joint_name motor +:+ ": motor status timeout!")]),
          inr (set_state ST_MOTOR_FAILURE motor)))
    /\ (expired = false ->
        check_motor_timeout m_motor_timeout motor now = ([], inr motor))
    /\ (forall later : Time,
          trace (check_motor_timeout m_motor_timeout (set_state ST_MOTOR_FAILURE motor) later)
          = []
          /\ result (check_motor_timeout m_motor_timeout (set_state ST_MOTOR_FAILURE motor) later)
             = inr (set_state ST_MOTOR_FAILURE motor)).
Proof.
  intros timeout motor now expired.
  split; [| split; [| intros later; split]].
  - intros H. unfold check_motor_timeout, status_timed_out. fold expired. rewrite H.
    destruct (motor_state_eqb (state motor) ST_MOTOR_FAILURE); reflexivity.
  - intros H. unfold check_motor_timeout, status_timed_out. fold expired. rewrite H.
    reflexivity.
  - unfold check_motor_timeout.
    destruct (status_timed_out timeout (set_state ST_MOTOR_FAILURE motor) later); reflexivity.
  - unfold check_motor_timeout.
    destruct (status_timed_out timeout (set_state ST_MOTOR_FAILURE motor) later); reflexivity.
Qed.

(** The watchdog with a one-second timeout on a motor whose request of
    second 10 is unanswered, checked at second 11.5. *)
Lemma check_motor_timeout_witness :
  let motor := Fixtures.steer0_waiting in
  let now := mk_Time 11 500000000 in
  time_lt (status_recv_time motor) (request_send_time motor)
  && (1 <? toSec (time_sub now (request_send_time motor)))%float = true
  /\ check_motor_timeout 1%float motor now
     = ([ROS_ERROR "steer0: motor status timeout!"], inr (set_state ST_MOTOR_FAILURE motor)).
Proof.
  intros motor now.
  assert (H : time_lt (status_recv_time motor) (request_send_time motor)
              && (1 <? toSec (time_sub now (request_send_time motor)))%float = true)
    by (vm_compute; reflexivity).
  split; [exact H |].
  exact (proj1 (check_motor_timeout_spec 1%float motor now) H).
Defined.

(** ** The sign test on binary64 products *)

Lemma binary_round_aux_negative (prec emax : Z) (s : bool) (m e : Z)
    (l : SpecFloat.location) :
  SFltb (binary_round_aux prec emax s m e l) (S754_zero false) = true -> s = true.
Proof.
  unfold binary_round_aux.
  destruct (shr_fexp prec emax m e l) as [mrs' e'].
  destruct (shr_fexp prec emax _ e' loc_Exact) as [mrs'' e''].
  destruct (shr_m mrs'') as [| p | p]; [| destruct (e'' <=? emax - prec) |];
    destruct s; cbn; congruence.
Qed.

(** A product that compares below zero has one factor below zero and the
    other above: the test [a * b < 0] never fires on equal signs, on a zero
    or on a NaN.  (The converse fails only where the product of two numbers
    of opposite sign rounds to zero.) *)
Lemma product_negative_opposite_signs (x y : float) :
  (x * y <? 0)%float = true ->
  ((x <? 0)%float = true /\ (0 <? y)%float = true)
  \/ ((0 <? x)%float = true /\ (y <? 0)%float = true).
Proof.
  rewrite !ltb_spec, mul_spec. change (Prim2SF 0) with (S754_zero false).
  destruct (Prim2SF x) as [sx | sx | | sx mx ex], (Prim2SF y) as [sy | sy | | sy my ey];
    unfold SF64mul, SFmul; try (cbn; discriminate).
  all: try (destruct sx, sy; cbn; intros H; try discriminate H; auto; fail).
  intros H. apply binary_round_aux_negative in H.
  destruct sx, sy; cbn in *; try discriminate H; auto.
Qed.

(** The smallest positive double times -0.02 rounds to a negative zero,
    which does not compare below zero. *)
Lemma product_underflow_not_negative :
  (0 <? 0x1p-1074)%float = true
  /\ (-0x1.47ae147ae147bp-6 <? 0)%float = true
  /\ (0x1p-1074 * -0x1.47ae147ae147bp-6 <? 0)%float = false.
Proof. repeat split. Qed.

(** ** The inverse-kinematics solver *)

Section KinFacts.

Import Kin.

Context {Members : Type} {libm : LibM} {angles : Angles}
        {methods : OmniWheelMethods Members}.

Implicit Types (K : OmniKinematics) (wheel : OmniWheel Members)
               (wheels : list (OmniWheel Members)).

Lemma lookup_map {A B : Type} (f : A -> B) (l : list A) (i : nat) :
  map f l !! i = f <$> (l !! i).
Proof.
  revert i. induction l as [| a l IH]; intros [| i]; cbn; auto.
Qed.

(** A fresh solver satisfies the invariant of its flag vectors. *)
Lemma OmniKinematics_new_ok (n : Z) (K : OmniKinematics) :
  OmniKinematics_new n = inr K -> state_ok K /\ num_wheels K = n.
Proof.
  unfold OmniKinematics_new. destruct (n <? 0) eqn:E; [discriminate |].
  intros [= <-]. apply Z.ltb_ge in E. unfold state_ok. cbn.
  rewrite !length_replicate. auto.
Qed.

(** *** The zero-command path *)

Lemma compute_arity_mismatch K wheels (vx vy yaw : float) :
  Z.of_nat (length wheels) <> num_wheels K ->
  compute K wheels vx vy yaw = (K, inl (logic_error "wheels.size() != num_wheels")).
Proof.
  intros H. unfold compute. apply Z.eqb_neq in H. rewrite H. reflexivity.
Qed.

Lemma compute_no_move K wheels (vx vy yaw : float) :
  Z.of_nat (length wheels) = num_wheels K ->
  no_move_command vx vy yaw = true ->
  compute K wheels vx vy yaw = (K, inr (map (stop_wheel K) wheels)).
Proof.
  intros Hlen Hzero. unfold compute. apply Z.eqb_eq in Hlen. rewrite Hlen, Hzero.
  reflexivity.
Qed.

(** C2: for a wheel vector of the configured length, [compute(wheels, 0, 0,
    0)] returns a vector of the same length in which every wheel's velocity
    is zero and, with [home_on_stop] set, every wheel's angle is the home
    angle of the corresponding input wheel. *)
Theorem compute_zero_command :
  forall K wheels,
    Z.of_nat (length wheels) = num_wheels K ->
    exists result,
      snd (compute K wheels 0 0 0) = inr result
      /\ length result = length wheels
      /\ (forall i r, result !! i = Some r -> wheel_vel r = 0%float)
      /\ (home_on_stop K = true ->
          forall i wheel r,
            wheels !! i = Some wheel -> result !! i = Some r ->
            wheel_angle r = home_angle wheel).
Proof.
  intros K wheels Hlen. exists (map (stop_wheel K) wheels).
  rewrite (compute_no_move K wheels 0 0 0 Hlen) by reflexivity.
  split; [reflexivity |]. split; [apply length_map |]. split.
  - intros i r. rewrite lookup_map.
    destruct (wheels !! i) as [w |]; [| discriminate]. intros [= <-]. reflexivity.
  - intros Hhome i wheel r Hw. rewrite lookup_map, Hw. intros [= <-].
    unfold stop_wheel. rewrite Hhome. reflexivity.
Qed.

(** C10: on the zero-command path the solver is returned as it was, in
    particular its memory [is_driving] and [is_alternate], and every returned
    wheel has the home angle, centre position and remaining members of the
    input wheel at the same index, and its wheel angle too unless
    [home_on_stop] is set. *)
Theorem compute_zero_command_frame :
  forall K wheels (vx vy yaw : float),
    Z.of_nat (length wheels) = num_wheels K ->
    no_move_command vx vy yaw = true ->
    exists result,
      compute K wheels vx vy yaw = (K, inr result)
      /\ is_driving (fst (compute K wheels vx vy yaw)) = is_driving K
      /\ is_alternate (fst (compute K wheels vx vy yaw)) = is_alternate K
      /\ length result = length wheels
      /\ (forall i wheel,
            wheels !! i = Some wheel ->
            exists r,
              result !! i = Some r
              /\ home_angle r = home_angle wheel
              /\ center_pos_x r = center_pos_x wheel
              /\ center_pos_y r = center_pos_y wheel
              /\ other_members r = other_members wheel
              /\ (home_on_stop K = false -> wheel_angle r = wheel_angle wheel)).
Proof.
  intros K wheels vx vy yaw Hlen Hzero. exists (map (stop_wheel K) wheels).
  rewrite (compute_no_move K wheels vx vy yaw Hlen Hzero).
  split; [reflexivity |]. split; [reflexivity |]. split; [reflexivity |].
  split; [apply length_map |].
  intros i wheel Hw. exists (stop_wheel K wheel). rewrite lookup_map, Hw.
  split; [reflexivity |]. unfold stop_wheel.
  destruct (home_on_stop K); repeat split; try reflexivity. discriminate.
Qed.

(** *** One pass of the loop body *)

(** The body of the second loop writes the two flags of wheel [i] and
    nothing else of the solver. *)
Lemma compute_wheel_eq K (i : nat) wheel (vx vy yaw : float) :
  compute_wheel K i wheel vx vy yaw
  = (set_is_driving i (classified_driving K i wheel)
       (set_is_alternate i (takes_alternate K i wheel vx vy yaw) K),
     with_wheel_vel
       (if takes_alternate K i wheel vx vy yaw
        then (-1 * candidate_speed wheel vx vy yaw)%float
        else candidate_speed wheel vx vy yaw)
       (set_wheel_angle
          (if takes_alternate K i wheel vx vy yaw
           then normalize_angle (candidate_angle wheel vx vy yaw + M_PI)%float
           else candidate_angle wheel vx vy yaw)
          wheel)).
Proof.
  unfold compute_wheel, takes_alternate.
  destruct (classified_driving K i wheel).
  - destruct (candidate_speed wheel vx vy yaw * wheel_vel wheel <? 0)%float; reflexivity.
  - destruct (beyond_outer_angle K i wheel (candidate_angle wheel vx vy yaw)); reflexivity.
Qed.

Lemma compute_wheel_tuning K (i : nat) wheel (vx vy yaw : float) :
  tuning (fst (compute_wheel K i wheel vx vy yaw)) = tuning K.
Proof. rewrite compute_wheel_eq. reflexivity. Qed.

Lemma compute_wheel_is_driving K (i : nat) wheel (vx vy yaw : float) :
  is_driving (fst (compute_wheel K i wheel vx vy yaw))
  = <[i := classified_driving K i wheel]> (is_driving K).
Proof. rewrite compute_wheel_eq. reflexivity. Qed.

Lemma compute_wheel_is_alternate K (i : nat) wheel (vx vy yaw : float) :
  is_alternate (fst (compute_wheel K i wheel vx vy yaw))
  = <[i := takes_alternate K i wheel vx vy yaw]> (is_alternate K).
Proof. rewrite compute_wheel_eq. reflexivity. Qed.

Lemma same_view_tests (i : nat) K1 K2 wheel (vx vy yaw : float) :
  same_view i K1 K2 ->
  classified_driving K1 i wheel = classified_driving K2 i wheel
  /\ takes_alternate K1 i wheel vx vy yaw = takes_alternate K2 i wheel vx vy yaw.
Proof.
  intros (Ht & Hd & Ha). unfold tuning in Ht. injection Ht as Hz Hs _ _.
  assert (Hc : classified_driving K1 i wheel = classified_driving K2 i wheel).
  { unfold classified_driving, driving_threshold, flag_at. rewrite Hd, Hz. reflexivity. }
  split; [exact Hc |].
  unfold takes_alternate, beyond_outer_angle, flag_at. rewrite Hc, Ha, Hs. reflexivity.
Qed.

Lemma lookup_insert_same_view {A : Type} (l1 l2 : list A) (i : nat) (x : A) :
  l1 !! i = l2 !! i -> <[i := x]> l1 !! i = <[i := x]> l2 !! i.
Proof.
  intros H. destruct (l1 !! i) as [a |] eqn:E1.
  - rewrite !list_lookup_insert_eq; [reflexivity | |].
    + apply lookup_lt_Some with a. congruence.
    + apply lookup_lt_Some with a. exact E1.
  - symmetry in H. pose proof (proj1 (lookup_ge_None _ _) E1).
    pose proof (proj1 (lookup_ge_None _ _) H).
    rewrite !list_insert_ge by assumption. congruence.
Qed.

(** The outcome for wheel [i] depends on the solver only through its tuning
    and the two flags of that wheel. *)
Lemma compute_wheel_local (i : nat) K1 K2 wheel (vx vy yaw : float) :
  same_view i K1 K2 ->
  snd (compute_wheel K1 i wheel vx vy yaw) = snd (compute_wheel K2 i wheel vx vy yaw)
  /\ is_driving (fst (compute_wheel K1 i wheel vx vy yaw)) !! i
     = is_driving (fst (compute_wheel K2 i wheel vx vy yaw)) !! i
  /\ is_alternate (fst (compute_wheel K1 i wheel vx vy yaw)) !! i
     = is_alternate (fst (compute_wheel K2 i wheel vx vy yaw)) !! i.
Proof.
  intros Hview. destruct (same_view_tests i K1 K2 wheel vx vy yaw Hview) as [Hc Ht].
  destruct Hview as (_ & Hd & Ha).
  rewrite !compute_wheel_is_driving, !compute_wheel_is_alternate, !compute_wheel_eq.
  cbn [snd]. rewrite Hc, Ht.
  split; [reflexivity |]. split; apply lookup_insert_same_view; assumption.
Qed.

(** The body for wheel [i] leaves the view of every other wheel alone. *)
Lemma compute_wheel_other (i j : nat) K wheel (vx vy yaw : float) :
  i <> j -> same_view j (fst (compute_wheel K i wheel vx vy yaw)) K.
Proof.
  intros Hne. unfold same_view.
  rewrite compute_wheel_tuning, compute_wheel_is_driving, compute_wheel_is_alternate.
  rewrite !list_lookup_insert_ne by exact Hne. auto.
Qed.

(** *** The whole loop *)

Lemma compute_loop_spec wheels (vx vy yaw : float) :
  forall K (i : nat) (acc : list (OmniWheel Members)),
    let K' := fst (compute_loop K i wheels vx vy yaw acc) in
    let result := snd (compute_loop K i wheels vx vy yaw acc) in
    tuning K' = tuning K
    /\ (forall j, (j < i)%nat -> same_view j K' K)
    /\ (forall j r, acc !! j = Some r -> result !! j = Some r)
    /\ length result = (length acc + length wheels)%nat
    /\ (forall k wheel,
          wheels !! k = Some wheel ->
          result !! (length acc + k)%nat
          = Some (snd (compute_wheel K (i + k) wheel vx vy yaw))
          /\ is_driving K' !! (i + k)%nat
             = is_driving (fst (compute_wheel K (i + k) wheel vx vy yaw)) !! (i + k)%nat
          /\ is_alternate K' !! (i + k)%nat
             = is_alternate (fst (compute_wheel K (i + k) wheel vx vy yaw)) !! (i + k)%nat).
Proof.
  induction wheels as [| w rest IH]; intros K i acc; cbn zeta.
  - cbn [compute_loop fst snd].
    split; [reflexivity |]. split; [intros j _; unfold same_view; auto |].
    split; [auto |]. split; [cbn [length]; lia |].
    intros k wheel Hk. rewrite lookup_nil in Hk. discriminate Hk.
  - cbn [compute_loop].
    pose proof (compute_wheel_tuning K i w vx vy yaw) as Ht1.
    pose proof (fun j => compute_wheel_other i j K w vx vy yaw) as Hother.
    destruct (compute_wheel K i w vx vy yaw) as [K1 r1] eqn:Hstep.
    cbn [fst] in Ht1, Hother.
    specialize (IH K1 (S i) (acc ++ [r1])). cbn zeta in IH.
    destruct IH as (IHt & IHframe & IHacc & IHlen & IHk).
    split; [| split; [| split; [| split]]].
    + rewrite IHt. exact Ht1.
    + intros j Hj. destruct (IHframe j ltac:(lia)) as (Ft & Fd & Fa).
      destruct (Hother j ltac:(lia)) as (Gt & Gd & Ga).
      unfold same_view. rewrite Ft, Fd, Fa. auto.
    + intros j r Hj. apply IHacc. apply lookup_app_l_Some. exact Hj.
    + rewrite IHlen, length_app. cbn [length]. lia.
    + intros [| k] wheel Hk.
      * cbn in Hk. injection Hk as <-. rewrite !Nat.add_0_r, Hstep. cbn [fst snd].
        destruct (IHframe i ltac:(lia)) as (_ & Fd & Fa).
        split; [| auto]. apply IHacc. apply list_lookup_middle. reflexivity.
      * cbn in Hk. destruct (IHk k wheel Hk) as (Ir & Id & Ia).
        rewrite length_app in Ir. cbn [length] in Ir.
        replace (length acc + S k)%nat with (length acc + 1 + k)%nat by lia.
        replace (i + S k)%nat with (S i + k)%nat by lia.
        destruct (compute_wheel_local (S i + k) K1 K wheel vx vy yaw
                    (Hother (S i + k)%nat ltac:(lia))) as (Lr & Ld & La).
        rewrite Ir, Id, Ia, Lr, Ld, La. auto.
Qed.

(** For a non-zero command, wheel [i] of the result and its two flags are
    what the loop body yields for wheel [i] on the solver before the call. *)
Lemma compute_wheel_outcome K wheels (vx vy yaw : float) (i : nat) wheel :
  state_ok K ->
  Z.of_nat (length wheels) = num_wheels K ->
  no_move_command vx vy yaw = false ->
  wheels !! i = Some wheel ->
  exists K' result,
    compute K wheels vx vy yaw = (K', inr result)
    /\ length result = length wheels
    /\ result !! i = Some (snd (compute_wheel K i wheel vx vy yaw))
    /\ is_driving K' !! i = Some (classified_driving K i wheel)
    /\ is_alternate K' !! i = Some (takes_alternate K i wheel vx vy yaw).
Proof.
  intros (Hn & Hd & Ha) Hlen Hmove Hw.
  unfold compute. rewrite (proj2 (Z.eqb_eq _ _) Hlen), Hmove. cbn [negb].
  pose proof (compute_loop_spec wheels vx vy yaw K 0 []) as Hspec. cbn zeta in Hspec.
  destruct (compute_loop K 0 wheels vx vy yaw []) as [K' result]. cbn [fst snd] in Hspec.
  destruct Hspec as (_ & _ & _ & Hl & Hk).
  destruct (Hk i wheel Hw) as (Hr & Hdi & Hai). cbn [length Nat.add] in Hr, Hdi, Hai, Hl.
  assert (Hi : (i < length wheels)%nat) by (apply lookup_lt_Some with wheel; exact Hw).
  exists K', result. split; [reflexivity |]. split; [exact Hl |]. split; [exact Hr |].
  rewrite Hdi, Hai, compute_wheel_is_driving, compute_wheel_is_alternate.
  split; apply list_lookup_insert_eq; lia.
Qed.

(** *** Direction disambiguation *)

(** C3: for a non-zero command, wheel [i] leaves [compute] flagged as
    driving exactly when the magnitude of its previous velocity exceeds the
    threshold selected by the flag stored for it before the call: twice
    [zero_vel_threshold] if the flag was false, [zero_vel_threshold] itself
    if it was true. *)
Theorem compute_driving_dead_band :
  forall K wheels (vx vy yaw : float) (i : nat) wheel,
    state_ok K ->
    Z.of_nat (length wheels) = num_wheels K ->
    no_move_command vx vy yaw = false ->
    wheels !! i = Some wheel ->
    let K' := fst (compute K wheels vx vy yaw) in
    (is_driving K !! i = Some false ->
       (is_driving K' !! i = Some true
        <-> (2 * zero_vel_threshold K <? abs (wheel_vel wheel))%float = true))
    /\ (is_driving K !! i = Some true ->
        (is_driving K' !! i = Some true
         <-> (zero_vel_threshold K <? abs (wheel_vel wheel))%float = true)).
Proof.
  intros K wheels vx vy yaw i wheel Hok Hlen Hmove Hw K'.
  destruct (compute_wheel_outcome K wheels vx vy yaw i wheel Hok Hlen Hmove Hw)
    as (K1 & result & Hc & _ & _ & Hd & _).
  subst K'. rewrite Hc. cbn [fst]. rewrite Hd.
  unfold classified_driving, driving_threshold, flag_at.
  split; intros Hflag; rewrite Hflag; cbn [from_option id];
    (split; [intros [= H]; exact H | intros ->; reflexivity]).
Qed.

(** What the driving branch does, in terms of its own test: for a non-zero
    command and a wheel classified as driving, the returned wheel and its
    alternate flag follow [new_wheel_vel * wheel.wheel_vel < 0] on the
    candidate speed and the previous velocity: if it holds, the angle is the
    candidate angle plus pi, normalised, the velocity is minus one times the
    candidate speed and the flag is true; if not, candidate angle and speed
    are returned as they are and the flag is false.  [set_wheel_angle] is
    taken to store its argument in [wheel_angle]. *)
Theorem compute_driving_wheel_direction :
  forall K wheels (vx vy yaw : float) (i : nat) wheel,
    (forall a w, wheel_angle (set_wheel_angle a w) = a) ->
    state_ok K ->
    Z.of_nat (length wheels) = num_wheels K ->
    no_move_command vx vy yaw = false ->
    wheels !! i = Some wheel ->
    classified_driving K i wheel = true ->
    exists K' result r,
      compute K wheels vx vy yaw = (K', inr result)
      /\ result !! i = Some r
      /\ is_driving K' !! i = Some true
      /\ ((candidate_speed wheel vx vy yaw * wheel_vel wheel <? 0)%float = true ->
          wheel_angle r = normalize_angle (candidate_angle wheel vx vy yaw + M_PI)%float
          /\ wheel_vel r = (-1 * candidate_speed wheel vx vy yaw)%float
          /\ is_alternate K' !! i = Some true)
      /\ ((candidate_speed wheel vx vy yaw * wheel_vel wheel <? 0)%float = false ->
          wheel_angle r = candidate_angle wheel vx vy yaw
          /\ wheel_vel r = candidate_speed wheel vx vy yaw
          /\ is_alternate K' !! i = Some false).
Proof.
  intros K wheels vx vy yaw i wheel Hset Hok Hlen Hmove Hw Hdrv.
  destruct (compute_wheel_outcome K wheels vx vy yaw i wheel Hok Hlen Hmove Hw)
    as (K' & result & Hc & _ & Hr & Hd & Ha).
  exists K', result, (snd (compute_wheel K i wheel vx vy yaw)).
  split; [exact Hc |]. split; [exact Hr |].
  split; [rewrite Hd, Hdrv; reflexivity |].
  rewrite Ha, compute_wheel_eq. unfold takes_alternate. rewrite Hdrv. cbn [snd].
  split; intros Hsign; rewrite Hsign; cbn [with_wheel_vel wheel_angle wheel_vel];
    rewrite Hset; auto.
Qed.

(** When the driving branch flips a wheel, its previous velocity and the
    candidate speed lie on opposite sides of zero. *)
Lemma driving_flip_opposite_signs K (i : nat) wheel (vx vy yaw : float) :
  classified_driving K i wheel = true ->
  takes_alternate K i wheel vx vy yaw = true ->
  ((candidate_speed wheel vx vy yaw <? 0)%float = true /\ (0 <? wheel_vel wheel)%float = true)
  \/ ((0 <? candidate_speed wheel vx vy yaw)%float = true
      /\ (wheel_vel wheel <? 0)%float = true).
Proof.
  intros Hdrv. unfold takes_alternate. rewrite Hdrv.
  apply product_negative_opposite_signs.
Qed.

End KinFacts.

(** *** The solver on a single front wheel *)

(** Home on stop: a rolling wheel steered to 1 rad is stopped and sent to
    its home angle 0. *)
Lemma compute_zero_command_witness :
  let K := Fixtures.solver1_homing in
  let wheels := [Fixtures.front_wheel 1 1] in
  Z.of_nat (length wheels) = Kin.num_wheels K
  /\ exists result,
       snd (Kin.compute (libm := Fixtures.axis_libm) (angles := Fixtures.principal_angles)
              (methods := Fixtures.plain_wheel_methods) K wheels 0 0 0) = inr result
       /\ length result = length wheels
       /\ (forall i r, result !! i = Some r -> Kin.wheel_vel r = 0%float)
       /\ (Kin.home_on_stop K = true ->
           forall i wheel r,
             wheels !! i = Some wheel -> result !! i = Some r ->
             Kin.wheel_angle r = Kin.home_angle wheel).
Proof.
  intros K wheels.
  assert (H : Z.of_nat (length wheels) = Kin.num_wheels K) by reflexivity.
  split; [exact H |].
  exact (compute_zero_command (libm := Fixtures.axis_libm)
           (angles := Fixtures.principal_angles)
           (methods := Fixtures.plain_wheel_methods) K wheels H).
Defined.

(** The zero test accepts a negative zero; the solver and the untouched
    members come back as they went in. *)
Lemma compute_zero_command_frame_witness :
  let K := Fixtures.solver1 true true in
  let wheels := [Fixtures.front_wheel 1 1] in
  Z.of_nat (length wheels) = Kin.num_wheels K
  /\ Kin.no_move_command 0 (-0) 0 = true
  /\ exists result,
       Kin.compute (libm := Fixtures.axis_libm) (angles := Fixtures.principal_angles)
         (methods := Fixtures.plain_wheel_methods) K wheels 0 (-0) 0
       = (K, inr result)
       /\ length result = length wheels.
Proof.
  intros K wheels.
  assert (H : Z.of_nat (length wheels) = Kin.num_wheels K) by reflexivity.
  assert (H0 : Kin.no_move_command 0 (-0) 0 = true) by reflexivity.
  split; [exact H |]. split; [exact H0 |].
  destruct (compute_zero_command_frame (libm := Fixtures.axis_libm)
              (angles := Fixtures.principal_angles)
              (methods := Fixtures.plain_wheel_methods) K wheels 0 (-0) 0 H H0)
    as (result & Hc & _ & _ & Hl & _).
  exists result. split; [exact Hc | exact Hl].
Defined.

Lemma solver1_ok (driving alternate : bool) : Kin.state_ok (Fixtures.solver1 driving alternate).
Proof. unfold Kin.state_ok. cbn. repeat split. lia. Defined.

(** A wheel last commanded to 0.015 m/s, between the two thresholds 0.01 and
    0.02, under the command (1, 0, 0): it stays stopped if it was stopped and
    stays driving if it was driving. *)
Lemma compute_driving_dead_band_witness :
  let wheels := [Fixtures.front_wheel 0 0x1.eb851eb851eb8p-7] in
  let after (was_driving : bool) :=
    fst (Kin.compute (libm := Fixtures.axis_libm) (angles := Fixtures.principal_angles)
           (methods := Fixtures.plain_wheel_methods)
           (Fixtures.solver1 was_driving false) wheels 1 0 0) in
  Kin.no_move_command 1 0 0 = false
  /\ Kin.is_driving (after false) !! 0%nat <> Some true
  /\ Kin.is_driving (after true) !! 0%nat = Some true.
Proof.
  intros wheels after.
  assert (Hmove : Kin.no_move_command 1 0 0 = false) by reflexivity.
  assert (Hlen : forall b, Z.of_nat (length wheels) = Kin.num_wheels (Fixtures.solver1 b false))
    by reflexivity.
  assert (Hw : wheels !! 0%nat = Some (Fixtures.front_wheel 0 0x1.eb851eb851eb8p-7))
    by reflexivity.
  pose proof (fun b =>
    compute_driving_dead_band (libm := Fixtures.axis_libm)
      (angles := Fixtures.principal_angles) (methods := Fixtures.plain_wheel_methods)
      (Fixtures.solver1 b false) wheels 1 0 0 0%nat _
      (solver1_ok b false) (Hlen b) Hmove Hw) as Hband.
  split; [exact Hmove |]. split.
  - intros Hdrv. apply (proj1 (Hband false)) in Hdrv; [| reflexivity].
    vm_compute in Hdrv. discriminate Hdrv.
  - apply (proj2 (Hband true)); reflexivity.
Defined.

(** A wheel rolling backwards at 1 m/s and commanded forwards is flipped:
    angle pi, speed -1, alternate mode. *)
Lemma compute_driving_wheel_direction_witness :
  let K := Fixtures.solver1 true false in
  let wheel := Fixtures.front_wheel 0 (-1) in
  Kin.classified_driving K 0 wheel = true
  /\ exists K' result r,
       Kin.compute (libm := Fixtures.axis_libm) (angles := Fixtures.principal_angles)
         (methods := Fixtures.plain_wheel_methods) K [wheel] 1 0 0 = (K', inr result)
       /\ result !! 0%nat = Some r
       /\ Kin.wheel_angle r = M_PI
       /\ Kin.wheel_vel r = (-1)%float
       /\ Kin.is_alternate K' !! 0%nat = Some true.
Proof.
  intros K wheel.
  assert (Hdrv : Kin.classified_driving K 0 wheel = true) by reflexivity.
  split; [exact Hdrv |].
  destruct (compute_driving_wheel_direction (libm := Fixtures.axis_libm)
              (angles := Fixtures.principal_angles)
              (methods := Fixtures.plain_wheel_methods) K [wheel] 1 0 0 0%nat wheel
              (fun a w => eq_refl) (solver1_ok true false) eq_refl eq_refl eq_refl Hdrv)
    as (K' & result & r & Hc & Hr & _ & Hflip & _).
  destruct (Hflip eq_refl) as (Hangle & Hvel & Halt).
  exists K', result, r.
  split; [exact Hc |]. split; [exact Hr |].
  split; [rewrite Hangle; reflexivity |]. split; [rewrite Hvel; reflexivity |].
  exact Halt.
Defined.

(** C4 (the code departs from the claim): a wheel rolling backwards at
    0.02 m/s, classified as driving, is commanded forwards at the smallest
    positive speed.  The candidate speed is above zero and the previous
    velocity below, so the two have opposite signs; but their product rounds
    to a negative zero, the test [new_wheel_vel * wheel.wheel_vel < 0] does
    not fire, and the wheel comes back unflipped: the candidate angle rather
    than the candidate angle plus pi, the candidate speed rather than its
    negation, and the alternate flag false. *)
Theorem compute_driving_underflow_not_flipped :
  let K := Fixtures.solver1 true false in
  let wheel := Fixtures.front_wheel 0 (-0x1.47ae147ae147bp-6) in
  let speed :=
    Kin.candidate_speed (libm := Fixtures.axis_libm) (methods := Fixtures.plain_wheel_methods)
      wheel 0x1p-1074 0 0 in
  let angle :=
    Kin.candidate_angle (libm := Fixtures.axis_libm) (methods := Fixtures.plain_wheel_methods)
      wheel 0x1p-1074 0 0 in
  Kin.no_move_command 0x1p-1074 0 0 = false
  /\ Kin.classified_driving K 0 wheel = true
  /\ (0 <? speed)%float = true
  /\ (Kin.wheel_vel wheel <? 0)%float = true
  /\ exists K' r,
       Kin.compute (libm := Fixtures.axis_libm) (angles := Fixtures.principal_angles)
         (methods := Fixtures.plain_wheel_methods) K [wheel] 0x1p-1074 0 0 = (K', inr [r])
       /\ Kin.wheel_angle r = angle
       /\ Kin.wheel_angle r
          <> Kin.normalize_angle (Angles := Fixtures.principal_angles) (angle + M_PI)%float
       /\ Kin.wheel_vel r = speed
       /\ Kin.wheel_vel r <> (-1 * speed)%float
       /\ Kin.is_alternate K' !! 0%nat = Some false.
Proof.
  intros K wheel speed angle.
  split; [reflexivity |]. split; [reflexivity |]. split; [reflexivity |].
  split; [reflexivity |].
  eexists _, _. split; [reflexivity |].
  split; [reflexivity |]. split; [vm_compute; discriminate |].
  split; [reflexivity |]. split; [vm_compute; discriminate |]. reflexivity.
Qed.

(* ===================================================================== *)
(** * Part II, continued: further properties of the code                  *)
(* ===================================================================== *)

(** ** [OmniKinematics::compute]: errors, invariants, the standing branch *)

Section KinMore.

Import Kin.

Context {Members : Type} {libm : LibM} {angles : Angles}
        {methods : OmniWheelMethods Members}.

Implicit Types (K : OmniKinematics) (wheel : OmniWheel Members)
               (wheels : list (OmniWheel Members)).

Lemma compute_wheel_lengths K (i : nat) wheel (vx vy yaw : float) :
  length (is_driving (fst (compute_wheel K i wheel vx vy yaw))) = length (is_driving K)
  /\ length (is_alternate (fst (compute_wheel K i wheel vx vy yaw))) = length (is_alternate K).
Proof.
  rewrite compute_wheel_is_driving, compute_wheel_is_alternate, !length_insert. auto.
Qed.

Lemma compute_loop_lengths wheels (vx vy yaw : float) :
  forall K (i : nat) (acc : list (OmniWheel Members)),
    length (is_driving (fst (compute_loop K i wheels vx vy yaw acc))) = length (is_driving K)
    /\ length (is_alternate (fst (compute_loop K i wheels vx vy yaw acc)))
       = length (is_alternate K).
Proof.
  induction wheels as [| w rest IH]; intros K i acc; cbn [compute_loop].
  - auto.
  - pose proof (compute_wheel_lengths K i w vx vy yaw) as [Hd Ha].
    destruct (compute_wheel K i w vx vy yaw) as [K1 r1]. cbn [fst] in Hd, Ha.
    destruct (IH K1 (S i) (acc ++ [r1])) as [IHd IHa]. split; congruence.
Qed.

(** What a call of [compute] with a vector of the right length yields,
    whatever the command. *)
Lemma compute_returns K wheels (vx vy yaw : float) :
  Z.of_nat (length wheels) = num_wheels K ->
  exists K' result,
    compute K wheels vx vy yaw = (K', inr result)
    /\ length result = length wheels
    /\ tuning K' = tuning K
    /\ length (is_driving K') = length (is_driving K)
    /\ length (is_alternate K') = length (is_alternate K).
Proof.
  intros Hlen. unfold compute. rewrite (proj2 (Z.eqb_eq _ _) Hlen). cbn [negb].
  destruct (no_move_command vx vy yaw).
  - exists K, (map (stop_wheel K) wheels). rewrite length_map. auto.
  - pose proof (compute_loop_spec wheels vx vy yaw K 0 []) as Hspec.
    pose proof (compute_loop_lengths wheels vx vy yaw K 0 []) as [Hd Ha].
    cbn zeta in Hspec. destruct (compute_loop K 0 wheels vx vy yaw []) as [K' result].
    cbn [fst snd] in *. destruct Hspec as (Ht & _ & _ & Hl & _).
    exists K', result. auto.
Qed.

(** [compute] throws exactly when the number of wheels passed differs from
    the configured one; the exception is the [logic_error] of the arity
    check, and the solver is then as before the call. *)
Theorem compute_throws_iff_arity_mismatch :
  forall K wheels (vx vy yaw : float),
    ((exists e, snd (compute K wheels vx vy yaw) = inl e)
     <-> Z.of_nat (length wheels) <> num_wheels K)
    /\ (forall e, snd (compute K wheels vx vy yaw) = inl e ->
          e = logic_error "wheels.size() != num_wheels"
          /\ fst (compute K wheels vx vy yaw) = K).
Proof.
  intros K wheels vx vy yaw.
  destruct (Z.eq_dec (Z.of_nat (length wheels)) (num_wheels K)) as [Heq | Hne].
  - destruct (compute_returns K wheels vx vy yaw Heq) as (K' & result & Hc & _).
    rewrite Hc. cbn [fst snd]. split; [split |].
    + intros [e He]. discriminate He.
    + intros Hne. contradiction.
    + intros e He. discriminate He.
  - rewrite (compute_arity_mismatch K wheels vx vy yaw Hne). cbn [fst snd].
    split; [split; [auto | eauto] |].
    intros e [= <-]. auto.
Qed.

(** A call of [compute] that returns keeps the solver well formed: the
    tuning members are untouched and both flag vectors keep one entry per
    configured wheel; the returned vector has the length of the input. *)
Theorem compute_keeps_state_ok :
  forall K wheels (vx vy yaw : float),
    state_ok K ->
    Z.of_nat (length wheels) = num_wheels K ->
    exists K' result,
      compute K wheels vx vy yaw = (K', inr result)
      /\ state_ok K'
      /\ tuning K' = tuning K
      /\ length result = length wheels.
Proof.
  intros K wheels vx vy yaw (Hn & Hd & Ha) Hlen.
  destruct (compute_returns K wheels vx vy yaw Hlen) as (K' & result & Hc & Hl & Ht & Hd' & Ha').
  exists K', result. split; [exact Hc |]. split; [| auto].
  unfold tuning in Ht. injection Ht as _ _ _ Hnum.
  unfold state_ok. rewrite Hnum, Hd', Ha'. auto.
Qed.

(** The threshold of the standing branch, by the stored alternate flag. *)
Lemma beyond_outer_angle_eq K (i : nat) wheel (a : float) :
  beyond_outer_angle K i wheel a
  = (M_PI / 2 + (if flag_at (is_alternate K) i then -1 else 1) * steering_hysteresis K
     <? abs (shortest_angular_distance a
               (normalize_angle (atan2 (center_pos_y wheel) (center_pos_x wheel)
                                 - M_PI / 2))))%float.
Proof. reflexivity. Qed.

(** For a non-zero command and a wheel that is not classified as driving,
    the wheel leaves [compute] flagged as not driving, and it is flipped
    (angle plus pi normalised, speed times -1, alternate flag set) exactly
    when the distance of the candidate angle from the outer steering angle
    exceeds pi/2 plus the hysteresis if the wheel was not in alternate mode,
    pi/2 minus the hysteresis if it was; otherwise the candidate is returned
    and the alternate flag cleared. *)
Theorem compute_standing_wheel_hysteresis :
  forall K wheels (vx vy yaw : float) (i : nat) wheel,
    (forall a w, wheel_angle (set_wheel_angle a w) = a) ->
    state_ok K ->
    Z.of_nat (length wheels) = num_wheels K ->
    no_move_command vx vy yaw = false ->
    wheels !! i = Some wheel ->
    classified_driving K i wheel = false ->
    let candidate := candidate_angle wheel vx vy yaw in
    let outer :=
      normalize_angle (atan2 (center_pos_y wheel) (center_pos_x wheel) - M_PI / 2)%float in
    let distance := abs (shortest_angular_distance candidate outer) in
    exists K' result r (flipped : bool),
      compute K wheels vx vy yaw = (K', inr result)
      /\ result !! i = Some r
      /\ is_driving K' !! i = Some false
      /\ is_alternate K' !! i = Some flipped
      /\ (is_alternate K !! i = Some false ->
          flipped = (M_PI / 2 + 1 * steering_hysteresis K <? distance)%float)
      /\ (is_alternate K !! i = Some true ->
          flipped = (M_PI / 2 + -1 * steering_hysteresis K <? distance)%float)
      /\ wheel_angle r
         = (if flipped then normalize_angle (candidate + M_PI)%float else candidate)
      /\ wheel_vel r
         = (if flipped then (-1 * candidate_speed wheel vx vy yaw)%float
            else candidate_speed wheel vx vy yaw).
Proof.
  intros K wheels vx vy yaw i wheel Hset Hok Hlen Hmove Hw Hdrv candidate outer distance.
  destruct (compute_wheel_outcome K wheels vx vy yaw i wheel Hok Hlen Hmove Hw)
    as (K' & result & Hc & _ & Hr & Hd & Ha).
  exists K', result, (snd (compute_wheel K i wheel vx vy yaw)),
    (beyond_outer_angle K i wheel candidate).
  split; [exact Hc |]. split; [exact Hr |].
  split; [rewrite Hd, Hdrv; reflexivity |].
  split; [rewrite Ha; unfold takes_alternate; rewrite Hdrv; reflexivity |].
  rewrite beyond_outer_angle_eq. unfold flag_at. fold outer. fold distance.
  split; [intros ->; reflexivity |]. split; [intros ->; reflexivity |].
  rewrite compute_wheel_eq. unfold takes_alternate. rewrite Hdrv. cbn [snd].
  rewrite beyond_outer_angle_eq. unfold flag_at. fold candidate outer distance.
  cbn [with_wheel_vel wheel_angle wheel_vel]. rewrite Hset. auto.
Qed.

(** What [compute] returns for wheel [i], and the two flags it leaves for
    it, depend on nothing but that wheel, the command, the tuning and the two
    flags stored for that wheel: the other wheels of the vector and their
    flags have no influence. *)
Theorem compute_wheels_independent :
  forall K1 K2 wheels1 wheels2 (vx vy yaw : float) (i : nat) wheel,
    state_ok K1 -> state_ok K2 ->
    Z.of_nat (length wheels1) = num_wheels K1 ->
    Z.of_nat (length wheels2) = num_wheels K2 ->
    no_move_command vx vy yaw = false ->
    wheels1 !! i = Some wheel -> wheels2 !! i = Some wheel ->
    zero_vel_threshold K1 = zero_vel_threshold K2 ->
    steering_hysteresis K1 = steering_hysteresis K2 ->
    is_driving K1 !! i = is_driving K2 !! i ->
    is_alternate K1 !! i = is_alternate K2 !! i ->
    exists K1' K2' result1 result2,
      compute K1 wheels1 vx vy yaw = (K1', inr result1)
      /\ compute K2 wheels2 vx vy yaw = (K2', inr result2)
      /\ result1 !! i = result2 !! i
      /\ is_driving K1' !! i = is_driving K2' !! i
      /\ is_alternate K1' !! i = is_alternate K2' !! i.
Proof.
  intros K1 K2 wheels1 wheels2 vx vy yaw i wheel Hok1 Hok2 Hl1 Hl2 Hmove Hw1 Hw2 Hz Hs Hd Ha.
  destruct (compute_wheel_outcome K1 wheels1 vx vy yaw i wheel Hok1 Hl1 Hmove Hw1)
    as (K1' & result1 & Hc1 & _ & Hr1 & Hd1 & Ha1).
  destruct (compute_wheel_outcome K2 wheels2 vx vy yaw i wheel Hok2 Hl2 Hmove Hw2)
    as (K2' & result2 & Hc2 & _ & Hr2 & Hd2 & Ha2).
  exists K1', K2', result1, result2.
  split; [exact Hc1 |]. split; [exact Hc2 |].
  assert (Hc : classified_driving K1 i wheel = classified_driving K2 i wheel).
  { unfold classified_driving, driving_threshold, flag_at. rewrite Hd, Hz. reflexivity. }
  assert (Ht : takes_alternate K1 i wheel vx vy yaw = takes_alternate K2 i wheel vx vy yaw).
  { unfold takes_alternate, beyond_outer_angle, flag_at. rewrite Hc, Ha, Hs. reflexivity. }
  rewrite Hr1, Hr2, Hd1, Hd2, Ha1, Ha2, !compute_wheel_eq, Hc, Ht. auto.
Qed.

End KinMore.

(** ** The frame codec: index packing, SDO downloads, the wire *)

Lemma land_63 (x : Z) : Z.land x 0x3F = x mod 64.
Proof. change 0x3F with (Z.ones 6). rewrite Z.land_ones by lia. reflexivity. Qed.

(** The frame that [can_transmit] hands to [::write] for a
    [canopen_query]. *)
Lemma to_can_frame_canopen_query (abi : char_abi) (motor : motor_t) (c1 c2 index : Z) :
  to_can_frame (canopen_query_msg abi motor c1 c2 index)
  = mk_can_frame (uint32 (can_Rx_PDO2 motor)) 4
      [uint8 (to_char abi c1); uint8 (to_char abi c2); uint8 (to_char abi index);
       uint8 (to_char abi (Z.land (shr32 index 8) 0x3F)); 0; 0; 0; 0].
Proof. reflexivity. Qed.

(** In the frames of [canopen_query] and [canopen_set_int] alike, bytes 2
    and 3 on the wire are the low 14 bits of the index, little-endian, the
    two top bits of byte 3 being zero, on either ABI and for every index. *)
Theorem canopen_index_packing :
  forall (abi : char_abi) (motor : motor_t) (c1 c2 index data : Z),
    let query := frame_data (to_can_frame (canopen_query_msg abi motor c1 c2 index)) in
    let set_int := frame_data (to_can_frame (canopen_set_int_msg abi motor c1 c2 index data)) in
    exists b2 b3,
      query !! 2%nat = Some b2 /\ query !! 3%nat = Some b3
      /\ set_int !! 2%nat = Some b2 /\ set_int !! 3%nat = Some b3
      /\ 0 <= b2 < 256 /\ 0 <= b3 < 64
      /\ b2 + 256 * b3 = index mod 2 ^ 14.
Proof.
  intros abi motor c1 c2 index data.
  rewrite to_can_frame_canopen_query, to_can_frame_canopen_set_int.
  cbn [frame_data]. eexists _, _.
  do 4 (split; [reflexivity |]).
  rewrite !uint8_to_char, land_63. unfold uint8, shr32.
  rewrite Z.shiftr_div_pow2 by lia. change (2 ^ 8) with 256. change (2 ^ 14) with 16384.
  repeat split; zdivmod.
Qed.

(** The frame that [can_transmit] hands to [::write] for an SDO download. *)
Lemma to_can_frame_canopen_SDO_download (abi : char_abi) (motor : motor_t)
    (obj_index obj_sub_index data : Z) :
  to_can_frame (canopen_SDO_download_msg abi motor obj_index obj_sub_index data)
  = mk_can_frame (uint32 (can_Rx_SDO motor)) 8
      [uint8 (to_char abi 0x23); uint8 (to_char abi obj_index);
       uint8 (to_char abi (shr32 obj_index 8)); uint8 (to_char abi obj_sub_index);
       uint8 (to_char abi data); uint8 (to_char abi (shr32 data 8));
       uint8 (to_char abi (shr32 data 16)); uint8 (to_char abi (shr32 data 24))].
Proof. reflexivity. Qed.

(** An SDO download goes to the motor's SDO request address as an
    eight-byte frame: command byte 0x23 (expedited, size indicated), the low
    16 bits of the object index little-endian, the sub-index, and the value
    as a 32-bit little-endian integer, on either ABI. *)
Theorem canopen_SDO_download_frame :
  forall (abi : char_abi) (motor : motor_t) (obj_index obj_sub_index data : Z),
    in_int32 data ->
    let frame := to_can_frame (canopen_SDO_download_msg abi motor obj_index obj_sub_index data) in
    frame_id frame = uint32 (can_Rx_SDO motor)
    /\ frame_dlc frame = 8
    /\ frame_payload_int32 frame = data
    /\ exists b1 b2 b3 payload,
         frame_data frame = 0x23 :: b1 :: b2 :: b3 :: payload
         /\ 0 <= b1 < 256 /\ 0 <= b2 < 256
         /\ b1 + 256 * b2 = obj_index mod 2 ^ 16
         /\ b3 = obj_sub_index mod 256.
Proof.
  intros abi motor obj_index obj_sub_index data Hdata frame. subst frame.
  rewrite to_can_frame_canopen_SDO_download. cbn [frame_id frame_dlc frame_data].
  split; [reflexivity |]. split; [reflexivity |]. split.
  - unfold frame_payload_int32. cbn [frame_data lookup list_lookup from_option id].
    rewrite !uint8_to_char. apply le_bytes_int32, Hdata.
  - eexists _, _, _, _. rewrite !uint8_to_char.
    split; [reflexivity |]. unfold uint8, shr32.
    rewrite Z.shiftr_div_pow2 by lia. change (2 ^ 8) with 256. change (2 ^ 16) with 65536.
    repeat split; zdivmod.
Qed.

Lemma canopen_SDO_download_frame_witness :
  in_int32 0x60640020
  /\ to_can_frame (canopen_SDO_download_msg char_signed Fixtures.steer0 0x1A00 1 0x60640020)
     = mk_can_frame 0x601 8 [0x23; 0x00; 0x1A; 0x01; 0x20; 0x00; 0x64; 0x60]
  /\ frame_payload_int32
       (to_can_frame (canopen_SDO_download_msg char_signed Fixtures.steer0 0x1A00 1 0x60640020))
     = 0x60640020.
Proof.
  assert (H : in_int32 0x60640020) by (vm_compute; split; discriminate).
  split; [exact H |]. split; [reflexivity |].
  exact (proj1 (proj2 (proj2
    (canopen_SDO_download_frame char_signed Fixtures.steer0 0x1A00 1 0x60640020 H)))).
Defined.

(** *** Across the wire *)

Lemma to_char_uint8 (abi : char_abi) (c : Z) : is_char abi c -> to_char abi (uint8 c) = c.
Proof.
  destruct abi; unfold is_char, to_char, int8, uint8, wrap_signed; pow2_consts; intros H;
    zdivmod.
Qed.

Lemma map_to_char_uint8 (abi : char_abi) (l : list Z) :
  Forall (is_char abi) l -> map (to_char abi) (map uint8 l) = l.
Proof.
  induction 1 as [| c l Hc _ IH]; cbn [map]; [reflexivity |].
  rewrite to_char_uint8, IH by exact Hc. reflexivity.
Qed.

Lemma take_8_pad (l : list Z) (n : nat) :
  length l = n -> (n <= 8)%nat -> take 8 (l ++ replicate 8 0) = l ++ replicate (8 - n) 0.
Proof.
  intros Hl Hn. rewrite take_app, Hl.
  rewrite (take_ge l) by lia. rewrite take_replicate. f_equal. f_equal. lia.
Qed.

(** The conversion on receipt undoes the conversion on transmission: a
    well-formed message that is turned into a [can_frame] by [can_transmit]
    and back into a [can_msg_t] by the receive loop is the message itself, on
    either ABI. *)
Theorem from_can_frame_to_can_frame :
  forall (abi : char_abi) (msg : can_msg_t),
    msg_ok abi msg -> from_can_frame abi (to_can_frame msg) = msg.
Proof.
  intros abi [id len data] (Hid & Hlen & Hdata & Hchars & Htail). cbn in *.
  unfold from_can_frame, to_can_frame. cbn [frame_id frame_dlc frame_data msg_id msg_length msg_data].
  assert (Hn : (Z.to_nat len <= 8)%nat) by lia.
  assert (Hu8 : uint8 len = len) by (unfold uint8; zdivmod).
  assert (Hu32 : Z.land (uint32 id) 0x1FFFFFFF = id).
  { change 0x1FFFFFFF with (Z.ones 29). rewrite Z.land_ones by lia.
    unfold uint32. change (2 ^ 32) with 4294967296 in *. change (2 ^ 29) with 536870912 in *.
    zdivmod. }
  rewrite Hu8, Hu32. f_equal.
  set (n := Z.to_nat len) in *.
  assert (Hlt : length (take n data) = n) by (rewrite length_take; lia).
  rewrite (take_8_pad (map uint8 (take n data)) n) by (rewrite ?length_map; assumption).
  rewrite (take_app_length' (map uint8 (take n data))) by (rewrite length_map; congruence).
  rewrite map_to_char_uint8 by (apply Forall_take; exact Hchars).
  rewrite (take_8_pad (take n data) n) by assumption.
  rewrite <- Htail. apply take_drop.
Qed.

Lemma canopen_set_int_msg_ok (abi : char_abi) (motor : motor_t) (c1 c2 index data : Z) :
  0 <= can_Rx_PDO2 motor < 2 ^ 29 -> msg_ok abi (canopen_set_int_msg abi motor c1 c2 index data).
Proof.
  intros Hid. unfold msg_ok. cbn.
  split; [exact Hid |]. split; [lia |]. split; [reflexivity |]. split; [| reflexivity].
  assert (Hc : forall z, is_char abi (to_char abi z)).
  { intros z. destruct abi; unfold is_char, to_char, int8, uint8, wrap_signed; pow2_consts;
      zdivmod. }
  repeat constructor; apply Hc.
Qed.

(** The round trip on a velocity command for the steer motor of wheel 0. *)
Lemma from_can_frame_to_can_frame_witness :
  let msg := canopen_set_int_msg char_signed Fixtures.steer0 (chr "J") (chr "V") 0 (-6518) in
  msg_ok char_signed msg
  /\ from_can_frame char_signed (to_can_frame msg) = msg.
Proof.
  intros msg.
  assert (H : msg_ok char_signed msg).
  { apply canopen_set_int_msg_ok. vm_compute. split; [discriminate | reflexivity]. }
  split; [exact H |].
  exact (from_can_frame_to_can_frame char_signed msg H).
Defined.

(** *** Decoding telemetry *)

(** What [read_int32] returns at a valid offset when the three low bytes
    are stored as non-negative values. *)
Lemma read_int32_le (msg : can_msg_t) (offset b0 b1 b2 t : Z) :
  0 <= offset <= 4 ->
  data_at msg (offset + 0) = b0 -> data_at msg (offset + 1) = b1 ->
  data_at msg (offset + 2) = b2 -> data_at msg (offset + 3) = t ->
  0 <= b0 < 256 -> 0 <= b1 < 256 -> 0 <= b2 < 256 -> -128 <= t < 256 ->
  read_int32 msg offset = inr (wrap_signed 8 t * 2 ^ 24 + b2 * 2 ^ 16 + b1 * 2 ^ 8 + b0).
Proof.
  intros Hoff E0 E1 E2 E3 H0 H1 H2 Ht. unfold read_int32.
  replace (offset <? 0) with false by (symmetry; apply Z.ltb_ge; lia).
  replace (offset >? 4) with false by (rewrite Z.gtb_ltb; symmetry; apply Z.ltb_ge; lia).
  cbn [orb]. rewrite E0, E1, E2, E3, shl32_top_byte by exact Ht. f_equal.
  unfold shl32. rewrite !Z.shiftl_mul_pow2 by lia.
  rewrite !int32_small by (unfold in_int32, INT32_MIN, INT32_MAX; pow2_consts; lia).
  rewrite (lor_shifted_low _ (b2 * 2 ^ 16) 24) by (pow2_consts; lia).
  replace (wrap_signed 8 t * 2 ^ 24 + b2 * 2 ^ 16)
    with ((wrap_signed 8 t * 2 ^ 8 + b2) * 2 ^ 16) by (pow2_consts; lia).
  rewrite (lor_shifted_low _ (b1 * 2 ^ 8) 16) by (pow2_consts; lia).
  replace ((wrap_signed 8 t * 2 ^ 8 + b2) * 2 ^ 16 + b1 * 2 ^ 8)
    with ((wrap_signed 8 t * 2 ^ 16 + b2 * 2 ^ 8 + b1) * 2 ^ 8) by (pow2_consts; lia).
  rewrite (lor_shifted_low _ b0 8) by (pow2_consts; lia).
  pow2_consts. lia.
Qed.

Lemma uint8_range (z : Z) : 0 <= uint8 z < 256.
Proof. unfold uint8. zdivmod. Qed.

Lemma to_char_of_byte (abi : char_abi) (z : Z) :
  abi = char_unsigned \/ uint8 z < 128 -> to_char abi (uint8 z) = uint8 z.
Proof.
  intros H. rewrite to_char_low; [unfold uint8; apply Z.mod_mod; lia |].
  destruct H as [H | H]; [left; exact H | right].
  unfold uint8 in *. rewrite Z.mod_mod by lia. exact H.
Qed.

Lemma wrap_signed_byte (abi : char_abi) (z : Z) :
  wrap_signed 8 (to_char abi (uint8 z)) = wrap_signed 8 z.
Proof.
  rewrite wrap_signed_to_char. unfold wrap_signed, uint8. pow2_consts. zdivmod.
Qed.

(** The four stored bytes of a little-endian field decode to its value. *)
Lemma read_int32_field (abi : char_abi) (msg : can_msg_t) (offset v : Z) :
  0 <= offset <= 4 -> in_int32 v ->
  abi = char_unsigned \/ low_bytes_plain v ->
  data_at msg (offset + 0) = to_char abi (uint8 v) ->
  data_at msg (offset + 1) = to_char abi (uint8 (shr32 v 8)) ->
  data_at msg (offset + 2) = to_char abi (uint8 (shr32 v 16)) ->
  data_at msg (offset + 3) = to_char abi (uint8 (shr32 v 24)) ->
  read_int32 msg offset = inr v.
Proof.
  intros Hoff Hv Hlow E0 E1 E2 E3.
  assert (L0 : abi = char_unsigned \/ uint8 v < 128) by (unfold low_bytes_plain in Hlow; tauto).
  assert (L1 : abi = char_unsigned \/ uint8 (shr32 v 8) < 128)
    by (unfold low_bytes_plain in Hlow; tauto).
  assert (L2 : abi = char_unsigned \/ uint8 (shr32 v 16) < 128)
    by (unfold low_bytes_plain in Hlow; tauto).
  rewrite (to_char_of_byte abi _ L0) in E0. rewrite (to_char_of_byte abi _ L1) in E1.
  rewrite (to_char_of_byte abi _ L2) in E2.
  rewrite (read_int32_le msg offset _ _ _ _ Hoff E0 E1 E2 E3)
    by (apply uint8_range || apply to_char_range).
  rewrite wrap_signed_byte, le_digits_int32 by exact Hv. reflexivity.
Qed.

(** A telemetry frame that carries position and velocity as two 32-bit
    little-endian integers is stored by [handle_PDO1] as exactly these two
    values, together with the time of receipt, if plain [char] is unsigned
    or if the three low bytes of both values are below 0x80; nothing else of
    the motor changes. *)
Theorem handle_PDO1_decodes_telemetry :
  forall (abi : char_abi) (motor : motor_t) (id p v : Z) (now : Time),
    in_int32 p -> in_int32 v ->
    abi = char_unsigned \/ (low_bytes_plain p /\ low_bytes_plain v) ->
    handle_PDO1 motor (from_can_frame abi (mk_can_frame id 8 (le_bytes p ++ le_bytes v))) now
    = inr (set_encoder p v now motor).
Proof.
  intros abi motor id p v now Hp Hv Hlow. unfold handle_PDO1.
  rewrite (read_int32_field abi _ 0 p); [| lia | exact Hp | tauto | reflexivity ..].
  rewrite (read_int32_field abi _ 4 v); [| lia | exact Hv | tauto | reflexivity ..].
  reflexivity.
Qed.

(** Position 1000000 ticks and velocity 300 ticks/s, received with a signed
    plain [char]. *)
Lemma handle_PDO1_decodes_telemetry_witness :
  in_int32 1000000 /\ in_int32 300
  /\ low_bytes_plain 1000000 /\ low_bytes_plain 300
  /\ handle_PDO1 Fixtures.steer0
       (from_can_frame char_signed
          (mk_can_frame 0x181 8 [0x40; 0x42; 0x0F; 0; 0x2C; 0x01; 0; 0]))
       (mk_Time 5 0)
     = inr (set_encoder 1000000 300 (mk_Time 5 0) Fixtures.steer0).
Proof.
  assert (Hp : in_int32 1000000) by (vm_compute; split; discriminate).
  assert (Hv : in_int32 300) by (vm_compute; split; discriminate).
  assert (Lp : low_bytes_plain 1000000) by (vm_compute; repeat split).
  assert (Lv : low_bytes_plain 300) by (vm_compute; repeat split).
  repeat (split; [assumption |]).
  exact (handle_PDO1_decodes_telemetry char_signed Fixtures.steer0 0x181 1000000 300
           (mk_Time 5 0) Hp Hv (or_intror (conj Lp Lv))).
Defined.

(** ** Bus addresses *)

Lemma lookup_five {A : Type} (a0 a1 a2 a3 a4 a : A) (j : nat) :
  [a0; a1; a2; a3; a4] !! j = Some a ->
  (j = 0%nat /\ a = a0) \/ (j = 1%nat /\ a = a1) \/ (j = 2%nat /\ a = a2)
  \/ (j = 3%nat /\ a = a3) \/ (j = 4%nat /\ a = a4).
Proof.
  destruct j as [| [| [| [| [| j]]]]]; cbn; intros [= <-]; auto 10.
Qed.

(** For node ids in the CANopen range 1..127 no two of the bus addresses
    that [set_motor_can_id] derives coincide, except the same channel of the
    same node: a frame is never attributed to another motor or to another
    channel of its motor. *)
Theorem set_motor_can_id_addresses_distinct :
  forall (m1 m2 : motor_t) (id1 id2 : Z) (j k : nat) (a : Z),
    1 <= id1 <= 127 -> 1 <= id2 <= 127 ->
    sub_addresses (set_motor_can_id id1 m1) !! j = Some a ->
    sub_addresses (set_motor_can_id id2 m2) !! k = Some a ->
    j = k /\ id1 = id2.
Proof.
  intros m1 m2 id1 id2 j k a H1 H2. unfold sub_addresses.
  cbn [set_motor_can_id can_Tx_PDO1 can_Tx_PDO2 can_Rx_PDO2 can_Tx_SDO can_Rx_SDO].
  rewrite !int32_small by (unfold in_int32, INT32_MIN, INT32_MAX; pow2_consts; lia).
  intros Hj Hk.
  apply lookup_five in Hj. apply lookup_five in Hk.
  destruct Hj as [[-> Hj] | [[-> Hj] | [[-> Hj] | [[-> Hj] | [-> Hj]]]]];
    destruct Hk as [[-> Hk] | [[-> Hk] | [[-> Hk] | [[-> Hk] | [-> Hk]]]]];
    split; (reflexivity || lia).
Qed.

Lemma set_motor_can_id_addresses_distinct_witness :
  sub_addresses (set_motor_can_id 1 motor_default) = [0x181; 0x281; 0x301; 0x581; 0x601]
  /\ (forall k, sub_addresses (set_motor_can_id 2 motor_default) !! k = Some 0x281 -> False)
  /\ (forall k, sub_addresses (set_motor_can_id 1 motor_default) !! k = Some 0x281 -> k = 1%nat).
Proof.
  split; [reflexivity |]. split.
  - intros k Hk.
    pose proof (set_motor_can_id_addresses_distinct motor_default motor_default 1 2 1 k 0x281
                  ltac:(lia) ltac:(lia) eq_refl Hk) as [_ H].
    discriminate H.
  - intros k Hk.
    pose proof (set_motor_can_id_addresses_distinct motor_default motor_default 1 1 1 k 0x281
                  ltac:(lia) ltac:(lia) eq_refl Hk) as [H _].
    symmetry. exact H.
Defined.

(** ** Motor state *)

Lemma motor_state_eqb_eq (a b : motor_state_e) : motor_state_eqb a b = true <-> a = b.
Proof. destruct a, b; cbn; split; congruence. Qed.

Lemma motor_state_eqb_neq (a b : motor_state_e) : motor_state_eqb a b = false <-> a <> b.
Proof. destruct a, b; cbn; split; congruence. Qed.

(** [all_motors_operational] holds exactly when the emergency stop is
    inactive and the drive and the steer motor of every wheel are in
    OPERATION_ENABLED. *)
Theorem all_motors_operational_iff :
  forall (m_wheels : list module_t) (is_em_stop : bool),
    all_motors_operational m_wheels is_em_stop = true
    <-> is_em_stop = false
        /\ forall wheel, wheel ∈ m_wheels ->
             state (drive wheel) = ST_OPERATION_ENABLED
             /\ state (steer wheel) = ST_OPERATION_ENABLED.
Proof.
  intros m_wheels is_em_stop. induction m_wheels as [| w rest IH]; cbn [all_motors_operational].
  - split.
    + intros H. split; [destruct is_em_stop; [discriminate H | reflexivity] |].
      intros wheel Hin. apply elem_of_nil in Hin. contradiction.
    + intros [-> _]. reflexivity.
  - destruct (motor_state_eqb (state (drive w)) ST_OPERATION_ENABLED) eqn:Ed;
      destruct (motor_state_eqb (state (steer w)) ST_OPERATION_ENABLED) eqn:Es; cbn [negb orb].
    + apply motor_state_eqb_eq in Ed, Es. rewrite IH. split.
      * intros [Hem Hall]. split; [exact Hem |]. intros wheel Hin.
        apply elem_of_cons in Hin as [-> | Hin]; auto.
      * intros [Hem Hall]. split; [exact Hem |]. intros wheel Hin.
        apply Hall. apply elem_of_cons. auto.
    + apply motor_state_eqb_neq in Es. split; [discriminate |].
      intros [_ Hall]. destruct (Hall w ltac:(apply elem_of_cons; auto)). contradiction.
    + apply motor_state_eqb_neq in Ed. split; [discriminate |].
      intros [_ Hall]. destruct (Hall w ltac:(apply elem_of_cons; auto)). contradiction.
    + apply motor_state_eqb_neq in Ed. split; [discriminate |].
      intros [_ Hall]. destruct (Hall w ltac:(apply elem_of_cons; auto)). contradiction.
Qed.

(** ** The effect monad *)

Lemma trace_bind {A B : Type} (m : IO A) (k : A -> IO B) :
  trace (bind m k)
  = trace m ++ match result m with inr a => trace (k a) | inl _ => [] end.
Proof.
  destruct m as [t [e | a]]; cbn; [rewrite app_nil_r; reflexivity |].
  destruct (k a) as [t' r]. reflexivity.
Qed.

Lemma result_bind {A B : Type} (m : IO A) (k : A -> IO B) :
  result (bind m k)
  = match result m with inr a => result (k a) | inl e => inl e end.
Proof.
  destruct m as [t [e | a]]; cbn; [reflexivity |].
  destruct (k a) as [t' r]. reflexivity.
Qed.

Lemma result_when_emit (c : bool) (ev : event) : result (when c (emit ev)) = inr tt.
Proof. destruct c; reflexivity. Qed.

(** ** Status decoding, completed *)

(** The three shapes of [evaluate_status]. *)
Lemma evaluate_status_shape (abi : char_abi) (bus : transport) (motor : motor_t)
    (prev_status : Z) :
  let s := curr_status motor in
  ((Z.land s 1 <> 0 \/ Z.land s (Z.shiftl 1 6) <> 0) ->
     exists report : IO unit,
       result report = inr tt
       /\ (forall ev, ev ∈ trace report -> is_report ev)
       /\ (s = prev_status -> trace report = [])
       /\ evaluate_status abi bus motor prev_status
          = (report ;;; canopen_query abi bus motor (chr "M") (chr "F") 0 ;;;
             ret (set_state ST_MOTOR_FAILURE motor))%io)
  /\ (Z.land s 1 = 0 -> Z.land s (Z.shiftl 1 6) = 0 -> Z.land s (Z.shiftl 1 4) <> 0 ->
      evaluate_status abi bus motor prev_status
      = ((if motor_state_eqb (state motor) ST_OPERATION_ENABLED then []
          else [ROS_INFO (joint_name motor +:+ ": operation enabled")]),
         inr (set_state ST_OPERATION_ENABLED motor)))
  /\ (Z.land s 1 = 0 -> Z.land s (Z.shiftl 1 6) = 0 -> Z.land s (Z.shiftl 1 4) = 0 ->
      evaluate_status abi bus motor prev_status
      = ((if motor_state_eqb (state motor) ST_OPERATION_DISABLED then []
          else [ROS_INFO (joint_name motor +:+ ": operation disabled")]),
         inr (set_state ST_OPERATION_DISABLED motor))).
Proof.
  intros s. subst s. unfold evaluate_status. repeat split.
  - intros Hfault.
    destruct (Z.land (curr_status motor) 1 =? 0) eqn:E0; cbn [negb].
    + apply Z.eqb_eq in E0.
      destruct (Z.land (curr_status motor) (Z.shiftl 1 6) =? 0) eqn:E6; cbn [negb].
      * apply Z.eqb_eq in E6. destruct Hfault; contradiction.
      * eexists. split; [| split; [| split; [| reflexivity]]].
        -- apply result_when_emit.
        -- intros ev. destruct (negb (curr_status motor =? prev_status)); cbn;
             rewrite ?elem_of_cons, ?elem_of_nil; intros H;
             intuition (subst; eexists; reflexivity).
        -- intros ->. rewrite Z.eqb_refl. reflexivity.
    + eexists. split; [| split; [| split; [| reflexivity]]].
      * destruct (negb (curr_status motor =? prev_status)); [| reflexivity].
        cbn [when]. repeat (match goal with |- context [if ?c then _ else _] => destruct c end);
          reflexivity.
      * intros ev. destruct (negb (curr_status motor =? prev_status)); cbn [when];
          [| cbn; rewrite elem_of_nil; contradiction].
        repeat (match goal with |- context [if ?c then _ else _] => destruct c end);
          cbn; rewrite ?elem_of_cons, ?elem_of_nil; intros H;
          intuition (subst; eexists; reflexivity).
      * intros ->. rewrite Z.eqb_refl. reflexivity.
  - intros H0 H6 H4. rewrite H0, H6. apply Z.eqb_neq in H4. rewrite H4. cbn [Z.eqb negb].
    destruct (motor_state_eqb (state motor) ST_OPERATION_ENABLED); reflexivity.
  - intros H0 H6 H4. rewrite H0, H6, H4. cbn [Z.eqb negb].
    destruct (motor_state_eqb (state motor) ST_OPERATION_DISABLED); reflexivity.
Qed.

Lemma can_transmit_result (bus : transport) (msg : can_msg_t) :
  result (can_transmit bus msg) = inr tt
  <-> do_run bus = true /\ sock_write bus (to_can_frame msg) = sizeof_can_frame.
Proof.
  unfold can_transmit. destruct (do_run bus); cbn [negb].
  - destruct (sock_write bus (to_can_frame msg) <? 0) eqn:Elt.
    + cbn. apply Z.ltb_lt in Elt. unfold sizeof_can_frame.
      split; [discriminate | intros [_ H]; lia].
    + destruct (sock_write bus (to_can_frame msg) =? sizeof_can_frame) eqn:Eeq; cbn.
      * apply Z.eqb_eq in Eeq. tauto.
      * apply Z.eqb_neq in Eeq. split; [discriminate | tauto].
  - cbn. split; [discriminate | intros [H _]; discriminate H].
Qed.

Lemma result_unit_cases (r : exn + unit) : r = inr tt \/ exists e, r = inl e.
Proof. destruct r as [e | []]; eauto. Qed.

(** The state table of [evaluate_status]. *)
Lemma evaluate_status_table :
  forall (abi : char_abi) (bus : transport) (motor motor' : motor_t) (prev_status : Z),
    result (evaluate_status abi bus motor prev_status) = inr motor' ->
    let s := curr_status motor in
    motor' = set_state (state motor') motor
    /\ (state motor' = ST_MOTOR_FAILURE
        <-> Z.land s 1 <> 0 \/ Z.land s (Z.shiftl 1 6) <> 0)
    /\ (state motor' = ST_OPERATION_ENABLED
        <-> Z.land s 1 = 0 /\ Z.land s (Z.shiftl 1 6) = 0 /\ Z.land s (Z.shiftl 1 4) <> 0)
    /\ (state motor' = ST_OPERATION_DISABLED
        <-> Z.land s 1 = 0 /\ Z.land s (Z.shiftl 1 6) = 0 /\ Z.land s (Z.shiftl 1 4) = 0)
    /\ state motor' <> ST_PRE_INITIALIZED.
Proof.
  intros abi bus motor motor' prev Hres s.
  destruct (evaluate_status_shape abi bus motor prev) as (Hfault & Hon & Hoff).
  fold s in Hfault, Hon, Hoff.
  destruct (Z.eq_dec (Z.land s 1) 0) as [E0 | E0];
    [destruct (Z.eq_dec (Z.land s (Z.shiftl 1 6)) 0) as [E6 | E6];
       [destruct (Z.eq_dec (Z.land s (Z.shiftl 1 4)) 0) as [E4 | E4] |] |].
  - rewrite (Hoff E0 E6 E4) in Hres. cbn in Hres. injection Hres as <-.
    cbn [state set_state]. repeat split; try tauto; try discriminate; intuition discriminate.
  - rewrite (Hon E0 E6 E4) in Hres. cbn in Hres. injection Hres as <-.
    cbn [state set_state]. repeat split; try tauto; try discriminate; intuition discriminate.
  - destruct (Hfault (or_intror E6)) as (report & Hr & _ & _ & Heq).
    rewrite Heq, result_bind, Hr, result_bind in Hres.
    destruct (result (canopen_query abi bus motor (chr "M") (chr "F") 0)) as [e | []];
      [discriminate Hres |]. cbn in Hres. injection Hres as <-.
    cbn [state set_state]. repeat split; try tauto; try discriminate; intuition discriminate.
  - destruct (Hfault (or_introl E0)) as (report & Hr & _ & _ & Heq).
    rewrite Heq, result_bind, Hr, result_bind in Hres.
    destruct (result (canopen_query abi bus motor (chr "M") (chr "F") 0)) as [e | []];
      [discriminate Hres |]. cbn in Hres. injection Hres as <-.
    cbn [state set_state]. repeat split; try tauto; try discriminate; intuition discriminate.
Qed.

(** Whenever [evaluate_status] returns, the motor differs from the one
    passed in at most in its state, and the state is read off the status
    word alone: MOTOR_FAILURE if bit 0 or bit 6 is set, otherwise
    OPERATION_ENABLED if bit 4 is set and OPERATION_DISABLED if not.  A fault
    bit thus overrides the motor-on bit, and the decoder never leaves a motor
    in PRE_INITIALIZED. *)
Theorem evaluate_status_state_table :
  forall (abi : char_abi) (bus : transport) (motor motor' : motor_t) (prev_status : Z),
    result (evaluate_status abi bus motor prev_status) = inr motor' ->
    let s := curr_status motor in
    motor' = set_state (state motor') motor
    /\ (state motor' = ST_MOTOR_FAILURE
        <-> Z.land s 1 <> 0 \/ Z.land s (Z.shiftl 1 6) <> 0)
    /\ (state motor' = ST_OPERATION_ENABLED
        <-> Z.land s 1 = 0 /\ Z.land s (Z.shiftl 1 6) = 0 /\ Z.land s (Z.shiftl 1 4) <> 0)
    /\ (state motor' = ST_OPERATION_DISABLED
        <-> Z.land s 1 = 0 /\ Z.land s (Z.shiftl 1 6) = 0 /\ Z.land s (Z.shiftl 1 4) = 0)
    /\ state motor' <> ST_PRE_INITIALIZED.
Proof. exact evaluate_status_table. Qed.

(** Status word 0x51: fault bit, latched failure and motor-on bit together
    decode to MOTOR_FAILURE. *)
Lemma evaluate_status_state_table_witness :
  let motor := Fixtures.with_status 0x51 Fixtures.steer0 in
  result (evaluate_status char_signed Fixtures.bus_ok motor 0)
  = inr (set_state ST_MOTOR_FAILURE motor)
  /\ (state (set_state ST_MOTOR_FAILURE motor) = ST_MOTOR_FAILURE
      <-> Z.land (curr_status motor) 1 <> 0 \/ Z.land (curr_status motor) (Z.shiftl 1 6) <> 0).
Proof.
  intros motor.
  assert (H : result (evaluate_status char_signed Fixtures.bus_ok motor 0)
              = inr (set_state ST_MOTOR_FAILURE motor)) by reflexivity.
  split; [exact H |].
  exact (proj1 (proj2 (evaluate_status_state_table char_signed Fixtures.bus_ok motor _ 0 H))).
Defined.

(** [evaluate_status] throws exactly when the status word shows a fault
    (bit 0 or bit 6) and the failure-detail query cannot be sent; the only
    frame it ever hands to the socket is that query, "MF" with index 0 to the
    motor's command address, and only for a fault. *)
Theorem evaluate_status_throws_iff :
  forall (abi : char_abi) (bus : transport) (motor : motor_t) (prev_status : Z),
    let s := curr_status motor in
    let query := to_can_frame (canopen_query_msg abi motor (chr "M") (chr "F") 0) in
    ((exists e, result (evaluate_status abi bus motor prev_status) = inl e)
     <-> (Z.land s 1 <> 0 \/ Z.land s (Z.shiftl 1 6) <> 0)
         /\ (do_run bus = false \/ sock_write bus query <> sizeof_can_frame))
    /\ (forall out res,
          sys_write out res ∈ trace (evaluate_status abi bus motor prev_status) ->
          (Z.land s 1 <> 0 \/ Z.land s (Z.shiftl 1 6) <> 0) /\ out = query).
Proof.
  intros abi bus motor prev s query.
  destruct (evaluate_status_shape abi bus motor prev) as (Hfault & Hon & Hoff).
  fold s in Hfault, Hon, Hoff.
  assert (Hdec : (Z.land s 1 <> 0 \/ Z.land s (Z.shiftl 1 6) <> 0)
                 \/ (Z.land s 1 = 0 /\ Z.land s (Z.shiftl 1 6) = 0)) by lia.
  destruct Hdec as [Hf | [E0 E6]].
  - destruct (Hfault Hf) as (report & Hr & Hlog & _ & Heq). rewrite Heq. split.
    + rewrite result_bind, Hr, result_bind.
      pose proof (can_transmit_result bus (canopen_query_msg abi motor (chr "M") (chr "F") 0))
        as Hsend. fold query in Hsend. unfold canopen_query.
      destruct (result_unit_cases
                  (result (can_transmit bus (canopen_query_msg abi motor (chr "M") (chr "F") 0))))
        as [Hok | [e He]].
      * rewrite Hok. cbn. apply Hsend in Hok as [Hrun Hw]. split.
        -- intros [e He]. discriminate He.
        -- intros [_ [H | H]]; congruence.
      * rewrite He. split; [| eauto]. intros _. split; [exact Hf |].
        destruct (do_run bus) eqn:Hrun; [right | left; reflexivity].
        intros Hw. rewrite (proj2 Hsend (conj eq_refl Hw)) in He. discriminate He.
    + intros out res. rewrite trace_bind, Hr, trace_bind, elem_of_app, elem_of_app.
      intros [Hin | [Hin | Hin]].
      * apply Hlog in Hin as [text Hin]. discriminate Hin.
      * split; [exact Hf |]. exact (can_transmit_writes bus _ out res Hin).
      * destruct (result (canopen_query abi bus motor (chr "M") (chr "F") 0)) as [e | []];
          cbn in Hin; apply elem_of_nil in Hin; contradiction.
  - assert (Hquiet : result (evaluate_status abi bus motor prev) <> inl (logic_error "")
                     /\ (exists m', result (evaluate_status abi bus motor prev) = inr m')
                     /\ (forall out res,
                           sys_write out res ∉ trace (evaluate_status abi bus motor prev))).
    { destruct (Z.eq_dec (Z.land s (Z.shiftl 1 4)) 0) as [E4 | E4].
      - rewrite (Hoff E0 E6 E4). cbn. split; [discriminate |]. split; [eauto |].
        intros out res. destruct (motor_state_eqb (state motor) ST_OPERATION_DISABLED);
          rewrite ?elem_of_cons, ?elem_of_nil; intuition discriminate.
      - rewrite (Hon E0 E6 E4). cbn. split; [discriminate |]. split; [eauto |].
        intros out res. destruct (motor_state_eqb (state motor) ST_OPERATION_ENABLED);
          rewrite ?elem_of_cons, ?elem_of_nil; intuition discriminate. }
    destruct Hquiet as (_ & [m' Hm'] & Hnone). split.
    + rewrite Hm'. split; [intros [e He]; discriminate He | intros [[H | H] _]; contradiction].
    + intros out res Hin. destruct (Hnone out res Hin).
Qed.

(** A status word that repeats the previous one and asks for the state the
    motor already has is decoded without any log entry: periodic status polls
    of an unchanged motor do not fill the log. *)
Theorem evaluate_status_quiet_when_unchanged :
  forall (abi : char_abi) (bus : transport) (motor : motor_t) (prev_status : Z),
    curr_status motor = prev_status ->
    (Z.land (curr_status motor) 1 = 0 ->
     Z.land (curr_status motor) (Z.shiftl 1 6) = 0 ->
     state motor = if Z.land (curr_status motor) (Z.shiftl 1 4) =? 0
                   then ST_OPERATION_DISABLED else ST_OPERATION_ENABLED) ->
    forall text,
      (ROS_INFO text ∉ trace (evaluate_status abi bus motor prev_status))
      /\ (ROS_WARN text ∉ trace (evaluate_status abi bus motor prev_status))
      /\ (ROS_ERROR text ∉ trace (evaluate_status abi bus motor prev_status)).
Proof.
  intros abi bus motor prev Hsame Hstate text.
  destruct (evaluate_status_shape abi bus motor prev) as (Hfault & Hon & Hoff).
  assert (Hdec : (Z.land (curr_status motor) 1 <> 0
                  \/ Z.land (curr_status motor) (Z.shiftl 1 6) <> 0)
                 \/ (Z.land (curr_status motor) 1 = 0
                     /\ Z.land (curr_status motor) (Z.shiftl 1 6) = 0)) by lia.
  destruct Hdec as [Hf | [E0 E6]].
  - destruct (Hfault Hf) as (report & Hr & _ & Hnil & Heq).
    rewrite Heq, trace_bind, Hr, (Hnil Hsame), trace_bind. cbn [app].
    assert (Hq : forall ev, ev ∈ trace (canopen_query abi bus motor (chr "M") (chr "F") 0)
                   ++ match result (canopen_query abi bus motor (chr "M") (chr "F") 0) with
                      | inl _ => []
                      | inr a => trace (ret (set_state ST_MOTOR_FAILURE motor))
                      end ->
                 (exists out res, ev = sys_write out res) \/ ev = sys_shutdown).
    { intros ev. rewrite elem_of_app. intros [Hin | Hin].
      - unfold canopen_query, can_transmit in Hin.
        destruct (do_run bus); cbn [negb] in Hin;
          [destruct (sock_write bus _ <? 0); [| destruct (sock_write bus _ =? sizeof_can_frame)] |];
          cbn in Hin; rewrite ?elem_of_cons, ?elem_of_nil in Hin;
          intuition eauto.
      - destruct (result (canopen_query abi bus motor (chr "M") (chr "F") 0)) as [e | []];
          cbn in Hin; apply elem_of_nil in Hin; contradiction. }
    repeat split; intros Hin; apply Hq in Hin as [(out & res & H) | H]; discriminate H.
  - specialize (Hstate E0 E6).
    destruct (Z.eq_dec (Z.land (curr_status motor) (Z.shiftl 1 4)) 0) as [E4 | E4].
    + rewrite (Hoff E0 E6 E4). rewrite E4 in Hstate. cbn [Z.eqb] in Hstate.
      rewrite Hstate. cbn. repeat split; apply not_elem_of_nil.
    + rewrite (Hon E0 E6 E4). apply Z.eqb_neq in E4. rewrite E4 in Hstate.
      rewrite Hstate. cbn. repeat split; apply not_elem_of_nil.
Qed.

(** The second of two identical "motor on" status words. *)
Lemma evaluate_status_quiet_when_unchanged_witness :
  let motor := Fixtures.with_status 16 Fixtures.steer0 in
  curr_status motor = 16
  /\ state motor = ST_OPERATION_ENABLED
  /\ forall text,
       (ROS_INFO text ∉ trace (evaluate_status char_signed Fixtures.bus_ok motor 16))
       /\ (ROS_WARN text ∉ trace (evaluate_status char_signed Fixtures.bus_ok motor 16))
       /\ (ROS_ERROR text ∉ trace (evaluate_status char_signed Fixtures.bus_ok motor 16)).
Proof.
  intros motor. split; [reflexivity |]. split; [reflexivity |].
  exact (evaluate_status_quiet_when_unchanged char_signed Fixtures.bus_ok motor 16 eq_refl
           (fun _ _ => eq_refl)).
Defined.

(** ** Failure word *)

Lemma evaluate_motor_failure_result (motor : motor_t) (prev_status : Z) :
  result (evaluate_motor_failure motor prev_status) = inr tt.
Proof.
  unfold evaluate_motor_failure.
  destruct (negb (curr_motor_failure motor =? prev_status)); cbn [when]; [| reflexivity].
  repeat (match goal with |- context [if ?c then _ else _] => destruct c end); reflexivity.
Qed.

Lemma evaluate_motor_failure_trace (motor : motor_t) (prev_status : Z) (ev : event) :
  ev ∈ trace (evaluate_motor_failure motor prev_status) -> is_report ev.
Proof.
  unfold evaluate_motor_failure.
  destruct (negb (curr_motor_failure motor =? prev_status)); cbn [when];
    [| cbn; rewrite elem_of_nil; contradiction].
  repeat (match goal with |- context [if ?c then _ else _] => destruct c end);
    cbn; rewrite ?elem_of_cons, ?elem_of_nil; intros H;
    intuition (subst; eexists; reflexivity).
Qed.

(** [evaluate_motor_failure] never throws and never sends; it logs at most
    one error, none for a failure word that repeats the previous one, and for
    a changed word with bit 2 set the report is "feedback loss" whatever the
    other bits. *)
Theorem evaluate_motor_failure_reports_once :
  forall (motor : motor_t) (prev_status : Z),
    result (evaluate_motor_failure motor prev_status) = inr tt
    /\ (length (trace (evaluate_motor_failure motor prev_status)) <= 1)%nat
    /\ (forall ev, ev ∈ trace (evaluate_motor_failure motor prev_status) -> is_report ev)
    /\ (curr_motor_failure motor = prev_status ->
        trace (evaluate_motor_failure motor prev_status) = [])
    /\ (curr_motor_failure motor <> prev_status ->
        Z.land (curr_motor_failure motor) (Z.shiftl 1 2) <> 0 ->
        trace (evaluate_motor_failure motor prev_status)
        = [ROS_ERROR (joint_name motor +:+ ": motor failure: feedback loss")]).
Proof.
  intros motor prev. unfold evaluate_motor_failure.
  split; [| split; [| split; [| split]]].
  - apply evaluate_motor_failure_result.
  - destruct (negb (curr_motor_failure motor =? prev)); cbn [when]; [| cbn; lia].
    repeat (match goal with |- context [if ?c then _ else _] => destruct c end); cbn; lia.
  - intros ev. apply evaluate_motor_failure_trace.
  - intros ->. rewrite Z.eqb_refl. reflexivity.
  - intros Hne H2. apply Z.eqb_neq in Hne, H2. rewrite Hne, H2. reflexivity.
Qed.

(** ** Replies on the command channel *)

Section ReceiveFacts.

Variable abi : char_abi.
Variable bus : transport.

Lemma is_reply_exclusive (msg : can_msg_t) (c1 c2 d1 d2 : ascii) :
  chr c1 <> chr d1 -> is_reply msg c1 c2 = true -> is_reply msg d1 d2 = false.
Proof.
  unfold is_reply. intros Hne H. apply andb_true_iff in H as [H _]. apply Z.eqb_eq in H.
  rewrite H. apply Z.eqb_neq in Hne. rewrite Hne. reflexivity.
Qed.

(** A status reply. *)
Lemma handle_PDO2_status (msg : can_msg_t) (now : Time) (motor : motor_t) :
  is_reply msg "S" "R" = true ->
  let recorded := set_curr_status (read_int32_at4 msg) motor in
  handle_PDO2 abi bus msg now motor
  = match result (evaluate_status abi bus recorded (curr_status motor)) with
    | inl e =>
        mk_outcome recorded
          (trace (evaluate_status abi bus recorded (curr_status motor))) (inl e)
    | inr decoded =>
        mk_outcome (set_status_recv_time now decoded)
          (trace (evaluate_status abi bus recorded (curr_status motor))) (inr tt)
    end.
Proof.
  intros Hsr recorded.
  pose proof (is_reply_exclusive msg "S" "R" "M" "F" ltac:(discriminate) Hsr) as Hmf.
  pose proof (is_reply_exclusive msg "S" "R" "H" "M" ltac:(discriminate) Hsr) as Hhm.
  unfold handle_PDO2. rewrite Hsr, Hmf, Hhm.
  unfold st_when, st_bind, st_get, st_modify, st_put, st_lift, st_call, st_ret.
  cbn [final events returned]. fold recorded.
  destruct (evaluate_status abi bus recorded (curr_status motor)) as [t [e | decoded]];
    cbn [trace result fst snd final events returned]; rewrite ?app_nil_r, map_id;
    reflexivity.
Qed.

(** A failure-word reply. *)
Lemma handle_PDO2_failure (msg : can_msg_t) (now : Time) (motor : motor_t) :
  is_reply msg "M" "F" = true ->
  let recorded := set_curr_motor_failure (read_int32_at4 msg) motor in
  handle_PDO2 abi bus msg now motor
  = mk_outcome recorded
      (trace (evaluate_motor_failure recorded (curr_motor_failure motor))) (inr tt).
Proof.
  intros Hmf recorded.
  pose proof (is_reply_exclusive msg "M" "F" "S" "R" ltac:(discriminate) Hmf) as Hsr.
  pose proof (is_reply_exclusive msg "M" "F" "H" "M" ltac:(discriminate) Hmf) as Hhm.
  unfold handle_PDO2. rewrite Hsr, Hmf, Hhm.
  unfold st_when, st_bind, st_get, st_modify, st_put, st_lift, st_call, st_ret.
  cbn [final events returned]. fold recorded.
  rewrite (evaluate_motor_failure_result recorded (curr_motor_failure motor)).
  cbn. rewrite ?app_nil_r, map_id. reflexivity.
Qed.

(** A homing-status reply. *)
Lemma handle_PDO2_homing (msg : can_msg_t) (now : Time) (motor : motor_t) :
  is_reply msg "H" "M" = true ->
  handle_PDO2 abi bus msg now motor
  = mk_outcome (set_homing_state (if data_at msg 4 =? 0 then 1 else 0) motor) [] (inr tt).
Proof.
  intros Hhm.
  pose proof (is_reply_exclusive msg "H" "M" "S" "R" ltac:(discriminate) Hhm) as Hsr.
  pose proof (is_reply_exclusive msg "H" "M" "M" "F" ltac:(discriminate) Hhm) as Hmf.
  unfold handle_PDO2. rewrite Hsr, Hmf, Hhm. reflexivity.
Qed.

(** Any other command. *)
Lemma handle_PDO2_other (msg : can_msg_t) (now : Time) (motor : motor_t) :
  is_reply msg "S" "R" = false -> is_reply msg "M" "F" = false ->
  is_reply msg "H" "M" = false ->
  handle_PDO2 abi bus msg now motor = mk_outcome motor [] (inr tt).
Proof.
  intros Hsr Hmf Hhm. unfold handle_PDO2. rewrite Hsr, Hmf, Hhm. reflexivity.
Qed.

End ReceiveFacts.

(** *** What a reply does to the motor *)

Lemma check_motor_timeout_result (m_motor_timeout : float) (motor : motor_t) (now : Time) :
  result (check_motor_timeout m_motor_timeout motor now)
  = inr (if status_timed_out m_motor_timeout motor now
         then set_state ST_MOTOR_FAILURE motor else motor).
Proof.
  unfold check_motor_timeout. destruct (status_timed_out m_motor_timeout motor now);
    [| reflexivity].
  destruct (motor_state_eqb (state motor) ST_MOTOR_FAILURE); reflexivity.
Qed.

(** A status reply that is handled without exception at a time not before
    the pending request answers that request: the watchdog, whenever it runs
    afterwards and whatever the timeout, returns the motor untouched and logs
    nothing, until the next request is sent. *)
Theorem handle_PDO2_status_reply_stops_watchdog :
  forall (abi : char_abi) (bus : transport) (msg : can_msg_t) (now : Time) (motor : motor_t),
    is_reply msg "S" "R" = true ->
    time_lt now (request_send_time motor) = false ->
    returned (handle_PDO2 abi bus msg now motor) = inr tt ->
    forall (m_motor_timeout : float) (later : Time),
      check_motor_timeout m_motor_timeout (final (handle_PDO2 abi bus msg now motor)) later
      = ([], inr (final (handle_PDO2 abi bus msg now motor))).
Proof.
  intros abi bus msg now motor Hsr Hnow Hret timeout later.
  rewrite (handle_PDO2_status abi bus msg now motor Hsr) in *. cbn zeta in *.
  destruct (result (evaluate_status abi bus (set_curr_status (read_int32_at4 msg) motor)
                      (curr_status motor))) as [e | decoded] eqn:Hres;
    cbn [final returned] in *; [discriminate Hret |].
  destruct (evaluate_status_table abi bus _ decoded _ Hres) as (Hdec & _).
  unfold check_motor_timeout, status_timed_out.
  rewrite Hdec. cbn [set_status_recv_time set_state set_curr_status status_recv_time
                     request_send_time].
  rewrite Hnow. reflexivity.
Qed.

(** The motor-on status word 16 arrives at second 10.5 for the request of
    second 10. *)
Lemma handle_PDO2_status_reply_stops_watchdog_witness :
  let motor := Fixtures.steer0_waiting in
  let msg := Fixtures.status_reply 16 in
  let now := mk_Time 10 500000000 in
  is_reply msg "S" "R" = true
  /\ time_lt now (request_send_time motor) = false
  /\ returned (handle_PDO2 char_signed Fixtures.bus_ok msg now motor) = inr tt
  /\ check_motor_timeout 1%float
       (final (handle_PDO2 char_signed Fixtures.bus_ok msg now motor)) (mk_Time 99 0)
     = ([], inr (final (handle_PDO2 char_signed Fixtures.bus_ok msg now motor))).
Proof.
  intros motor msg now.
  assert (H1 : is_reply msg "S" "R" = true) by reflexivity.
  assert (H2 : time_lt now (request_send_time motor) = false) by reflexivity.
  assert (H3 : returned (handle_PDO2 char_signed Fixtures.bus_ok msg now motor) = inr tt)
    by reflexivity.
  repeat (split; [assumption |]).
  exact (handle_PDO2_status_reply_stops_watchdog char_signed Fixtures.bus_ok msg now motor
           H1 H2 H3 1%float (mk_Time 99 0)).
Defined.

(** If handling a status reply throws, the new status word is recorded and
    shows a fault (bit 0 or bit 6), but the motor keeps the state it had and
    the reply is not counted as received: a motor in OPERATION_ENABLED whose
    failure-detail query cannot be sent stays in OPERATION_ENABLED. *)
Theorem handle_PDO2_status_reply_refused :
  forall (abi : char_abi) (bus : transport) (msg : can_msg_t) (now : Time) (motor : motor_t)
         (e : exn),
    is_reply msg "S" "R" = true ->
    returned (handle_PDO2 abi bus msg now motor) = inl e ->
    let after := final (handle_PDO2 abi bus msg now motor) in
    after = set_curr_status (read_int32_at4 msg) motor
    /\ state after = state motor
    /\ status_recv_time after = status_recv_time motor
    /\ (Z.land (curr_status after) 1 <> 0 \/ Z.land (curr_status after) (Z.shiftl 1 6) <> 0).
Proof.
  intros abi bus msg now motor e Hsr Hret after. subst after.
  rewrite (handle_PDO2_status abi bus msg now motor Hsr) in *. cbn zeta in *.
  destruct (evaluate_status_shape abi bus (set_curr_status (read_int32_at4 msg) motor)
              (curr_status motor)) as (_ & Hon & Hoff).
  destruct (result (evaluate_status abi bus (set_curr_status (read_int32_at4 msg) motor)
                      (curr_status motor))) as [e' | decoded] eqn:Hres;
    cbn [final returned] in *; [| discriminate Hret].
  split; [reflexivity |]. split; [reflexivity |]. split; [reflexivity |].
  set (s := curr_status (set_curr_status (read_int32_at4 msg) motor)) in *.
  destruct (Z.eq_dec (Z.land s 1) 0) as [E0 | E0]; [| auto].
  destruct (Z.eq_dec (Z.land s (Z.shiftl 1 6)) 0) as [E6 | E6]; [| auto].
  destruct (Z.eq_dec (Z.land s (Z.shiftl 1 4)) 0) as [E4 | E4].
  - rewrite (Hoff E0 E6 E4) in Hres. discriminate Hres.
  - rewrite (Hon E0 E6 E4) in Hres. discriminate Hres.
Qed.

(** The short-circuit status word 11 arrives while the socket refuses
    frames. *)
Lemma handle_PDO2_status_reply_refused_witness :
  let motor := Fixtures.steer0_waiting in
  let msg := Fixtures.status_reply 11 in
  let now := mk_Time 10 500000000 in
  is_reply msg "S" "R" = true
  /\ returned (handle_PDO2 char_signed Fixtures.bus_refusing msg now motor)
     = inl (runtime_error "write() failed with: No buffer space available")
  /\ state (final (handle_PDO2 char_signed Fixtures.bus_refusing msg now motor))
     = ST_OPERATION_ENABLED
  /\ curr_status (final (handle_PDO2 char_signed Fixtures.bus_refusing msg now motor)) = 11.
Proof.
  intros motor msg now.
  assert (H1 : is_reply msg "S" "R" = true) by reflexivity.
  assert (H2 : returned (handle_PDO2 char_signed Fixtures.bus_refusing msg now motor)
               = inl (runtime_error "write() failed with: No buffer space available"))
    by reflexivity.
  split; [exact H1 |]. split; [exact H2 |].
  destruct (handle_PDO2_status_reply_refused char_signed Fixtures.bus_refusing msg now motor
              _ H1 H2) as (Hafter & Hstate & _).
  split; [rewrite Hstate; reflexivity |]. rewrite Hafter. reflexivity.
Defined.

(** A message on the command channel that is not a status reply is handled
    without exception and without handing a frame to the socket; it leaves
    the motor's state, status word and time stamps alone.  An "HM"
    reply sets the homing state to 1 (triggered) if payload byte 4 is zero and
    to 0 otherwise, never to the unknown value -1; any other message leaves
    the homing state as it is. *)
Theorem handle_PDO2_other_replies :
  forall (abi : char_abi) (bus : transport) (msg : can_msg_t) (now : Time) (motor : motor_t),
    is_reply msg "S" "R" = false ->
    let r := handle_PDO2 abi bus msg now motor in
    returned r = inr tt
    /\ (forall out res, sys_write out res ∉ events r)
    /\ state (final r) = state motor
    /\ curr_status (final r) = curr_status motor
    /\ request_send_time (final r) = request_send_time motor
    /\ status_recv_time (final r) = status_recv_time motor
    /\ homing_state (final r)
       = (if is_reply msg "H" "M" then (if data_at msg 4 =? 0 then 1 else 0)
          else homing_state motor).
Proof.
  intros abi bus msg now motor Hsr r. subst r.
  destruct (is_reply msg "M" "F") eqn:Hmf; [| destruct (is_reply msg "H" "M") eqn:Hhm].
  - rewrite (is_reply_exclusive msg "M" "F" "H" "M" ltac:(discriminate) Hmf).
    rewrite (handle_PDO2_failure abi bus msg now motor Hmf). cbn [final events returned].
    repeat split; try reflexivity.
    intros out res Hin.
    destruct (evaluate_motor_failure_trace (set_curr_motor_failure (read_int32_at4 msg) motor)
                (curr_motor_failure motor) _ Hin) as [text Hev].
    discriminate Hev.
  - rewrite (handle_PDO2_homing abi bus msg now motor Hhm). cbn [final events returned].
    repeat split; try reflexivity. intros out res. apply not_elem_of_nil.
  - rewrite (handle_PDO2_other abi bus msg now motor Hsr Hmf Hhm). cbn [final events returned].
    repeat split; try reflexivity. intros out res. apply not_elem_of_nil.
Qed.

(** The homing switch of the steer motor of wheel 0 reports "triggered". *)
Lemma handle_PDO2_other_replies_witness :
  let msg := Fixtures.homing_reply 0 in
  is_reply msg "S" "R" = false
  /\ homing_state (final (handle_PDO2 char_signed Fixtures.bus_ok msg Time_zero Fixtures.steer0))
     = 1.
Proof.
  intros msg.
  assert (H : is_reply msg "S" "R" = false) by reflexivity.
  split; [exact H |].
  destruct (handle_PDO2_other_replies char_signed Fixtures.bus_ok msg Time_zero Fixtures.steer0 H)
    as (_ & _ & _ & _ & _ & _ & Hh).
  rewrite Hh. reflexivity.
Defined.

(** *** Homing replies and the homing test *)

(** When the steer motor of every wheel is as its last "HM" reply left it,
    [check_homing_done] holds exactly if payload byte 4 of every one of these
    replies was zero. *)
Theorem check_homing_done_after_replies :
  forall (abi : char_abi) (bus : transport) (m_wheels : list module_t)
         (replies : list (can_msg_t * Time * motor_t)),
    Forall2 (fun wheel reply =>
               is_reply reply.1.1 "H" "M" = true
               /\ steer wheel = final (handle_PDO2 abi bus reply.1.1 reply.1.2 reply.2))
            m_wheels replies ->
    (check_homing_done m_wheels = true
     <-> Forall (fun reply => data_at reply.1.1 4 = 0) replies).
Proof.
  intros abi bus m_wheels replies H. rewrite check_homing_done_Forall.
  induction H as [| wheel [[msg now] before] m_wheels replies [Hhm Hsteer] _ IH].
  - split; constructor.
  - cbn [fst snd] in *. rewrite !Forall_cons, IH, Hsteer.
    rewrite (handle_PDO2_homing abi bus msg now before Hhm). cbn [final homing_state set_homing_state fst snd].
    destruct (data_at msg 4 =? 0) eqn:E.
    + apply Z.eqb_eq in E. tauto.
    + apply Z.eqb_neq in E. split; [intros [Hc _]; discriminate Hc | tauto].
Qed.

(** Two wheels; the second switch has not triggered yet. *)
Lemma check_homing_done_after_replies_witness :
  let after (armed : Z) :=
    set_motors motor_default
      (final (handle_PDO2 char_signed Fixtures.bus_ok (Fixtures.homing_reply armed) Time_zero
                Fixtures.steer0))
      (Fixtures.wheel_with_homing (-1)) in
  check_homing_done [after 0; after 1] = false
  /\ check_homing_done [after 0; after 0] = true.
Proof.
  intros after.
  assert (H : forall a b,
             Forall2 (fun wheel reply =>
                        is_reply reply.1.1 "H" "M" = true
                        /\ steer wheel
                           = final (handle_PDO2 char_signed Fixtures.bus_ok reply.1.1 reply.1.2
                                      reply.2))
               [after a; after b]
               [(Fixtures.homing_reply a, Time_zero, Fixtures.steer0);
                (Fixtures.homing_reply b, Time_zero, Fixtures.steer0)]).
  { intros a b. repeat constructor. }
  split.
  - destruct (check_homing_done [after 0; after 1]) eqn:E; [| reflexivity].
    apply (check_homing_done_after_replies char_signed Fixtures.bus_ok _ _ (H 0 1)) in E.
    inversion E as [| ? ? _ E']. inversion E' as [| ? ? Hbad _]. discriminate Hbad.
  - apply (check_homing_done_after_replies char_signed Fixtures.bus_ok _ _ (H 0 0)).
    repeat constructor.
Defined.

(** ** The watchdog pass of [update] *)

Lemma check_motor_timeouts_result (m_motor_timeout : float) (now : Time)
    (m_wheels : list module_t) :
  result (check_motor_timeouts m_motor_timeout m_wheels now)
  = inr (map (fun wheel =>
                set_motors
                  (if status_timed_out m_motor_timeout (drive wheel) now
                   then set_state ST_MOTOR_FAILURE (drive wheel) else drive wheel)
                  (if status_timed_out m_motor_timeout (steer wheel) now
                   then set_state ST_MOTOR_FAILURE (steer wheel) else steer wheel)
                  wheel) m_wheels).
Proof.
  induction m_wheels as [| wheel rest IH]; cbn [check_motor_timeouts map]; [reflexivity |].
  rewrite result_bind, check_motor_timeout_result.
  rewrite result_bind, check_motor_timeout_result.
  rewrite result_bind, IH. reflexivity.
Qed.

(** The watchdog pass never throws and returns as many wheels as it was
    given; after it the platform is operational exactly if it was operational
    before and no drive or steer motor has timed out.  One timed-out motor is
    enough to take the platform out of operation, and the pass never puts it
    back into operation. *)
Theorem check_motor_timeouts_operational :
  forall (m_motor_timeout : float) (now : Time) (m_wheels : list module_t)
         (is_em_stop : bool),
    exists m_wheels',
      result (check_motor_timeouts m_motor_timeout m_wheels now) = inr m_wheels'
      /\ length m_wheels' = length m_wheels
      /\ (all_motors_operational m_wheels' is_em_stop = true
          <-> all_motors_operational m_wheels is_em_stop = true
              /\ forall wheel, wheel ∈ m_wheels ->
                   status_timed_out m_motor_timeout (drive wheel) now = false
                   /\ status_timed_out m_motor_timeout (steer wheel) now = false).
Proof.
  intros timeout now m_wheels em. eexists.
  split; [apply check_motor_timeouts_result |]. split; [apply length_map |].
  induction m_wheels as [| wheel rest IH]; cbn [map all_motors_operational].
  - split; [intros H; split; [exact H |] | tauto].
    intros wheel Hin. apply elem_of_nil in Hin. contradiction.
  - cbn [drive steer set_motors].
    assert (Hrest : (forall w, w ∈ wheel :: rest ->
                       status_timed_out timeout (drive w) now = false
                       /\ status_timed_out timeout (steer w) now = false)
                    <-> (status_timed_out timeout (drive wheel) now = false
                         /\ status_timed_out timeout (steer wheel) now = false)
                        /\ forall w, w ∈ rest ->
                             status_timed_out timeout (drive w) now = false
                             /\ status_timed_out timeout (steer w) now = false).
    { split.
      - intros H. split; [apply H, elem_of_cons; auto |].
        intros w Hw. apply H, elem_of_cons. auto.
      - intros [Hw Hr] w Hin. apply elem_of_cons in Hin as [-> | Hin]; auto. }
    rewrite Hrest. clear Hrest.
    destruct (status_timed_out timeout (drive wheel) now) eqn:Td;
      destruct (status_timed_out timeout (steer wheel) now) eqn:Ts;
      cbn [state set_state motor_state_eqb negb orb];
      destruct (motor_state_eqb (state (drive wheel)) ST_OPERATION_ENABLED);
      destruct (motor_state_eqb (state (steer wheel)) ST_OPERATION_ENABLED);
      cbn [negb orb]; rewrite ?IH; intuition discriminate.
Qed.

(** ** The solver from rest *)

Lemma leb_zero_not_negative (t : float) :
  (0 <=? t)%float = true -> (t <? 0)%float = false.
Proof.
  rewrite leb_spec, ltb_spec. change (Prim2SF 0) with (S754_zero false).
  destruct (Prim2SF t) as [s | s | | s m e]; cbn; try discriminate; try reflexivity;
    destruct s; cbn; congruence.
Qed.

Lemma double_not_negative (t : float) :
  (0 <=? t)%float = true -> (2 * t <? 0)%float = false.
Proof.
  intros Ht. destruct (2 * t <? 0)%float eqn:E; [| reflexivity].
  apply product_negative_opposite_signs in E as [[H _] | [_ H]].
  - discriminate H.
  - rewrite (leb_zero_not_negative t Ht) in H. discriminate H.
Qed.

Section KinRest.

Import Kin.

Context {Members : Type} {libm : LibM} {angles : Angles}
        {methods : OmniWheelMethods Members}.

(** With a non-negative [zero_vel_threshold], the first non-zero command
    after a zero command finds every wheel standing: whatever the wheels did
    before the stop, each of them is classified as not driving and leaves the
    call flagged so, and its direction is chosen by the outer-angle test. *)
Theorem compute_restart_after_stop :
  forall (K : OmniKinematics) (wheels : list (OmniWheel Members))
         (vx0 vy0 yaw0 vx vy yaw : float),
    state_ok K ->
    Z.of_nat (length wheels) = num_wheels K ->
    (0 <=? zero_vel_threshold K)%float = true ->
    no_move_command vx0 vy0 yaw0 = true ->
    no_move_command vx vy yaw = false ->
    exists stopped K' result,
      compute K wheels vx0 vy0 yaw0 = (K, inr stopped)
      /\ compute K stopped vx vy yaw = (K', inr result)
      /\ length result = length wheels
      /\ forall i, (i < length wheels)%nat ->
           is_driving K' !! i = Some false
           /\ exists wheel,
                stopped !! i = Some wheel
                /\ is_alternate K' !! i
                   = Some (beyond_outer_angle K i wheel (candidate_angle wheel vx vy yaw)).
Proof.
  intros K wheels vx0 vy0 yaw0 vx vy yaw Hok Hlen Hthr Hstop Hmove.
  exists (map (stop_wheel K) wheels).
  assert (Hlen' : Z.of_nat (length (map (stop_wheel K) wheels)) = num_wheels K)
    by (rewrite length_map; exact Hlen).
  destruct (compute_returns K (map (stop_wheel K) wheels) vx vy yaw Hlen')
    as (K' & result & Hc & Hl & _).
  exists K', result.
  split; [apply compute_no_move; assumption |]. split; [exact Hc |].
  split; [rewrite Hl; apply length_map |].
  intros i Hi.
  destruct (lookup_lt_is_Some_2 wheels i Hi) as [w Hw].
  assert (Hs : map (stop_wheel K) wheels !! i = Some (stop_wheel K w))
    by (rewrite lookup_map, Hw; reflexivity).
  destruct (compute_wheel_outcome K _ vx vy yaw i _ Hok Hlen' Hmove Hs)
    as (K'' & result'' & Hc' & _ & _ & Hd & Ha).
  rewrite Hc in Hc'. injection Hc' as <- <-.
  assert (Hstand : classified_driving K i (stop_wheel K w) = false).
  { unfold classified_driving, driving_threshold, stop_wheel.
    cbn [wheel_vel with_wheel_vel]. change (abs 0) with 0%float.
    destruct (flag_at (is_driving K) i);
      [apply leb_zero_not_negative | apply double_not_negative]; exact Hthr. }
  split; [rewrite Hd, Hstand; reflexivity |].
  exists (stop_wheel K w). split; [exact Hs |].
  rewrite Ha. unfold takes_alternate. rewrite Hstand. reflexivity.
Qed.

End KinRest.

(** *** The further solver properties on a single front wheel *)

(** A fresh solver for one wheel, one call with a rolling wheel. *)
Lemma compute_keeps_state_ok_witness :
  exists K,
    Kin.OmniKinematics_new 1 = inr K
    /\ Kin.state_ok K
    /\ exists K' result,
         Kin.compute (libm := Fixtures.axis_libm) (angles := Fixtures.principal_angles)
           (methods := Fixtures.plain_wheel_methods) K [Fixtures.front_wheel 0 1] 1 0 0
         = (K', inr result)
         /\ Kin.state_ok K'
         /\ Kin.tuning K' = Kin.tuning K
         /\ length result = 1%nat.
Proof.
  destruct (Kin.OmniKinematics_new 1) as [e | K] eqn:HK; [discriminate HK |].
  exists K. split; [reflexivity |].
  destruct (OmniKinematics_new_ok 1 K HK) as [Hok Hn].
  split; [exact Hok |].
  exact (compute_keeps_state_ok (libm := Fixtures.axis_libm)
           (angles := Fixtures.principal_angles) (methods := Fixtures.plain_wheel_methods)
           K [Fixtures.front_wheel 0 1] 1 0 0 Hok (eq_sym Hn)).
Defined.

(** A standing front wheel under the command (1, 0, 0): its candidate angle
    0 is pi/2 away from the outer angle -pi/2, inside the band pi/2 + 0.1 of a
    wheel in normal mode and outside the band pi/2 - 0.1 of a wheel in
    alternate mode. *)
Lemma compute_standing_wheel_hysteresis_witness :
  let wheel := Fixtures.front_wheel 0 0 in
  let after (alternate : bool) :=
    fst (Kin.compute (libm := Fixtures.axis_libm) (angles := Fixtures.principal_angles)
           (methods := Fixtures.plain_wheel_methods)
           (Fixtures.solver1 false alternate) [wheel] 1 0 0) in
  Kin.classified_driving (Fixtures.solver1 false false) 0 wheel = false
  /\ Kin.is_alternate (after false) !! 0%nat = Some false
  /\ Kin.is_alternate (after true) !! 0%nat = Some true.
Proof.
  intros wheel after.
  assert (Hstand : forall b, Kin.classified_driving (Fixtures.solver1 false b) 0 wheel = false)
    by (intros []; reflexivity).
  pose proof (fun b =>
    compute_standing_wheel_hysteresis (libm := Fixtures.axis_libm)
      (angles := Fixtures.principal_angles) (methods := Fixtures.plain_wheel_methods)
      (Fixtures.solver1 false b) [wheel] 1 0 0 0%nat wheel
      (fun a w => eq_refl) (solver1_ok false b) eq_refl eq_refl eq_refl (Hstand b)) as H.
  split; [exact (Hstand false) |]. split.
  - destruct (H false) as (K' & result & r & flipped & Hc & _ & _ & Ha & Hf & _).
    subst after. cbn beta. rewrite Hc. cbn [fst]. rewrite Ha, (Hf eq_refl). reflexivity.
  - destruct (H true) as (K' & result & r & flipped & Hc & _ & _ & Ha & _ & Ht & _).
    subst after. cbn beta. rewrite Hc. cbn [fst]. rewrite Ha, (Ht eq_refl). reflexivity.
Defined.

(** The front wheel alone and the same wheel followed by a second one. *)
Lemma compute_wheels_independent_witness :
  let wheel := Fixtures.front_wheel 0 (-1) in
  let K2 :=
    Kin.mk_OmniKinematics 0x1.47ae147ae147bp-7%float 0x1.999999999999ap-4%float true 2
      [true; false] [false; true] in
  exists K1' K2' result1 result2,
    Kin.compute (libm := Fixtures.axis_libm) (angles := Fixtures.principal_angles)
      (methods := Fixtures.plain_wheel_methods) (Fixtures.solver1 true false) [wheel] 1 0 0
    = (K1', inr result1)
    /\ Kin.compute (libm := Fixtures.axis_libm) (angles := Fixtures.principal_angles)
         (methods := Fixtures.plain_wheel_methods) K2 [wheel; Fixtures.front_wheel 1 0] 1 0 0
       = (K2', inr result2)
    /\ result1 !! 0%nat = result2 !! 0%nat
    /\ Kin.is_driving K1' !! 0%nat = Kin.is_driving K2' !! 0%nat
    /\ Kin.is_alternate K1' !! 0%nat = Kin.is_alternate K2' !! 0%nat.
Proof.
  intros wheel K2.
  assert (Hok2 : Kin.state_ok K2) by (unfold Kin.state_ok; cbn; repeat split; lia).
  exact (compute_wheels_independent (libm := Fixtures.axis_libm)
           (angles := Fixtures.principal_angles) (methods := Fixtures.plain_wheel_methods)
           (Fixtures.solver1 true false) K2 [wheel] [wheel; Fixtures.front_wheel 1 0] 1 0 0
           0%nat wheel (solver1_ok true false) Hok2 eq_refl eq_refl eq_refl eq_refl eq_refl
           eq_refl eq_refl eq_refl eq_refl).
Defined.

(** A wheel rolling at 1 m/s is stopped and then commanded again. *)
Lemma compute_restart_after_stop_witness :
  let K := Fixtures.solver1 true false in
  let wheels := [Fixtures.front_wheel 0 1] in
  Kin.state_ok K
  /\ (0 <=? Kin.zero_vel_threshold K)%float = true
  /\ exists stopped K' result,
       Kin.compute (libm := Fixtures.axis_libm) (angles := Fixtures.principal_angles)
         (methods := Fixtures.plain_wheel_methods) K wheels 0 0 0 = (K, inr stopped)
       /\ Kin.compute (libm := Fixtures.axis_libm) (angles := Fixtures.principal_angles)
            (methods := Fixtures.plain_wheel_methods) K stopped 1 0 0 = (K', inr result)
       /\ Kin.is_driving K' !! 0%nat = Some false.
Proof.
  intros K wheels.
  assert (Hthr : (0 <=? Kin.zero_vel_threshold K)%float = true) by reflexivity.
  split; [exact (solver1_ok true false) |]. split; [exact Hthr |].
  destruct (compute_restart_after_stop (libm := Fixtures.axis_libm)
              (angles := Fixtures.principal_angles) (methods := Fixtures.plain_wheel_methods)
              K wheels 0 0 0 1 0 0 (solver1_ok true false) eq_refl Hthr eq_refl eq_refl)
    as (stopped & K' & result & Hc0 & Hc & _ & Hall).
  exists stopped, K', result. split; [exact Hc0 |]. split; [exact Hc |].
  exact (proj1 (Hall 0%nat ltac:(cbn; lia))).
Defined.

(** ** The sequencer *)

Import Orchestrator Judgements.

Section Rules.

Context {E S : Type}.

Lemma keeps_ret {A T} (f : S -> T) (a : A) : keeps f (st_ret (E := E) a).
Proof. intros s. reflexivity. Qed.

Lemma keeps_throw {A T} (f : S -> T) (e : exn) : keeps f (st_throw (E := E) (A := A) e).
Proof. intros s. reflexivity. Qed.

Lemma keeps_emit {T} (f : S -> T) (ev : E) : keeps f (st_emit ev).
Proof. intros s. reflexivity. Qed.

Lemma keeps_get {T} (f : S -> T) : keeps f (st_get (E := E)).
Proof. intros s. reflexivity. Qed.

Lemma keeps_call {A T} (f : S -> T) (inj : event -> E) (m : IO A) : keeps f (st_call inj m).
Proof. intros s. reflexivity. Qed.

Lemma keeps_modify {T} (f : S -> T) (g : S -> S) :
  (forall s, f (g s) = f s) -> keeps f (st_modify (E := E) g).
Proof. intros H s. apply H. Qed.

Lemma keeps_bind {A B T} (f : S -> T) (m : ST E S A) (k : A -> ST E S B) :
  keeps f m -> (forall a, keeps f (k a)) -> keeps f (st_bind m k).
Proof.
  intros Hm Hk s. unfold st_bind. destruct (returned (m s)) as [e | a]; cbn [final].
  - apply Hm.
  - rewrite Hk. apply Hm.
Qed.

Lemma keeps_when {T} (f : S -> T) (c : bool) (m : ST E S unit) :
  keeps f m -> keeps f (st_when c m).
Proof. intros Hm. destruct c; [exact Hm | apply keeps_ret]. Qed.

Lemma keeps_for {X T} (f : S -> T) (l : list X) (body : X -> ST E S unit) :
  (forall x, keeps f (body x)) -> keeps f (st_for l body).
Proof.
  intros Hb. induction l as [| x rest IH]; cbn [st_for].
  - apply keeps_ret.
  - apply keeps_bind; [apply Hb | intros _; exact IH].
Qed.

Lemma succeeds_ret {A} (a : A) : succeeds (st_ret (E := E) (S := S) a).
Proof. intros s. exists a. reflexivity. Qed.

Lemma succeeds_emit (ev : E) : succeeds (st_emit (S := S) ev).
Proof. intros s. exists tt. reflexivity. Qed.

Lemma succeeds_get : succeeds (st_get (E := E) (S := S)).
Proof. intros s. exists s. reflexivity. Qed.

Lemma succeeds_modify (g : S -> S) : succeeds (st_modify (E := E) g).
Proof. intros s. exists tt. reflexivity. Qed.

Lemma succeeds_call {A} (inj : event -> E) (m : IO A) (a : A) :
  result m = inr a -> succeeds (st_call (S := S) inj m).
Proof. intros H s. exists a. exact H. Qed.

Lemma succeeds_bind {A B} (m : ST E S A) (k : A -> ST E S B) :
  succeeds m -> (forall a, succeeds (k a)) -> succeeds (st_bind m k).
Proof.
  intros Hm Hk s. unfold st_bind. destruct (Hm s) as [a Ha]. rewrite Ha.
  cbn [returned]. apply Hk.
Qed.

Lemma succeeds_when (c : bool) (m : ST E S unit) : succeeds m -> succeeds (st_when c m).
Proof. intros Hm. destruct c; [exact Hm | apply succeeds_ret]. Qed.

Lemma succeeds_for {X} (l : list X) (body : X -> ST E S unit) :
  (forall x, succeeds (body x)) -> succeeds (st_for l body).
Proof.
  intros Hb. induction l as [| x rest IH]; cbn [st_for].
  - apply succeeds_ret.
  - apply succeeds_bind; [apply Hb | intros _; exact IH].
Qed.

Lemma hoare_bind {A B} (P : S -> Prop) (Q' : A -> S -> Prop) (Q : B -> S -> Prop)
    (X : S -> Prop) (m : ST E S A) (k : A -> ST E S B) :
  hoare P m Q' X -> (forall a, hoare (Q' a) (k a) Q X) -> hoare P (st_bind m k) Q X.
Proof.
  intros Hm Hk s HP. specialize (Hm s HP). unfold st_bind.
  destruct (returned (m s)) as [e | a]; cbn [returned final]; [exact Hm |].
  apply (Hk a), Hm.
Qed.

Lemma hoare_weaken {A} (P P' : S -> Prop) (Q Q' : A -> S -> Prop) (X X' : S -> Prop)
    (m : ST E S A) :
  hoare P' m Q' X' ->
  (forall s, P s -> P' s) -> (forall a s, Q' a s -> Q a s) -> (forall s, X' s -> X s) ->
  hoare P m Q X.
Proof.
  intros Hm HP HQ HX s Hs. specialize (Hm s (HP s Hs)).
  destruct (returned (m s)); auto.
Qed.

Lemma hoare_keeps {A T} (f : S -> T) (v : T) (m : ST E S A) :
  keeps f m ->
  hoare (fun s => f s = v) m (fun _ s => f s = v) (fun s => f s = v).
Proof.
  intros Hm s Hs. specialize (Hm s). destruct (returned (m s)); congruence.
Qed.

Lemma hoare_ret {A} (P : S -> Prop) (X : S -> Prop) (a : A) :
  hoare P (st_ret (E := E) a) (fun _ => P) X.
Proof. intros s Hs. exact Hs. Qed.

(** A counting loop with an invariant that knows how far it has come. *)
Lemma hoare_for_seq (I : nat -> S -> Prop) (X : S -> Prop) (body : nat -> ST E S unit)
    (a n : nat) :
  (forall i, (a <= i < a + n)%nat -> hoare (I i) (body i) (fun _ => I (Datatypes.S i)) X) ->
  hoare (I a) (st_for (seq a n) body) (fun _ => I (a + n)%nat) X.
Proof.
  revert a. induction n as [| n IH]; intros a Hb; cbn [seq st_for].
  - rewrite Nat.add_0_r. apply hoare_ret.
  - eapply hoare_bind; [apply Hb; lia |].
    intros u. replace (a + Datatypes.S n)%nat with (Datatypes.S a + n)%nat by lia.
    apply IH. intros i Hi. apply Hb. lia.
Qed.

Lemma hoare_seq_keeps {A B T} (f : S -> T) (v : T) (m : ST E S A) (k : A -> ST E S B)
    (Q : B -> S -> Prop) (X : S -> Prop) :
  keeps f m -> (forall s, f s = v -> X s) ->
  (forall a, hoare (fun s => f s = v) (k a) Q X) ->
  hoare (fun s => f s = v) (st_bind m k) Q X.
Proof.
  intros Hm HX Hk. apply (hoare_bind _ (fun _ s => f s = v)); [| exact Hk].
  apply (hoare_weaken _ _ _ _ _ _ _ (hoare_keeps f v m Hm)); auto.
Qed.

Lemma hoare_bind_exact {A B} (m : ST E S A) (k : A -> ST E S B) (s0 s1 : S) (evs : list E)
    (a : A) (Q : B -> S -> Prop) (X : S -> Prop) :
  m s0 = mk_outcome s1 evs (inr a) ->
  hoare (fun s => s = s1) (k a) Q X ->
  hoare (fun s => s = s0) (st_bind m k) Q X.
Proof.
  intros Hm Hk s ->. unfold st_bind. rewrite Hm. cbn [returned final].
  specialize (Hk s1 eq_refl). destruct (returned (k a s1)); exact Hk.
Qed.

Lemma hoare_keeps_from {A T} (f : S -> T) (m : ST E S A) (s0 : S) :
  keeps f m ->
  hoare (fun s => s = s0) m (fun _ s => f s = f s0) (fun s => f s = f s0).
Proof.
  intros Hm s ->. specialize (Hm s0). destruct (returned (m s0)); exact Hm.
Qed.

Lemma hoare_step_keeps {A B T} (f : S -> T) (v : T) (m : ST E S A) (k : A -> ST E S B)
    (s0 : S) (Q : B -> S -> Prop) (X : S -> Prop) :
  f s0 = v -> keeps f m -> (forall s, f s = v -> X s) ->
  (forall a s1, f s1 = v -> hoare (fun s => s = s1) (k a) Q X) ->
  hoare (fun s => s = s0) (st_bind m k) Q X.
Proof.
  intros Hv Hm HX Hk s ->. unfold st_bind. specialize (Hm s0).
  destruct (returned (m s0)) as [e | a]; cbn [returned final].
  - apply HX. congruence.
  - assert (H1 : f (final (m s0)) = v) by congruence.
    specialize (Hk a (final (m s0)) H1 (final (m s0)) eq_refl).
    destruct (returned (k a (final (m s0)))); exact Hk.
Qed.

Lemma hoare_last_keeps {A T} (f : S -> T) (v : T) (m : ST E S A) (s0 : S)
    (Q : A -> S -> Prop) (X : S -> Prop) :
  f s0 = v -> keeps f m -> (forall s, f s = v -> X s) -> (forall a s, f s = v -> Q a s) ->
  hoare (fun s => s = s0) m Q X.
Proof.
  intros Hv Hm HX HQ s ->. specialize (Hm s0).
  destruct (returned (m s0)); [apply HX | apply HQ]; congruence.
Qed.

Lemma st_bind_silent {A B} (m : ST E S A) (k : A -> ST E S B) (s0 s1 : S) (a : A) :
  m s0 = mk_outcome s1 [] (inr a) -> st_bind m k s0 = k a s1.
Proof.
  intros H. unfold st_bind. rewrite H. cbn [returned final events app].
  destruct (k a s1). reflexivity.
Qed.

Lemma st_bind_throws {A B} (m : ST E S A) (k : A -> ST E S B) (s0 s1 : S) (evs : list E)
    (e : exn) :
  m s0 = mk_outcome s1 evs (inl e) -> st_bind m k s0 = mk_outcome s1 evs (inl e).
Proof. intros H. unfold st_bind. rewrite H. reflexivity. Qed.

Lemma hoare_exists {A} (P : S -> Prop) (m : ST E S A) (Q : A -> S -> Prop) (X : S -> Prop) :
  (forall s0, P s0 -> hoare (fun s => s = s0) m Q X) -> hoare P m Q X.
Proof. intros H s HP. exact (H s HP s eq_refl). Qed.

Lemma hoare_conj {A} (P P' : S -> Prop) (m : ST E S A) (Q Q' : A -> S -> Prop)
    (X X' : S -> Prop) :
  hoare P m Q X -> hoare P' m Q' X' ->
  hoare (fun s => P s /\ P' s) m (fun a s => Q a s /\ Q' a s) (fun s => X s /\ X' s).
Proof.
  intros H H' s [HP HP']. specialize (H s HP). specialize (H' s HP').
  destruct (returned (m s)); auto.
Qed.

End Rules.

Lemma map_alter_same {A B : Type} (p : A -> B) (h : A -> A) (i : nat) (l : list A) :
  (forall a, p (h a) = p a) -> map p (alter h i l) = map p l.
Proof.
  intros H. revert i. induction l as [| a l IH]; intros [| i]; cbn; try reflexivity.
  - rewrite H. reflexivity.
  - f_equal. apply IH.
Qed.

Lemma all_motors_operational_states (ws ws' : list module_t) (stop : bool) :
  map wheel_states ws' = map wheel_states ws ->
  all_motors_operational ws' stop = all_motors_operational ws stop.
Proof.
  revert ws'. induction ws as [| w ws IH]; intros [| w' ws'] H; try discriminate H.
  - reflexivity.
  - cbn in H. injection H as Hd Hs Hrest. cbn [all_motors_operational].
    rewrite Hd, Hs, (IH ws' Hrest). reflexivity.
Qed.

Lemma all_motors_operational_stopped (ws : list module_t) :
  all_motors_operational ws true = false.
Proof.
  induction ws as [| w ws IH]; cbn [all_motors_operational]; [reflexivity |].
  rewrite IH. destruct (_ || _); reflexivity.
Qed.

Section Sequencer.

Variable env : node_env.

Section Frame.

Context {T : Type}.
Variable f : node_t -> T.

Lemma keeps_time_now :
  (forall v n, f (set_clock_reads v n) = f n) -> keeps f (time_now env).
Proof. intros H n. apply H. Qed.

Lemma keeps_can_sync : keeps f (can_sync env).
Proof.
  unfold can_sync. apply keeps_bind; [apply keeps_emit | intros _].
  destruct (negb _); [apply keeps_throw | apply keeps_ret].
Qed.

Lemma keeps_get_wheel (i : nat) : keeps f (get_wheel i).
Proof. intros n. reflexivity. Qed.

Lemma keeps_get_motor (i : nat) (ax : axis) : keeps f (get_motor i ax).
Proof. intros n. reflexivity. Qed.

Lemma keeps_operational : keeps f operational.
Proof. intros n. reflexivity. Qed.

Lemma keeps_for_wheels (body : nat -> Op unit) :
  (forall i, keeps f (body i)) -> keeps f (for_wheels body).
Proof. intros H n. unfold for_wheels. apply keeps_for, H. Qed.

Lemma check_timeout_final (i : nat) (ax : axis) (now : Time) (n : node_t) :
  final (check_timeout env i ax now n)
  = set_m_wheels
      (alter (fun wheel =>
                with_motor ax
                  (if status_timed_out (env_motor_timeout env) (motor_of ax wheel) now
                   then set_state ST_MOTOR_FAILURE (motor_of ax wheel)
                   else motor_of ax wheel) wheel) i (m_wheels n)) n.
Proof.
  unfold check_timeout, get_motor, get_wheel, modify_motor, call, st_bind, st_call, st_ret,
    st_modify.
  cbn [returned final events]. rewrite check_motor_timeout_result. cbn [final].
  f_equal. apply list_alter_ext; [| reflexivity].
  intros w Hw. rewrite Hw. reflexivity.
Qed.

Lemma keeps_steer_reset_loop (l : list nat) (b : bool) : keeps f (steer_reset_loop env l b).
Proof.
  revert b. induction l as [| i l IH]; intros b; cbn [steer_reset_loop].
  - apply keeps_ret.
  - apply keeps_bind; [apply keeps_get_wheel | intros w].
    destruct (_ <? _)%float; [| apply IH].
    apply keeps_bind; [apply keeps_call | intros _; apply IH].
Qed.

Lemma keeps_check_timeout (i : nat) (ax : axis) (now : Time) :
  (forall n,
     f (set_m_wheels
          (alter (fun wheel =>
                    with_motor ax
                      (if status_timed_out (env_motor_timeout env) (motor_of ax wheel) now
                       then set_state ST_MOTOR_FAILURE (motor_of ax wheel)
                       else motor_of ax wheel) wheel) i (m_wheels n)) n) = f n) ->
  keeps f (check_timeout env i ax now).
Proof. intros H n. rewrite check_timeout_final. apply H. Qed.

End Frame.

End Sequencer.

Ltac keeps_side :=
  intros; cbn;
  rewrite ?map_alter_same
    by (intros ?; cbn;
        repeat match goal with |- context [if ?c then _ else _] => destruct c end;
        reflexivity);
  reflexivity.

Ltac keeps_step :=
  lazymatch goal with
  | |- keeps _ (st_bind _ _) => apply keeps_bind; [| intros ?]
  | |- keeps _ (if ?c then _ else _) => destruct c
  | |- keeps _ (st_when _ _) => apply keeps_when
  | |- keeps _ (for_wheels _) => apply keeps_for_wheels; intros ?
  | |- keeps _ (st_for _ _) => apply keeps_for; intros ?
  | |- keeps _ (check_timeout _ _ _ _) => apply keeps_check_timeout; keeps_side
  | |- keeps _ (steer_reset_loop _ _ _) => apply keeps_steer_reset_loop
  | |- keeps _ (time_now _) => apply keeps_time_now; keeps_side
  | |- keeps _ (modify_motor _ _ _) => apply keeps_modify; keeps_side
  | |- keeps _ (st_modify _) => apply keeps_modify; keeps_side
  | |- keeps _ (can_sync _) => apply keeps_can_sync
  | |- keeps _ (call _) => apply keeps_call
  | |- keeps _ (st_call _ _) => apply keeps_call
  | |- keeps _ (get_wheel _) => apply keeps_get_wheel
  | |- keeps _ (get_motor _ _) => apply keeps_get_motor
  | |- keeps _ operational => apply keeps_operational
  | |- keeps _ st_get => apply keeps_get
  | |- keeps _ (st_ret _) => apply keeps_ret
  | |- keeps _ (st_throw _) => apply keeps_throw
  | |- keeps _ (st_emit _) => apply keeps_emit
  end.

Ltac keeps_auto :=
  unfold update, initialize, emergency_stop_callback, start_homing, finish_homing,
    request_status_all, request_status, all_motors_on, all_motors_off, stop_motion,
    begin_motion, set_motion_vel_ctrl, set_motion_pos_ctrl, reset_pos_counter,
    configure_PDO_mapping, set_motor_modulo, motor_on, motor_off, query, set_int,
    SDO_download, log, usleep;
  cbv zeta;
  repeat keeps_step.

Lemma set_m_wheels_same (n : node_t) : set_m_wheels (m_wheels n) n = n.
Proof. destruct n. reflexivity. Qed.

(** A loop over the wheels whose body only rewrites its own wheel. *)
Lemma for_wheels_modify (h : module_t -> module_t) (body : nat -> Op unit) :
  (forall i n, body i n = mk_outcome (set_m_wheels (alter h i (m_wheels n)) n) [] (inr tt)) ->
  forall n, for_wheels body n = mk_outcome (set_m_wheels (map h (m_wheels n)) n) [] (inr tt).
Proof.
  intros Hbody n. unfold for_wheels.
  enough (H : forall rest done n,
             m_wheels n = done ++ rest ->
             st_for (seq (length done) (length rest)) body n
             = mk_outcome (set_m_wheels (done ++ map h rest) n) [] (inr tt)).
  { apply (H (m_wheels n) [] n). reflexivity. }
  clear n. induction rest as [| w rest IH]; intros done n Hn.
  - cbn [length seq st_for map]. unfold st_ret.
    rewrite <- Hn, set_m_wheels_same. reflexivity.
  - cbn [length seq st_for]. unfold st_bind. rewrite Hbody. cbn [returned final events].
    rewrite Hn.
    replace (alter h (length done) (done ++ w :: rest)) with ((done ++ [h w]) ++ rest).
    2:{ rewrite <- (Nat.add_0_r (length done)), alter_app_r, <- app_assoc. reflexivity. }
    specialize (IH (done ++ [h w]) (set_m_wheels ((done ++ [h w]) ++ rest) n) eq_refl).
    rewrite length_app, Nat.add_1_r in IH. rewrite IH. cbn.
    rewrite <- app_assoc. reflexivity.
Qed.

Lemma operational_stopped (n : node_t) :
  is_em_stop n = true -> operational n = mk_outcome n [] (inr false).
Proof.
  intros H. unfold operational. rewrite H, all_motors_operational_stopped. reflexivity.
Qed.

Section SequencerFacts.

Variable env : node_env.

Lemma all_motors_off_hoare {T} (f : node_t -> T) (v : T) :
  (forall b n, f (set_is_motor_reset b n) = f n) ->
  hoare (fun s => f s = v) (all_motors_off env)
    (fun _ s => (f s, is_motor_reset s) = (v, true)) (fun s => f s = v).
Proof.
  intros Hf. unfold all_motors_off.
  apply hoare_seq_keeps; [keeps_auto | auto | intros _].
  apply hoare_seq_keeps; [keeps_auto | auto | intros _].
  intros n Hn. cbn. rewrite Hf, Hn. reflexivity.
Qed.

Lemma finish_homing_hoare (v : bool * bool * bool) :
  hoare (fun s => homing_flags s = v) (finish_homing env)
    (fun _ s => homing_flags s = (true, false, true) /\ is_motor_reset s = true)
    (fun s => homing_flags s = v).
Proof.
  unfold finish_homing.
  apply hoare_seq_keeps; [keeps_auto | auto | intros _].
  apply (hoare_bind _ (fun _ s => (homing_flags s, is_motor_reset s) = (v, true)));
    [apply all_motors_off_hoare; reflexivity | intros _].
  assert (HX : forall s, (homing_flags s, is_motor_reset s) = (v, true) -> homing_flags s = v)
    by (intros s H; injection H; auto).
  apply hoare_seq_keeps; [keeps_auto | exact HX | intros _].
  apply hoare_seq_keeps; [keeps_auto | exact HX | intros _].
  apply hoare_seq_keeps; [keeps_auto | exact HX | intros _].
  intros n Hn. cbn. injection Hn as _ Hr. split; [reflexivity | exact Hr].
Qed.

(** [finish_homing] never touches the wheels; if it returns, the node
    is homed, homing is over, the steering reset is pending and the motor
    reset is flagged; if it throws, the three homing flags are as before. *)
Theorem finish_homing_all_or_nothing (s : node_t) :
  m_wheels (final (finish_homing env s)) = m_wheels s
  /\ match returned (finish_homing env s) with
     | inr _ =>
         homing_flags (final (finish_homing env s)) = (true, false, true)
         /\ is_motor_reset (final (finish_homing env s)) = true
     | inl _ => homing_flags (final (finish_homing env s)) = homing_flags s
     end.
Proof.
  split.
  - assert (H : keeps m_wheels (finish_homing env)) by keeps_auto. apply H.
  - exact (finish_homing_hoare (homing_flags s) s eq_refl).
Qed.

Lemma reset_states_outcome (n : node_t) :
  for_wheels
    (fun i => st_bind (modify_motor i Drive (set_state ST_PRE_INITIALIZED))
                (fun _ => modify_motor i Steer (set_state ST_PRE_INITIALIZED))) n
  = mk_outcome
      (set_m_wheels
         (map (fun w => set_motors (set_state ST_PRE_INITIALIZED (drive w))
                          (set_state ST_PRE_INITIALIZED (steer w)) w) (m_wheels n)) n)
      [] (inr tt).
Proof.
  apply for_wheels_modify. intros i m. unfold st_bind, modify_motor, st_modify.
  cbn. rewrite list_alter_alter_eq. reflexivity.
Qed.

Lemma emergency_stop_reactivation (s0 : node_t) :
  is_em_stop s0 = true ->
  hoare (fun s => s = s0) (emergency_stop_callback env true)
    (fun _ s =>
       (map wheel_states (m_wheels s), is_motor_reset s, is_em_stop s)
       = (map (fun _ => (ST_PRE_INITIALIZED, ST_PRE_INITIALIZED)) (m_wheels s0), true, false))
    (fun s =>
       (map wheel_states (m_wheels s), is_motor_reset s, is_em_stop s)
       = (map (fun _ => (ST_PRE_INITIALIZED, ST_PRE_INITIALIZED)) (m_wheels s0), true, true)).
Proof.
  intros Hstop. unfold emergency_stop_callback.
  apply (hoare_bind_exact _ _ s0 s0 [] s0); [reflexivity |].
  rewrite Hstop. cbn [andb st_when negb].
  pose (f := fun s : node_t => (map wheel_states (m_wheels s), is_motor_reset s, is_em_stop s)).
  apply (hoare_bind _
           (fun _ s => f s = (map (fun _ : module_t => (ST_PRE_INITIALIZED, ST_PRE_INITIALIZED))
                                (m_wheels s0), true, true))).
  - apply (hoare_bind_exact _ _ s0 s0 [bus_event (ROS_INFO "Reactivating motors ...")] tt);
      [reflexivity |].
    eapply hoare_bind_exact; [apply reset_states_outcome |].
    eapply hoare_bind_exact; [reflexivity |].
    eapply hoare_weaken; [apply (hoare_keeps_from f) | | |].
    + subst f. keeps_auto.
    + intros s Hs. exact Hs.
    + intros u s Hs. etransitivity; [exact Hs |]. subst f. cbn.
      rewrite map_map, Hstop. reflexivity.
    + intros s Hs. etransitivity; [exact Hs |]. subst f. cbn.
      rewrite map_map, Hstop. reflexivity.
  - intros _ s Hs. subst f. cbn. injection Hs as Hw Hr Hs. rewrite Hw, Hr. reflexivity.
Qed.

(** A message that releases the emergency stop while the node is
    stopped puts every motor back to "pre-initialized" and flags the motor
    reset, whether or not the reactivation then throws; the node leaves the
    emergency stop only if the reactivation returns.  Any other message
    only records the new stop state. *)
Theorem emergency_stop_callback_rearms (free : bool) (s : node_t) :
  if is_em_stop s && free then
    map wheel_states (m_wheels (final (emergency_stop_callback env free s)))
    = map (fun _ => (ST_PRE_INITIALIZED, ST_PRE_INITIALIZED)) (m_wheels s)
    /\ is_motor_reset (final (emergency_stop_callback env free s)) = true
    /\ is_em_stop (final (emergency_stop_callback env free s))
       = match returned (emergency_stop_callback env free s) with
         | inr _ => false
         | inl _ => true
         end
  else
    emergency_stop_callback env free s = mk_outcome (set_is_em_stop (negb free) s) [] (inr tt).
Proof.
  destruct (is_em_stop s && free) eqn:Hc.
  - apply andb_true_iff in Hc as [Hstop ->].
    pose proof (emergency_stop_reactivation s Hstop s eq_refl) as H.
    destruct (returned (emergency_stop_callback env true s));
      injection H as Hw Hr Hs; auto.
  - unfold emergency_stop_callback, st_bind, st_get. cbn [returned final events].
    rewrite Hc. reflexivity.
Qed.

Section Accepting.

Hypothesis Hacc : accepting env.

Lemma succeeds_transmit (msg : can_msg_t) : succeeds (call (can_transmit (env_bus env) msg)).
Proof.
  destruct Hacc as (Hrun & Hwrite & _).
  apply (succeeds_call _ _ tt). apply can_transmit_result. auto.
Qed.

Lemma succeeds_log (ev : event) : succeeds (log ev).
Proof. apply (succeeds_call _ _ tt). reflexivity. Qed.

Lemma succeeds_can_sync : succeeds (can_sync env).
Proof.
  destruct Hacc as (_ & _ & Hsync). unfold can_sync. rewrite Hsync. cbn [Z.eqb negb].
  apply succeeds_bind; [apply succeeds_emit | intros _; apply succeeds_ret].
Qed.

Lemma succeeds_time_now : succeeds (time_now env).
Proof. intros n. eexists. reflexivity. Qed.

Lemma succeeds_get_wheel (i : nat) : succeeds (get_wheel i).
Proof. intros n. eexists. reflexivity. Qed.

Lemma succeeds_operational : succeeds operational.
Proof. intros n. eexists. reflexivity. Qed.

Lemma succeeds_for_wheels (body : nat -> Op unit) :
  (forall i, succeeds (body i)) -> succeeds (for_wheels body).
Proof. intros H n. unfold for_wheels. apply succeeds_for, H. Qed.

Lemma succeeds_check_timeout (i : nat) (ax : axis) (now : Time) :
  succeeds (check_timeout env i ax now).
Proof.
  unfold check_timeout, get_motor.
  apply succeeds_bind; [| intros motor].
  - apply succeeds_bind; [apply succeeds_get_wheel | intros w; apply succeeds_ret].
  - apply succeeds_bind; [| intros motor'; apply succeeds_modify].
    eapply succeeds_call. apply check_motor_timeout_result.
Qed.

Lemma succeeds_steer_reset_loop (l : list nat) (b : bool) :
  succeeds (steer_reset_loop env l b).
Proof.
  revert b. induction l as [| i l IH]; intros b; cbn [steer_reset_loop].
  - apply succeeds_ret.
  - apply succeeds_bind; [apply succeeds_get_wheel | intros w].
    destruct (_ <? _)%float; [| apply IH].
    apply succeeds_bind; [apply succeeds_transmit | intros _; apply IH].
Qed.

End Accepting.

End SequencerFacts.

Ltac succeeds_step Hacc :=
  lazymatch goal with
  | |- succeeds (st_bind _ _) => apply succeeds_bind; [| intros ?]
  | |- succeeds (if ?c then _ else _) => destruct c
  | |- succeeds (st_when _ _) => apply succeeds_when
  | |- succeeds (for_wheels _) => apply succeeds_for_wheels; intros ?
  | |- succeeds (st_for _ _) => apply succeeds_for; intros ?
  | |- succeeds (check_timeout _ _ _ _) => apply succeeds_check_timeout
  | |- succeeds (steer_reset_loop _ _ _) => apply (succeeds_steer_reset_loop _ Hacc)
  | |- succeeds (time_now _) => apply succeeds_time_now
  | |- succeeds (modify_motor _ _ _) => apply succeeds_modify
  | |- succeeds (st_modify _) => apply succeeds_modify
  | |- succeeds (can_sync _) => apply (succeeds_can_sync _ Hacc)
  | |- succeeds (call (emit _)) => apply succeeds_log
  | |- succeeds (call _) => apply (succeeds_transmit _ Hacc)
  | |- succeeds (get_wheel _) => apply succeeds_get_wheel
  | |- succeeds (get_motor _ _) => unfold get_motor
  | |- succeeds operational => apply succeeds_operational
  | |- succeeds st_get => apply succeeds_get
  | |- succeeds (st_ret _) => apply succeeds_ret
  | |- succeeds (st_emit _) => apply succeeds_emit
  end.

Ltac succeeds_auto Hacc :=
  unfold update, initialize, emergency_stop_callback, start_homing, finish_homing,
    request_status_all, request_status, all_motors_on, all_motors_off, stop_motion,
    begin_motion, set_motion_vel_ctrl, set_motion_pos_ctrl, reset_pos_counter,
    configure_PDO_mapping, set_motor_modulo, motor_on, motor_off, query, set_int,
    SDO_download, log, usleep;
  cbv zeta;
  repeat succeeds_step Hacc.

Section SequencerTotal.

Variable env : node_env.
Hypothesis Hacc : accepting env.

Lemma succeeds_initialize : succeeds (initialize env).
Proof. succeeds_auto Hacc. Qed.

Lemma succeeds_start_homing : succeeds (start_homing env).
Proof. succeeds_auto Hacc. Qed.

Lemma succeeds_finish_homing : succeeds (finish_homing env).
Proof. succeeds_auto Hacc. Qed.

Lemma succeeds_emergency_stop_callback (free : bool) :
  succeeds (emergency_stop_callback env free).
Proof. succeeds_auto Hacc. Qed.

Lemma succeeds_update : succeeds (update env).
Proof.
  succeeds_auto Hacc.
Qed.

End SequencerTotal.

Section SequencerStart.

Variable env : node_env.

Lemma initialize_hoare (s0 : node_t) :
  hoare (fun s => s = s0) (initialize env)
    (fun _ s =>
       (map wheel_states (m_wheels s), homing_flags s, m_wait_for_can_sock s, is_em_stop s)
       = (map (fun _ => (ST_PRE_INITIALIZED, ST_PRE_INITIALIZED)) (m_wheels s0),
          (false, false, false), true, is_em_stop s0)
       /\ is_motor_reset s = true)
    (fun s =>
       (map wheel_states (m_wheels s), homing_flags s, m_wait_for_can_sock s, is_em_stop s)
       = (map (fun _ => (ST_PRE_INITIALIZED, ST_PRE_INITIALIZED)) (m_wheels s0),
          (false, false, false), true, is_em_stop s0)).
Proof.
  unfold initialize.
  eapply hoare_bind_exact; [reflexivity |].
  eapply hoare_bind_exact; [apply reset_states_outcome |].
  do 3 (eapply hoare_bind_exact; [reflexivity |]).
  pose (f := fun s : node_t =>
               (map wheel_states (m_wheels s), homing_flags s, m_wait_for_can_sock s,
                is_em_stop s)).
  pose (v := (map (fun _ : module_t => (ST_PRE_INITIALIZED, ST_PRE_INITIALIZED)) (m_wheels s0),
              (false, false, false), true, is_em_stop s0)).
  apply (hoare_weaken _ (fun s => f s = v) _ (fun _ s => f s = v /\ is_motor_reset s = true)
           _ (fun s => f s = v)); [| | auto | auto].
  2:{ intros s ->. subst f v. cbn. rewrite map_map. reflexivity. }
  do 3 (apply hoare_seq_keeps; [subst f; keeps_auto | auto | intros _]).
  apply (hoare_bind _ (fun _ s => (f s, is_motor_reset s) = (v, true)));
    [apply all_motors_off_hoare; reflexivity | intros _].
  eapply hoare_weaken;
    [apply (hoare_keeps (fun s => (f s, is_motor_reset s)) (v, true)) | auto | |].
  - subst f. keeps_auto.
  - intros u s H. apply pair_equal_spec in H. exact H.
  - intros s H. apply pair_equal_spec in H. apply H.
Qed.

(** Whichever way [initialize] leaves, every motor is
    "pre-initialized", the three homing flags are cleared and transmissions
    wait for the socket; the emergency-stop flag is as it was.  If it
    returns, the motor reset is flagged. *)
Theorem initialize_resets (s : node_t) :
  map wheel_states (m_wheels (final (initialize env s)))
  = map (fun _ => (ST_PRE_INITIALIZED, ST_PRE_INITIALIZED)) (m_wheels s)
  /\ homing_flags (final (initialize env s)) = (false, false, false)
  /\ m_wait_for_can_sock (final (initialize env s)) = true
  /\ is_em_stop (final (initialize env s)) = is_em_stop s
  /\ match returned (initialize env s) with
     | inr _ => is_motor_reset (final (initialize env s)) = true
     | inl _ => True
     end.
Proof.
  pose proof (initialize_hoare s s eq_refl) as H.
  set (r := initialize env s) in *. clearbody r.
  destruct (returned r); [| destruct H as [H Hr]];
    repeat (apply pair_equal_spec in H as [H ?]); auto.
Qed.

End SequencerStart.

Section SequencerCycle.

Variable env : node_env.

Lemma update_cadence_hoare (c : Z) (times : list (Time * Time)) :
  (c + 1) mod 2 ^ 64 mod 10 <> 0 ->
  hoare (fun s => (m_sync_counter s, map wheel_request_times (m_wheels s)) = (c, times))
    (update env)
    (fun _ s => (m_sync_counter s, map wheel_request_times (m_wheels s))
                = ((c + 1) mod 2 ^ 64, times))
    (fun s => (m_sync_counter s, map wheel_request_times (m_wheels s)) = (c, times)).
Proof.
  intros Hc. unfold update.
  do 19 (apply hoare_seq_keeps; [keeps_auto | auto | intros ?]).
  intros s Hs. apply pair_equal_spec in Hs as [Hs Ht].
  unfold st_bind, st_modify, st_get. cbn [returned final events m_sync_counter set_m_sync_counter].
  rewrite Hs. apply Z.eqb_neq in Hc. rewrite Hc. cbn. rewrite Ht. reflexivity.
Qed.

Lemma update_stopped_hoare (s0 : node_t) :
  is_em_stop s0 = true ->
  hoare (fun s => s = s0) (update env)
    (fun _ s =>
       (is_em_stop s, is_all_homed s, is_steer_reset_active s)
       = (true, is_all_homed s0, is_steer_reset_active s0)
       /\ is_homing_active s = false)
    (fun s =>
       (is_em_stop s, is_all_homed s, is_steer_reset_active s)
       = (true, is_all_homed s0, is_steer_reset_active s0)
       /\ (is_homing_active s = false \/ is_homing_active s = is_homing_active s0)).
Proof.
  intros Hstop. unfold update.
  pose (f := fun s : node_t =>
               (is_em_stop s, is_all_homed s, is_steer_reset_active s, is_homing_active s)).
  pose (v := (true, is_all_homed s0, is_steer_reset_active s0, is_homing_active s0)).
  assert (HX : forall s, f s = v ->
             (is_em_stop s, is_all_homed s, is_steer_reset_active s)
             = (true, is_all_homed s0, is_steer_reset_active s0)
             /\ (is_homing_active s = false \/ is_homing_active s = is_homing_active s0)).
  { intros s H. apply pair_equal_spec in H as [H Ha]. auto. }
  assert (H0 : f s0 = v) by (subst f v; cbn; rewrite Hstop; reflexivity).
  apply (hoare_step_keeps f v); [exact H0 | subst f; keeps_auto | exact HX | intros now s1 H1].
  apply (hoare_step_keeps f v); [exact H1 | subst f; keeps_auto | exact HX | intros _ s2 H2].
  assert (Hs : forall s w, f s = w -> fst (fst (fst w)) = true -> is_em_stop s = true)
    by (intros s w <- Hw; exact Hw).
  apply (hoare_bind_exact _ _ s2 s2 [] false);
    [apply operational_stopped, (Hs _ _ H2); reflexivity |].
  cbn [negb st_when].
  apply (hoare_step_keeps f v); [exact H2 | subst f; keeps_auto | exact HX | intros _ s3 H3].
  apply (hoare_bind_exact _ _ s3 s3 [] s3); [reflexivity |].
  apply (hoare_step_keeps f v); [exact H3 | subst f; keeps_auto | exact HX | intros _ s4 H4].
  apply (hoare_bind_exact _ _ s4 s4 [] s4); [reflexivity |].
  apply (hoare_bind_exact _ _ s4 s4 [] false);
    [apply operational_stopped, (Hs _ _ H4); reflexivity |].
  rewrite andb_false_r. cbn [st_when].
  apply (hoare_bind_exact _ _ s4 s4 [] tt); [reflexivity |].
  apply (hoare_bind_exact _ _ s4 s4 [] s4); [reflexivity |].
  pose (v' := (true, is_all_homed s0, is_steer_reset_active s0, false)).
  assert (HQ : forall s, f s = v' ->
             (is_em_stop s, is_all_homed s, is_steer_reset_active s)
             = (true, is_all_homed s0, is_steer_reset_active s0)
             /\ is_homing_active s = false).
  { intros s H. apply pair_equal_spec in H as [H Ha]. auto. }
  apply (hoare_bind _ (fun _ s => f s = v')).
  - intros s ->. pose proof (Hs _ _ H4 eq_refl) as He4.
    destruct (is_homing_active s4) eqn:Eactive; cbn [st_when].
    + unfold st_bind. rewrite (operational_stopped _ He4).
      subst f v v'. cbn in H4 |- *. congruence.
    + subst f v v'. cbn in H4 |- *. congruence.
  - intros _. apply hoare_exists. intros s5 H5.
    apply (hoare_bind_exact _ _ s5 s5 [] s5); [reflexivity |].
    apply (hoare_bind_exact _ _ s5 s5 [] tt).
    { destruct (is_steer_reset_active s5); cbn [st_when]; [| reflexivity].
      unfold st_bind. rewrite (operational_stopped _ (Hs _ _ H5 eq_refl)). reflexivity. }
    apply (hoare_last_keeps f v'); [exact H5 | subst f; keeps_auto | | intros _; exact HQ].
    intros s H. destruct (HQ s H) as [H6 H7]. auto.
Qed.

(** On a cycle whose number is not a multiple of ten, [update] leaves
    every motor's request time as it was; the cycle counter goes up by one
    (modulo 2^64) if [update] returns and stays if it throws. *)
Theorem update_requests_status_on_tenth_cycle_only (s : node_t) :
  (m_sync_counter s + 1) mod 2 ^ 64 mod 10 <> 0 ->
  map wheel_request_times (m_wheels (final (update env s)))
  = map wheel_request_times (m_wheels s)
  /\ m_sync_counter (final (update env s))
     = match returned (update env s) with
       | inr _ => (m_sync_counter s + 1) mod 2 ^ 64
       | inl _ => m_sync_counter s
       end.
Proof.
  intros Hc.
  pose proof (update_cadence_hoare _ (map wheel_request_times (m_wheels s)) Hc s eq_refl) as H.
  set (r := update env s) in *. clearbody r.
  destruct (returned r); apply pair_equal_spec in H as [H1 H2]; auto.
Qed.

(** While the emergency stop is set, [update] starts no homing and no
    steering reset: the stop flag, "all homed" and "steer reset active" stay
    as they are, and homing is not active when [update] returns; if it
    throws, homing is inactive or as it was. *)
Theorem update_under_emergency_stop (s : node_t) :
  is_em_stop s = true ->
  is_em_stop (final (update env s)) = true
  /\ is_all_homed (final (update env s)) = is_all_homed s
  /\ is_steer_reset_active (final (update env s)) = is_steer_reset_active s
  /\ match returned (update env s) with
     | inr _ => is_homing_active (final (update env s)) = false
     | inl _ =>
         is_homing_active (final (update env s)) = false
         \/ is_homing_active (final (update env s)) = is_homing_active s
     end.
Proof.
  intros Hstop. pose proof (update_stopped_hoare s Hstop s eq_refl) as H.
  set (r := update env s) in *. clearbody r.
  destruct (returned r); destruct H as [H Ha];
    repeat (apply pair_equal_spec in H as [H ?]); auto.
Qed.

Lemma hoare_for_wheels (I : nat -> node_t -> Prop) (X : node_t -> Prop)
    (body : nat -> Op unit) (n : nat) :
  (forall i, (i < n)%nat -> hoare (I i) (body i) (fun _ => I (S i)) X) ->
  hoare (fun s => length (m_wheels s) = n /\ I 0%nat s) (for_wheels body) (fun _ => I n) X.
Proof.
  intros Hb s [Hlen HI]. unfold for_wheels. rewrite Hlen.
  apply (hoare_for_seq I X body 0 n); [| exact HI].
  intros i Hi. apply Hb. lia.
Qed.

Lemma check_homing_done_unknown (ws : list module_t) :
  Forall (fun w => homing_state (steer w) = -1) ws ->
  check_homing_done ws = match ws with [] => true | _ :: _ => false end.
Proof.
  intros H. destruct H as [| w ws Hw Hws]; [reflexivity |].
  cbn [check_homing_done]. rewrite Hw. reflexivity.
Qed.

Lemma start_homing_hoare (s0 : node_t) :
  all_motors_operational (m_wheels s0) (is_em_stop s0) = true ->
  hoare (fun s => s = s0) (start_homing env)
    (fun _ s =>
       is_homing_active s = true
       /\ Forall (fun w => homing_state (steer w) = -1) (m_wheels s))
    (fun s => is_homing_active s = is_homing_active s0).
Proof.
  intros Hop. unfold start_homing.
  apply (hoare_bind_exact _ _ s0 s0 [] true); [unfold operational; rewrite Hop; reflexivity |].
  cbn [negb].
  assert (HX : forall s : node_t, s = s0 -> is_homing_active s = is_homing_active s0)
    by (intros s ->; reflexivity).
  do 6 (apply (hoare_step_keeps (fun s => s) s0);
        [reflexivity | keeps_auto | exact HX | intros _ ? ->]).
  pose (I := fun (i : nat) (s : node_t) =>
               is_homing_active s = is_homing_active s0
               /\ length (m_wheels s) = length (m_wheels s0)
               /\ forall j w, (j < i)%nat -> m_wheels s !! j = Some w ->
                              homing_state (steer w) = -1).
  apply (hoare_bind _ (fun _ => I (length (m_wheels s0)))).
  - eapply hoare_weaken;
      [apply (hoare_for_wheels I (fun s => is_homing_active s = is_homing_active s0))
      | | intros u s H; exact H | auto].
    2:{ intros s ->. split; [reflexivity |]. split; [reflexivity |]. split; [reflexivity |].
        intros j w Hj. lia. }
    intros i Hi. apply hoare_exists. intros s1 (Ha & Hlen & Hdone).
    apply (hoare_bind_exact _ _ s1 s1 [] (default module_default (m_wheels s1 !! i)));
      [reflexivity |].
    apply (hoare_step_keeps (fun s => s) s1);
        [reflexivity | keeps_auto | intros s ->; exact Ha | intros _ ? ->].
    intros s ->. unfold modify_motor, st_modify.
    cbn [returned final]. unfold I. cbn [m_wheels set_m_wheels is_homing_active].
    split; [exact Ha |]. split; [rewrite length_alter; exact Hlen |].
    intros j w Hj Hw. destruct (decide (j = i)) as [-> | Hne].
    + rewrite list_lookup_alter_eq in Hw. destruct (m_wheels s1 !! i); [| discriminate Hw].
      injection Hw as <-. reflexivity.
    + rewrite list_lookup_alter_ne in Hw by congruence. apply (Hdone j w); [lia | exact Hw].
  - intros _. apply hoare_exists. intros s1 (Ha & Hlen & Hdone).
    apply (hoare_step_keeps (fun s => s) s1);
        [reflexivity | keeps_auto | intros s ->; exact Ha | intros _ ? ->].
    intros s ->. cbn. split; [reflexivity |].
    apply Forall_lookup. intros j w Hw. apply (Hdone j w); [| exact Hw].
    rewrite <- Hlen. apply lookup_lt_Some in Hw. exact Hw.
Qed.

(** [start_homing] does nothing at all unless every motor is in
    operation and the emergency stop is released.  Otherwise the platform
    stays operational; if the call returns, homing is active and every
    steering motor's homing state is "unknown", so that homing is not yet
    done (with at least one wheel); if it throws, homing is active or not as
    before. *)
Theorem start_homing_guarded (s : node_t) :
  if all_motors_operational (m_wheels s) (is_em_stop s) then
    all_motors_operational (m_wheels (final (start_homing env s)))
      (is_em_stop (final (start_homing env s))) = true
    /\ match returned (start_homing env s) with
       | inr _ =>
           is_homing_active (final (start_homing env s)) = true
           /\ Forall (fun w => homing_state (steer w) = -1)
                (m_wheels (final (start_homing env s)))
           /\ check_homing_done (m_wheels (final (start_homing env s)))
              = match m_wheels s with [] => true | _ :: _ => false end
       | inl _ => is_homing_active (final (start_homing env s)) = is_homing_active s
       end
  else start_homing env s = mk_outcome s [] (inr tt).
Proof.
  destruct (all_motors_operational (m_wheels s) (is_em_stop s)) eqn:Hop.
  - assert (Hk : keeps (fun n => (map wheel_states (m_wheels n), is_em_stop n))
                   (start_homing env)) by keeps_auto.
    specialize (Hk s). cbv beta in Hk. apply pair_equal_spec in Hk as [Hw He].
    pose proof (start_homing_hoare s Hop s eq_refl) as H.
    set (r := start_homing env s) in *. clearbody r. split.
    + rewrite He, (all_motors_operational_states _ _ _ Hw). exact Hop.
    + destruct (returned r); [exact H |]. destruct H as [Ha Hh].
      split; [exact Ha |]. split; [exact Hh |].
      rewrite (check_homing_done_unknown _ Hh).
      destruct (m_wheels (final r)), (m_wheels s); try discriminate Hw; reflexivity.
  - unfold start_homing.
    erewrite st_bind_silent by (unfold operational; rewrite Hop; reflexivity).
    reflexivity.
Qed.

End SequencerCycle.

Section SequencerReturns.

Variable env : node_env.

(** With a transport that takes every frame whole and a successful
    [fsync], none of the sequencer's entry points throws. *)
Theorem sequencer_returns_when_accepted (free : bool) (s : node_t) :
  accepting env ->
  returned (initialize env s) = inr tt
  /\ returned (update env s) = inr tt
  /\ returned (emergency_stop_callback env free s) = inr tt
  /\ returned (start_homing env s) = inr tt
  /\ returned (finish_homing env s) = inr tt.
Proof.
  intros Hacc.
  assert (Hu : forall (m : Op unit), succeeds m -> returned (m s) = inr tt).
  { intros m Hm. destruct (Hm s) as [[] H]. exact H. }
  repeat split; apply Hu.
  - apply succeeds_initialize, Hacc.
  - apply succeeds_update, Hacc.
  - apply succeeds_emergency_stop_callback, Hacc.
  - apply succeeds_start_homing, Hacc.
  - apply succeeds_finish_homing, Hacc.
Qed.

End SequencerReturns.

Section SequencerHoming.

Variable env : node_env.

(** No status request is waiting for its reply. *)
Lemma check_timeout_quiet (i : nat) (ax : axis) (now : Time) (n : node_t) (w : module_t) :
  m_wheels n !! i = Some w ->
  time_lt (status_recv_time (motor_of ax w)) (request_send_time (motor_of ax w)) = false ->
  check_timeout env i ax now n = mk_outcome n [] (inr tt).
Proof.
  intros Hw Hq.
  unfold check_timeout, get_motor, get_wheel, modify_motor, call, st_bind, st_call, st_ret,
    st_modify.
  cbn [returned final events]. rewrite Hw.
  change (default module_default (Some w)) with w.
  unfold check_motor_timeout, status_timed_out. rewrite Hq.
  cbn [andb ret trace result fst snd map returned final events app].
  assert (Hal : alter (fun wheel => with_motor ax (motor_of ax w) wheel) i (m_wheels n)
                = m_wheels n).
  { transitivity (<[i := w]> (m_wheels n)); [| apply list_insert_id, Hw].
    rewrite list_insert_alter. apply list_alter_ext; [| reflexivity].
    intros w' Hw'. rewrite Hw in Hw'. injection Hw' as <-.
    destruct ax, w; reflexivity. }
  rewrite Hal, set_m_wheels_same. reflexivity.
Qed.

Lemma watchdog_quiet (now : Time) (n : node_t) :
  Forall (fun w =>
            time_lt (status_recv_time (drive w)) (request_send_time (drive w)) = false
            /\ time_lt (status_recv_time (steer w)) (request_send_time (steer w)) = false)
    (m_wheels n) ->
  for_wheels
    (fun i => st_bind (check_timeout env i Drive now) (fun _ => check_timeout env i Steer now)) n
  = mk_outcome n [] (inr tt).
Proof.
  intros Hq. unfold for_wheels.
  enough (H : forall l, (forall i, i ∈ l -> (i < length (m_wheels n))%nat) ->
                        st_for l
                          (fun i => st_bind (check_timeout env i Drive now)
                                      (fun _ => check_timeout env i Steer now)) n
                        = mk_outcome n [] (inr tt)).
  { apply H. intros i Hi. apply elem_of_seq in Hi. lia. }
  induction l as [| i l IH]; intros Hl; [reflexivity |].
  cbn [st_for]. unfold st_bind.
  destruct (lookup_lt_is_Some_2 (m_wheels n) i (Hl i ltac:(left))) as [w Hw].
  destruct (proj1 (Forall_lookup _ _) Hq i w Hw) as [Hd Hs].
  rewrite (check_timeout_quiet i Drive now n w Hw Hd). cbn [returned final events].
  rewrite (check_timeout_quiet i Steer now n w Hw Hs). cbn [returned final events].
  unfold st_bind in IH. rewrite IH; [reflexivity |].
  intros j Hj. apply Hl. right. exact Hj.
Qed.

Lemma forallb_indices {A : Type} (p : A -> bool) (d : A) (l : list A) :
  forallb (fun i => p (default d (l !! i))) (seq 0 (length l)) = forallb p l.
Proof.
  enough (H : forall rest done,
             forallb (fun i => p (default d ((done ++ rest) !! i)))
               (seq (length done) (length rest))
             = forallb p rest) by apply (H l []).
  induction rest as [| a rest IH]; intros done; [reflexivity |].
  cbn [length seq forallb]. rewrite list_lookup_middle by reflexivity. cbn [default].
  f_equal. specialize (IH (done ++ [a])).
  rewrite <- app_assoc, length_app, Nat.add_1_r in IH. exact IH.
Qed.

Lemma steer_reset_loop_outcome (l : list nat) (b : bool) (n : node_t) :
  accepting env ->
  exists evs,
    steer_reset_loop env l b n
    = mk_outcome n evs
        (inr (b && forallb
                     (fun i =>
                        negb (0x1.47ae147ae147bp-7
                              <? abs (env_normalize_angle env
                                        (curr_steer_pos
                                           (default module_default (m_wheels n !! i)))))%float)
                     l)).
Proof.
  intros Hacc. revert b. induction l as [| i l IH]; intros b.
  - exists []. cbn. rewrite andb_true_r. reflexivity.
  - cbn [steer_reset_loop forallb]. unfold st_bind at 1, get_wheel. cbn [returned final events].
    destruct (_ <? _)%float; cbn [negb andb].
    + destruct (IH false) as [evs Hevs]. rewrite andb_false_r.
      unfold st_bind, call, st_call. cbn [returned final events].
      destruct Hacc as (Hrun & Hwrite & _).
      unfold motor_set_pos_abs, canopen_set_int.
      rewrite can_transmit_accepted by auto. cbn [result trace fst snd map returned final events].
      rewrite Hevs. cbn. eexists. reflexivity.
    + destruct (IH b) as [evs Hevs]. rewrite Hevs. eexists. reflexivity.
Qed.

Lemma operational_true (n n0 : node_t) :
  all_motors_operational (m_wheels n0) (is_em_stop n0) = true ->
  m_wheels n = m_wheels n0 -> is_em_stop n = is_em_stop n0 ->
  operational n = mk_outcome n [] (inr true).
Proof. intros H Hw He. unfold operational. rewrite Hw, He, H. reflexivity. Qed.

Lemma update_completes_homing_hoare (s0 : node_t) :
  accepting env ->
  Forall (fun w =>
            time_lt (status_recv_time (drive w)) (request_send_time (drive w)) = false
            /\ time_lt (status_recv_time (steer w)) (request_send_time (steer w)) = false)
    (m_wheels s0) ->
  all_motors_operational (m_wheels s0) (is_em_stop s0) = true ->
  is_homing_active s0 = true ->
  check_homing_done (m_wheels s0) = true ->
  hoare (fun s => s = s0) (update env)
    (fun _ s =>
       homing_flags s
       = (true, false,
          negb (forallb
                  (fun w =>
                     negb (0x1.47ae147ae147bp-7
                           <? abs (env_normalize_angle env (curr_steer_pos w)))%float)
                  (m_wheels s0))))
    (fun _ => True).
Proof.
  intros Hacc Hq Hop Hactive Hdone. unfold update.
  pose (f := fun s : node_t => (m_wheels s, is_em_stop s, homing_flags s)).
  pose (v := (m_wheels s0, is_em_stop s0,
              (is_all_homed s0, true, is_steer_reset_active s0))).
  assert (H0 : f s0 = v) by (subst f v; unfold homing_flags; rewrite Hactive; reflexivity).
  assert (Hf : forall s w, f s = w ->
                 m_wheels s = fst (fst w) /\ is_em_stop s = snd (fst w)
                 /\ homing_flags s = snd w) by (intros s w <-; auto).
  apply (hoare_step_keeps f v); [exact H0 | subst f; keeps_auto | auto | intros now s1 H1].
  destruct (Hf _ _ H1) as (Hw1 & He1 & Hh1).
  unfold v in Hw1, He1, Hh1. cbn [fst snd] in Hw1, He1, Hh1.
  eapply hoare_bind_exact; [apply watchdog_quiet; rewrite Hw1; exact Hq |].
  eapply hoare_bind_exact; [apply (operational_true _ s0); assumption |].
  cbn [negb st_when].
  eapply hoare_bind_exact; [reflexivity |].
  eapply hoare_bind_exact; [reflexivity |].
  apply (hoare_step_keeps f v); [exact H1 | subst f; keeps_auto | auto | intros _ s2 H2].
  destruct (Hf _ _ H2) as (Hw2 & He2 & Hh2).
  unfold v in Hw2, He2, Hh2. cbn [fst snd] in Hw2, He2, Hh2.
  assert (Ha2 : is_homing_active s2 = true).
  { unfold homing_flags in Hh2. congruence. }
  eapply hoare_bind_exact; [reflexivity |].
  eapply hoare_bind_exact; [apply (operational_true _ s0); assumption |].
  rewrite Ha2. cbn [negb]. rewrite andb_false_r. cbn [andb st_when].
  eapply hoare_bind_exact; [reflexivity |].
  eapply hoare_bind_exact; [reflexivity |].
  rewrite Ha2. cbn [st_when].
  pose (v2 := (m_wheels s0, is_em_stop s0, (true, false, true))).
  apply (hoare_bind _ (fun _ s => f s = v2)).
  { eapply hoare_bind_exact; [apply (operational_true _ s0); assumption |].
    cbn [negb]. rewrite Hw2, Hdone.
    apply (hoare_bind _ (fun _ s => f s = v2)).
    - assert (Hk : keeps (fun s => (m_wheels s, is_em_stop s)) (finish_homing env))
        by keeps_auto.
      eapply hoare_weaken;
        [apply (hoare_conj _ _ _ _ _ _ _
                  (hoare_keeps_from (fun s => (m_wheels s, is_em_stop s)) _ s2 Hk)
                  (finish_homing_hoare env (homing_flags s2)))
        | | | auto].
      + intros s ->. auto.
      + intros u s [Hks [Hfl _]]. subst f v2. cbn beta in Hks |- *.
        rewrite Hks, Hfl, Hw2, He2. reflexivity.
    - intros _. apply hoare_exists. intros s3 H3.
      apply (hoare_last_keeps f v2); [exact H3 | subst f; keeps_auto | auto | auto]. }
  intros _. apply hoare_exists. intros s3 H3.
  destruct (Hf _ _ H3) as (Hw3 & He3 & Hh3).
  unfold v2 in Hw3, He3, Hh3. cbn [fst snd] in Hw3, He3, Hh3.
  assert (Hr3 : is_steer_reset_active s3 = true).
  { unfold homing_flags in Hh3. congruence. }
  eapply hoare_bind_exact; [reflexivity |].
  rewrite Hr3. cbn [st_when].
  apply (hoare_bind _
           (fun _ s =>
              homing_flags s
              = (true, false,
                 negb (forallb
                         (fun w =>
                            negb (0x1.47ae147ae147bp-7
                                  <? abs (env_normalize_angle env (curr_steer_pos w)))%float)
                         (m_wheels s0))))).
  { eapply hoare_bind_exact; [apply (operational_true _ s0); assumption |].
    cbn [st_when].
    destruct (steer_reset_loop_outcome (seq 0 (length (m_wheels s3))) true s3 Hacc)
      as [evs Hevs].
    rewrite (forallb_indices
               (fun w => negb (0x1.47ae147ae147bp-7
                               <? abs (env_normalize_angle env (curr_steer_pos w)))%float))
      in Hevs.
    rewrite Hw3 in Hevs at 2. cbn [andb] in Hevs.
    eapply hoare_bind_exact; [exact Hevs |].
    destruct (forallb _ (m_wheels s0)); cbn [negb].
    - intros s ->. cbn. unfold homing_flags in Hh3 |- *. cbn. congruence.
    - apply (hoare_last_keeps homing_flags (true, false, true));
        [exact Hh3 | keeps_auto | auto | auto]. }
  intros _. apply hoare_exists. intros s4 H4.
  apply (hoare_last_keeps homing_flags _ _ _ _ _ H4); [keeps_auto | auto | auto].
Qed.

(** A cycle of [update] that finds homing active, every motor in
    operation with its status requests answered, and every steering motor
    past its homing switch, finishes homing: it returns, the node is homed,
    homing is over, and the steering reset is still pending exactly if some
    wheel's steering angle is more than 0.01 rad away from zero. *)
Theorem update_completes_homing (s : node_t) :
  accepting env ->
  Forall (fun w =>
            time_lt (status_recv_time (drive w)) (request_send_time (drive w)) = false
            /\ time_lt (status_recv_time (steer w)) (request_send_time (steer w)) = false)
    (m_wheels s) ->
  all_motors_operational (m_wheels s) (is_em_stop s) = true ->
  is_homing_active s = true ->
  check_homing_done (m_wheels s) = true ->
  returned (update env s) = inr tt
  /\ is_all_homed (final (update env s)) = true
  /\ is_homing_active (final (update env s)) = false
  /\ is_steer_reset_active (final (update env s))
     = negb (forallb
               (fun w =>
                  negb (0x1.47ae147ae147bp-7
                        <? abs (env_normalize_angle env (curr_steer_pos w)))%float)
               (m_wheels s)).
Proof.
  intros Hacc Hq Hop Hactive Hdone.
  pose proof (update_completes_homing_hoare s Hacc Hq Hop Hactive Hdone s eq_refl) as H.
  destruct (succeeds_update env Hacc s) as [[] Hr].
  set (r := update env s) in *. clearbody r. rewrite Hr in H.
  unfold homing_flags in H. split; [exact Hr |].
  repeat (apply pair_equal_spec in H as [H ?]). auto.
Qed.

Lemma operational_by_states (n n0 : node_t) :
  all_motors_operational (m_wheels n0) (is_em_stop n0) = true ->
  map wheel_states (m_wheels n) = map wheel_states (m_wheels n0) ->
  is_em_stop n = is_em_stop n0 ->
  operational n = mk_outcome n [] (inr true).
Proof.
  intros H Hw He. unfold operational.
  rewrite He, (all_motors_operational_states _ _ _ Hw), H. reflexivity.
Qed.

Lemma update_starts_homing_hoare (s0 : node_t) :
  Forall (fun w =>
            time_lt (status_recv_time (drive w)) (request_send_time (drive w)) = false
            /\ time_lt (status_recv_time (steer w)) (request_send_time (steer w)) = false)
    (m_wheels s0) ->
  all_motors_operational (m_wheels s0) (is_em_stop s0) = true ->
  is_all_homed s0 = false ->
  is_homing_active s0 = false ->
  m_wheels s0 <> [] ->
  hoare (fun s => s = s0) (update env)
    (fun _ s =>
       (is_all_homed s, is_homing_active s, map (fun w => homing_state (steer w)) (m_wheels s))
       = (false, true, map (fun _ => -1) (m_wheels s0)))
    (fun _ => True).
Proof.
  intros Hq Hop Hhomed Hactive Hne. unfold update.
  pose (f := fun s : node_t =>
               (m_wheels s, is_em_stop s, (is_all_homed s, is_homing_active s))).
  pose (v := (m_wheels s0, is_em_stop s0, (false, false))).
  assert (H0 : f s0 = v) by (subst f v; cbn beta; rewrite Hhomed, Hactive; reflexivity).
  assert (Hf : forall s, f s = v ->
                 m_wheels s = m_wheels s0 /\ is_em_stop s = is_em_stop s0
                 /\ is_all_homed s = false /\ is_homing_active s = false).
  { intros s H. subst f v. cbn beta in H.
    apply pair_equal_spec in H as [H Hp]. apply pair_equal_spec in H as [Hw He].
    apply pair_equal_spec in Hp as [Hh Ha]. auto. }
  apply (hoare_step_keeps f v); [exact H0 | subst f; keeps_auto | auto | intros now s1 H1].
  destruct (Hf _ H1) as (Hw1 & He1 & Hh1 & Ha1).
  eapply hoare_bind_exact; [apply watchdog_quiet; rewrite Hw1; exact Hq |].
  eapply hoare_bind_exact; [apply (operational_true _ s0); assumption |].
  cbn [negb st_when].
  eapply hoare_bind_exact; [reflexivity |].
  eapply hoare_bind_exact; [reflexivity |].
  apply (hoare_step_keeps f v); [exact H1 | subst f; keeps_auto | auto | intros _ s2 H2].
  destruct (Hf _ H2) as (Hw2 & He2 & Hh2 & Ha2).
  eapply hoare_bind_exact; [reflexivity |].
  eapply hoare_bind_exact; [apply (operational_true _ s0); assumption |].
  rewrite Hh2, Ha2. cbn [negb andb st_when].
  pose (g := fun s : node_t =>
               (is_all_homed s, is_homing_active s,
                map (fun w => homing_state (steer w)) (m_wheels s))).
  pose (w := (false, true, map (fun _ : module_t => -1) (m_wheels s0))).
  pose (k := fun s : node_t => (map wheel_states (m_wheels s), is_em_stop s)).
  apply (hoare_bind _ (fun _ s => g s = w /\ k s = k s0)).
  { eapply hoare_bind_exact; [reflexivity |].
    assert (Hop2 : all_motors_operational (m_wheels s2) (is_em_stop s2) = true)
      by (rewrite Hw2, He2; exact Hop).
    assert (Hk : keeps (fun s => (k s, is_all_homed s)) (start_homing env))
      by (subst k; keeps_auto).
    eapply hoare_weaken;
      [apply (hoare_conj _ _ _ _ _ _ _
                (hoare_keeps_from (fun s => (k s, is_all_homed s)) _ s2 Hk)
                (start_homing_hoare env s2 Hop2))
      | | | auto].
    - intros s ->. auto.
    - intros u s [Hks [Ha Hfor]]. cbv beta in Hks. apply pair_equal_spec in Hks as [Hks Hh].
      split.
      + subst g w. cbv beta. rewrite Hh, Hh2, Ha. f_equal.
        assert (Hlen : length (m_wheels s) = length (m_wheels s0)).
        { subst k. cbv beta in Hks. apply pair_equal_spec in Hks as [Hks _].
          apply (f_equal length) in Hks. rewrite !length_map in Hks. congruence. }
        clear - Hfor Hlen. revert Hlen. generalize (m_wheels s0).
        induction Hfor as [| x l Hx Hl IH]; intros [| y l0] Hlen; try discriminate Hlen.
        * reflexivity.
        * cbn. rewrite Hx. f_equal. apply IH. cbn in Hlen. congruence.
      + rewrite Hks. subst k. cbv beta. rewrite Hw2, He2. reflexivity. }
  intros _. apply hoare_exists. intros s3 [H3 Hk3].
  assert (Hop3 : operational s3 = mk_outcome s3 [] (inr true)).
  { subst k. cbv beta in Hk3. apply pair_equal_spec in Hk3 as [Hk3 He3].
    apply (operational_by_states _ s0); assumption. }
  assert (Ha3 : is_homing_active s3 = true).
  { subst g w. cbv beta in H3. repeat (apply pair_equal_spec in H3 as [H3 ?]). assumption. }
  assert (Hd3 : check_homing_done (m_wheels s3) = false).
  { subst g w. cbv beta in H3. apply pair_equal_spec in H3 as [_ H3].
    destruct (m_wheels s0) as [| x l]; [contradiction |].
    destruct (m_wheels s3) as [| y l3]; [discriminate H3 |].
    cbn in H3. injection H3 as Hy _. cbn [check_homing_done]. rewrite Hy. reflexivity. }
  eapply hoare_bind_exact; [reflexivity |].
  rewrite Ha3. cbn [st_when].
  apply (hoare_bind _ (fun _ s => g s = w)).
  { eapply hoare_bind_exact; [exact Hop3 |].
    cbn [negb]. rewrite Hd3.
    apply (hoare_last_keeps g w); [exact H3 | subst g; keeps_auto | auto | auto]. }
  intros _. apply hoare_exists. intros s4 H4.
  apply (hoare_last_keeps g w); [exact H4 | subst g; keeps_auto | auto | auto].
Qed.

(** A cycle of [update] that finds the node not homed and not homing,
    every motor in operation with its status requests answered, starts
    homing: it returns, homing is active, the node is not homed yet and
    every steering motor's homing state is "unknown". *)
Theorem update_starts_homing (s : node_t) :
  accepting env ->
  Forall (fun w =>
            time_lt (status_recv_time (drive w)) (request_send_time (drive w)) = false
            /\ time_lt (status_recv_time (steer w)) (request_send_time (steer w)) = false)
    (m_wheels s) ->
  all_motors_operational (m_wheels s) (is_em_stop s) = true ->
  is_all_homed s = false ->
  is_homing_active s = false ->
  m_wheels s <> [] ->
  returned (update env s) = inr tt
  /\ is_homing_active (final (update env s)) = true
  /\ is_all_homed (final (update env s)) = false
  /\ map (fun w => homing_state (steer w)) (m_wheels (final (update env s)))
     = map (fun _ => -1) (m_wheels s).
Proof.
  intros Hacc Hq Hop Hhomed Hactive Hne.
  pose proof (update_starts_homing_hoare s Hq Hop Hhomed Hactive Hne s eq_refl) as H.
  destruct (succeeds_update env Hacc s) as [[] Hr].
  set (r := update env s) in *. clearbody r. rewrite Hr in H.
  split; [exact Hr |].
  repeat (apply pair_equal_spec in H as [H ?]). auto.
Qed.

End SequencerHoming.

Section SequencerShutdown.

Variable env : node_env.

Lemma hoare_any {A} (m : Op A) :
  hoare (fun _ => True) m (fun _ _ => True) (fun _ => True).
Proof. intros s _. destruct (returned (m s)); exact I. Qed.

Lemma call_transmit_down (msg : can_msg_t) (n : node_t) :
  do_run (env_bus env) = false ->
  call (can_transmit (env_bus env) msg) n = mk_outcome n [] (inl (runtime_error "shutdown")).
Proof.
  intros Hrun. unfold call, st_call, can_transmit. rewrite Hrun. reflexivity.
Qed.

(** Once [do_run] is cleared, [initialize] throws "shutdown" before
    anything reaches the bus, and [update] does not return either. *)
Theorem sequencer_stops_after_shutdown (s : node_t) :
  do_run (env_bus env) = false ->
  returned (initialize env s) = inl (runtime_error "shutdown")
  /\ events (initialize env s) = []
  /\ exists e, returned (update env s) = inl e.
Proof.
  intros Hrun.
  assert (Hi : exists s1, initialize env s = mk_outcome s1 [] (inl (runtime_error "shutdown"))).
  { unfold initialize.
    erewrite st_bind_silent by reflexivity.
    erewrite st_bind_silent by apply reset_states_outcome.
    do 3 (erewrite st_bind_silent by reflexivity).
    erewrite st_bind_throws by (apply call_transmit_down; exact Hrun).
    eexists. reflexivity. }
  destruct Hi as [s1 Hi]. rewrite Hi. cbn [returned events].
  split; [reflexivity |]. split; [reflexivity |].
  assert (Hu : hoare (fun _ => True) (update env) (fun _ _ => False) (fun _ => True)).
  { unfold update.
    do 15 (apply (hoare_bind _ (fun _ _ => True)); [apply hoare_any | intros ?]).
    intros n _. erewrite st_bind_throws by (apply call_transmit_down; exact Hrun).
    exact I. }
  specialize (Hu s I). destruct (returned (update env s)) as [e | []]; [| contradiction].
  exists e. reflexivity.
Qed.

End SequencerShutdown.

(** *** Sequencer witnesses *)

(** With the accepting environment, the one-wheel node gets through every
    entry point. *)
Lemma sequencer_returns_when_accepted_witness :
  accepting Fixtures.env_ok
  /\ returned (initialize Fixtures.env_ok Fixtures.node0) = inr tt
  /\ returned (update Fixtures.env_ok Fixtures.node0) = inr tt
  /\ returned (emergency_stop_callback Fixtures.env_ok true Fixtures.node0) = inr tt
  /\ returned (start_homing Fixtures.env_ok Fixtures.node0) = inr tt
  /\ returned (finish_homing Fixtures.env_ok Fixtures.node0) = inr tt.
Proof.
  assert (Hacc : accepting Fixtures.env_ok).
  { split; [reflexivity |]. split; [intros out; reflexivity | reflexivity]. }
  split; [exact Hacc |].
  exact (sequencer_returns_when_accepted Fixtures.env_ok true Fixtures.node0 Hacc).
Defined.

(** After [shutdown()], the one-wheel node can neither initialise nor
    run a cycle. *)
Lemma sequencer_stops_after_shutdown_witness :
  do_run (env_bus Fixtures.env_down) = false
  /\ returned (initialize Fixtures.env_down Fixtures.node0) = inl (runtime_error "shutdown")
  /\ events (initialize Fixtures.env_down Fixtures.node0) = []
  /\ exists e, returned (update Fixtures.env_down Fixtures.node0) = inl e.
Proof.
  split; [reflexivity |].
  exact (sequencer_stops_after_shutdown Fixtures.env_down Fixtures.node0 eq_refl).
Defined.

(** The first cycle of a node (counter 0) asks no motor for its status. *)
Lemma update_requests_status_on_tenth_cycle_only_witness :
  (m_sync_counter Fixtures.node0 + 1) mod 2 ^ 64 mod 10 <> 0
  /\ map wheel_request_times (m_wheels (final (update Fixtures.env_ok Fixtures.node0)))
     = map wheel_request_times (m_wheels Fixtures.node0)
  /\ m_sync_counter (final (update Fixtures.env_ok Fixtures.node0))
     = match returned (update Fixtures.env_ok Fixtures.node0) with
       | inr _ => (m_sync_counter Fixtures.node0 + 1) mod 2 ^ 64
       | inl _ => m_sync_counter Fixtures.node0
       end.
Proof.
  assert (H : (m_sync_counter Fixtures.node0 + 1) mod 2 ^ 64 mod 10 <> 0)
    by (vm_compute; discriminate).
  split; [exact H |].
  exact (update_requests_status_on_tenth_cycle_only Fixtures.env_ok Fixtures.node0 H).
Defined.

(** A cycle of the one-wheel node in emergency stop. *)
Lemma update_under_emergency_stop_witness :
  is_em_stop Fixtures.node0_stopped = true
  /\ is_em_stop (final (update Fixtures.env_ok Fixtures.node0_stopped)) = true
  /\ is_all_homed (final (update Fixtures.env_ok Fixtures.node0_stopped))
     = is_all_homed Fixtures.node0_stopped
  /\ is_steer_reset_active (final (update Fixtures.env_ok Fixtures.node0_stopped))
     = is_steer_reset_active Fixtures.node0_stopped
  /\ match returned (update Fixtures.env_ok Fixtures.node0_stopped) with
     | inr _ => is_homing_active (final (update Fixtures.env_ok Fixtures.node0_stopped)) = false
     | inl _ =>
         is_homing_active (final (update Fixtures.env_ok Fixtures.node0_stopped)) = false
         \/ is_homing_active (final (update Fixtures.env_ok Fixtures.node0_stopped))
            = is_homing_active Fixtures.node0_stopped
     end.
Proof.
  split; [reflexivity |].
  exact (update_under_emergency_stop Fixtures.env_ok Fixtures.node0_stopped eq_refl).
Defined.

(** The one-wheel node whose steering motor has passed the switch finishes
    homing; its steering angle is zero, so the steering reset is over too. *)
Lemma update_completes_homing_witness :
  accepting Fixtures.env_ok
  /\ Forall (fun w =>
               time_lt (status_recv_time (drive w)) (request_send_time (drive w)) = false
               /\ time_lt (status_recv_time (steer w)) (request_send_time (steer w)) = false)
       (m_wheels Fixtures.node0_homing)
  /\ all_motors_operational (m_wheels Fixtures.node0_homing) (is_em_stop Fixtures.node0_homing)
     = true
  /\ is_homing_active Fixtures.node0_homing = true
  /\ check_homing_done (m_wheels Fixtures.node0_homing) = true
  /\ returned (update Fixtures.env_ok Fixtures.node0_homing) = inr tt
  /\ is_all_homed (final (update Fixtures.env_ok Fixtures.node0_homing)) = true
  /\ is_homing_active (final (update Fixtures.env_ok Fixtures.node0_homing)) = false
  /\ is_steer_reset_active (final (update Fixtures.env_ok Fixtures.node0_homing)) = false.
Proof.
  assert (Hacc : accepting Fixtures.env_ok).
  { split; [reflexivity |]. split; [intros out; reflexivity | reflexivity]. }
  assert (Hq : Forall (fun w =>
                         time_lt (status_recv_time (drive w)) (request_send_time (drive w))
                         = false
                         /\ time_lt (status_recv_time (steer w)) (request_send_time (steer w))
                            = false)
                 (m_wheels Fixtures.node0_homing)).
  { constructor; [split; reflexivity | constructor]. }
  split; [exact Hacc |]. split; [exact Hq |]. split; [reflexivity |]. split; [reflexivity |].
  split; [reflexivity |].
  exact (update_completes_homing Fixtures.env_ok Fixtures.node0_homing Hacc Hq
           eq_refl eq_refl eq_refl).
Defined.

(** The one-wheel node, operational and not homed, starts homing. *)
Lemma update_starts_homing_witness :
  accepting Fixtures.env_ok
  /\ Forall (fun w =>
               time_lt (status_recv_time (drive w)) (request_send_time (drive w)) = false
               /\ time_lt (status_recv_time (steer w)) (request_send_time (steer w)) = false)
       (m_wheels Fixtures.node0)
  /\ all_motors_operational (m_wheels Fixtures.node0) (is_em_stop Fixtures.node0) = true
  /\ is_all_homed Fixtures.node0 = false
  /\ is_homing_active Fixtures.node0 = false
  /\ m_wheels Fixtures.node0 <> []
  /\ returned (update Fixtures.env_ok Fixtures.node0) = inr tt
  /\ is_homing_active (final (update Fixtures.env_ok Fixtures.node0)) = true
  /\ is_all_homed (final (update Fixtures.env_ok Fixtures.node0)) = false
  /\ map (fun w => homing_state (steer w))
       (m_wheels (final (update Fixtures.env_ok Fixtures.node0)))
     = [-1].
Proof.
  assert (Hacc : accepting Fixtures.env_ok).
  { split; [reflexivity |]. split; [intros out; reflexivity | reflexivity]. }
  assert (Hq : Forall (fun w =>
                         time_lt (status_recv_time (drive w)) (request_send_time (drive w))
                         = false
                         /\ time_lt (status_recv_time (steer w)) (request_send_time (steer w))
                            = false)
                 (m_wheels Fixtures.node0)).
  { constructor; [split; reflexivity | constructor]. }
  assert (Hne : m_wheels Fixtures.node0 <> []) by discriminate.
  split; [exact Hacc |]. split; [exact Hq |]. split; [reflexivity |]. split; [reflexivity |].
  split; [reflexivity |]. split; [exact Hne |].
  exact (update_starts_homing Fixtures.env_ok Fixtures.node0 Hacc Hq eq_refl eq_refl eq_refl
           Hne).
Defined.
